(** * ROUGE-N scorer and ROUGE-1.5.5 tokenizer: a shallow embedding

    The development follows [rouge/utils/tokenize.py] and [rouge/rouge.py].

    - A Python [str] is a list of Unicode code points ([N]); [bytes] is a
      list of octets.  [str.encode('utf8')] and [bytes.decode()] are written
      out, both can raise.
    - Python exceptions are the [Raise] arm of [result]; loops with [break]
      are recursive functions over the iterated list.
    - Python floats are modelled by exact rationals ([Q]); [round(x, 5)] is
      rounding half to even on the fifth decimal.
    - A [Counter] is an association list in insertion order, as Python
      dictionaries keep it. *)

From Stdlib Require Import String Ascii Bool Arith NArith ZArith Lia Lqa.
From Stdlib Require Import QArith Qround DecimalString DecimalNat List Permutation.
Import ListNotations.

Close Scope Q_scope.
Set Implicit Arguments.

(* ================================================================== *)
(** * Python values *)
(* ================================================================== *)

Module Py.

(** A Python [str]: a sequence of code points. *)
Definition str := list N.

(** A Python [bytes] value: a sequence of octets. *)
Definition bytes := list N.

(** String literals of the development are ASCII. *)
Definition of_string (s : string) : str :=
  map N_of_ascii (list_ascii_of_string s).

Inductive exn : Type :=
| ZeroDivisionError
| ValueError
| TypeError
| KeyError
| AssertionError
| NotImplementedError
| UnicodeEncodeError
| UnicodeDecodeError.

Inductive result (A : Type) : Type :=
| Ok (a : A)
| Raise (e : exn).

Arguments Ok {A} a.
Arguments Raise {A} e.

Definition bind {A B : Type} (m : result A) (f : A -> result B) : result B :=
  match m with
  | Ok a => f a
  | Raise e => Raise e
  end.

Definition fmap {A B : Type} (f : A -> B) (m : result A) : result B :=
  bind m (fun a => Ok (f a)).

(** [mapM f l]: evaluate [f] on every element, left to right, stopping at
    the first exception (a list comprehension whose body can raise). *)
Fixpoint mapM {A B : Type} (f : A -> result B) (l : list A) : result (list B) :=
  match l with
  | [] => Ok []
  | a :: l' =>
      bind (f a) (fun b => bind (mapM f l') (fun bs => Ok (b :: bs)))
  end.

Fixpoint str_eqb (s t : str) : bool :=
  match s, t with
  | [], [] => true
  | c :: s', d :: t' => N.eqb c d && str_eqb s' t'
  | _, _ => false
  end.

(** [l[:k]] for an integer [k]: a negative [k] counts from the end. *)
Definition take (A : Type) (k : Z) (l : list A) : list A :=
  if (0 <=? k)%Z then firstn (Z.to_nat k) l
  else firstn (length l - Z.to_nat (- k)) l.

(** [l[-n:]] for a natural [n]: the last [n] elements, the whole list when
    it is shorter than [n]; [l[-0:]] is [l[0:]], the whole list. *)
Definition last_n (A : Type) (n : nat) (l : list A) : list A :=
  match n with
  | O => l
  | S _ => skipn (length l - n) l
  end.

(** [l[i:i+n]] for naturals [i] and [n]. *)
Definition slice (A : Type) (i n : nat) (l : list A) : list A :=
  firstn n (skipn i l).

(** [sep.join(l)]. *)
Fixpoint join (sep : str) (l : list str) : str :=
  match l with
  | [] => []
  | [s] => s
  | s :: l' => s ++ sep ++ join sep l'
  end.

(** [sum(l)] over non-negative integers. *)
Definition sum (l : list nat) : nat := fold_right Nat.add 0 l.

(** ** UTF-8 *)

Definition is_surrogate (c : N) : bool := (0xD800 <=? c)%N && (c <=? 0xDFFF)%N.

(** UTF-8 encoding of one code point; lone surrogates cannot be encoded. *)
Definition utf8_encode_char (c : N) : result bytes :=
  if (c <? 0x80)%N then Ok [c]
  else if (c <? 0x800)%N then
    Ok [0xC0 + c / 64; 0x80 + c mod 64]%N
  else if (c <? 0x10000)%N then
    if is_surrogate c then Raise UnicodeEncodeError
    else Ok [0xE0 + c / 4096; 0x80 + (c / 64) mod 64; 0x80 + c mod 64]%N
  else if (c <? 0x110000)%N then
    Ok [0xF0 + c / 262144; 0x80 + (c / 4096) mod 64;
        0x80 + (c / 64) mod 64; 0x80 + c mod 64]%N
  else Raise UnicodeEncodeError.

(** [s.encode('utf8')]. *)
Fixpoint utf8_encode (s : str) : result bytes :=
  match s with
  | [] => Ok []
  | c :: s' =>
      bind (utf8_encode_char c) (fun b =>
      bind (utf8_encode s') (fun bs => Ok (b ++ bs)))
  end.

Definition is_cont (b : N) : bool := (0x80 <=? b)%N && (b <? 0xC0)%N.

Definition cons_char (c : N) (m : result str) : result str :=
  fmap (cons c) m.

(** [b.decode()]: strict UTF-8 (no overlong forms, no surrogates, nothing
    above U+10FFFF, no truncated sequence). *)
Fixpoint utf8_decode (bs : bytes) : result str :=
  match bs with
  | [] => Ok []
  | b0 :: r0 =>
      if (b0 <? 0x80)%N then cons_char b0 (utf8_decode r0)
      else if (0xC2 <=? b0)%N && (b0 <? 0xE0)%N then
        match r0 with
        | b1 :: r1 =>
            if is_cont b1
            then cons_char ((b0 - 0xC0) * 64 + (b1 - 0x80))%N (utf8_decode r1)
            else Raise UnicodeDecodeError
        | [] => Raise UnicodeDecodeError
        end
      else if (0xE0 <=? b0)%N && (b0 <? 0xF0)%N then
        match r0 with
        | b1 :: b2 :: r2 =>
            let c := ((b0 - 0xE0) * 4096 + (b1 - 0x80) * 64 + (b2 - 0x80))%N in
            if is_cont b1 && is_cont b2 && (0x800 <=? c)%N
               && negb (is_surrogate c)
            then cons_char c (utf8_decode r2)
            else Raise UnicodeDecodeError
        | _ => Raise UnicodeDecodeError
        end
      else if (0xF0 <=? b0)%N && (b0 <? 0xF5)%N then
        match r0 with
        | b1 :: b2 :: b3 :: r3 =>
            let c := ((b0 - 0xF0) * 262144 + (b1 - 0x80) * 4096
                      + (b2 - 0x80) * 64 + (b3 - 0x80))%N in
            if is_cont b1 && is_cont b2 && is_cont b3
               && (0x10000 <=? c)%N && (c <? 0x110000)%N
            then cons_char c (utf8_decode r3)
            else Raise UnicodeDecodeError
        | _ => Raise UnicodeDecodeError
        end
      else Raise UnicodeDecodeError
  end.

(** [len(s.encode('utf8'))]. *)
Definition byte_length (s : str) : result nat :=
  fmap (@length N) (utf8_encode s).

(** A string of ASCII characters only. *)
Definition is_ascii (s : str) : Prop := Forall (fun c => (c < 0x80)%N) s.

Definition str_eq_dec (s t : str) : {s = t} + {s <> t} :=
  list_eq_dec N.eq_dec s t.

End Py.

Export Py.

Declare Scope py_scope.
Delimit Scope py_scope with py.
Notation "x <- m ;; k" := (Py.bind m (fun x => k))
  (at level 61, m at next level, right associativity) : py_scope.
Open Scope py_scope.

(* ================================================================== *)
(** * rouge/utils/tokenize.py *)
(* ================================================================== *)

(** A tokenized text: sentences, each a list of tokens. *)
Definition Document := list (list str).

(** [BaseTokenizer]: the interface the scorer consumes. *)
Module Base.
Class BaseTokenizer (T : Type) : Type :=
  { tokenize_text : T -> str -> result Document }.
End Base.

Module Tokenize.

Definition in_range (lo hi c : N) : bool := (lo <=? c)%N && (c <=? hi)%N.

Definition is_upper (c : N) : bool := in_range 65 90 c.   (* A-Z *)
Definition is_lower (c : N) : bool := in_range 97 122 c.  (* a-z *)
Definition is_digit (c : N) : bool := in_range 48 57 c.   (* 0-9 *)

Definition space : N := 32.
Definition hyphen : N := 45.
Definition newline : N := 10.
Definition dollar : N := 36.

(** The class [\s] of [re] on [str] patterns, which is [str.isspace]. *)
Definition is_space (c : N) : bool :=
  in_range 9 13 c || in_range 28 32 c || (c =? 0x85)%N || (c =? 0xA0)%N
  || (c =? 0x1680)%N || in_range 0x2000 0x200A c || (c =? 0x2028)%N
  || (c =? 0x2029)%N || (c =? 0x202F)%N || (c =? 0x205F)%N || (c =? 0x3000)%N.

(** The class [[A-Za-z0-9\-]]. *)
Definition is_word_char (c : N) : bool :=
  is_upper c || is_lower c || is_digit c || (c =? hyphen)%N.

(** [str.lower] on the characters that reach it: [_preprocess_word] is
    applied to words of [[A-Za-z0-9-]] only (lemma [preprocess_text_chars]). *)
Definition lower_char (c : N) : N := if is_upper c then (c + 32)%N else c.
Definition lower (s : str) : str := map lower_char s.

(** [x.split(sep)] for a one-character separator: empty fields are kept. *)
Fixpoint split_on (sep : N) (s : str) : list str :=
  match s with
  | [] => [[]]
  | c :: s' =>
      if (c =? sep)%N then [] :: split_on sep s'
      else match split_on sep s' with
           | w :: ws => (c :: w) :: ws
           | [] => [[c]]
           end
  end.

(** [x.split()]: fields between runs of whitespace, no empty field.
    [cur] is the field being read, last character first. *)
Fixpoint split_ws_from (cur : str) (s : str) : list str :=
  match s with
  | [] => match cur with [] => [] | _ => [rev cur] end
  | c :: s' =>
      if is_space c
      then match cur with
           | [] => split_ws_from [] s'
           | _ => rev cur :: split_ws_from [] s'
           end
      else split_ws_from (c :: cur) s'
  end.

Definition split_ws (s : str) : list str := split_ws_from [] s.

(** [re.sub("-", " - ", text)]. *)
Definition isolate_hyphens (text : str) : str :=
  flat_map (fun c => if (c =? hyphen)%N then [space; hyphen; space] else [c]) text.

(** [re.sub(r"[^A-Za-z0-9\-]", " ", text)]. *)
Definition blank_other (text : str) : str :=
  map (fun c => if is_word_char c then c else space) text.

(** [re.sub(r"^\s+", "", text)]. *)
Fixpoint lstrip (text : str) : str :=
  match text with
  | [] => []
  | c :: text' => if is_space c then lstrip text' else text
  end.

(** [re.sub(r"\s+$", "", text)]. *)
Definition rstrip (text : str) : str := rev (lstrip (rev text)).

(** [re.sub(r"\s+", " ", text)]; [in_ws] tells that the previous character
    belonged to the run being replaced. *)
Fixpoint collapse_from (in_ws : bool) (text : str) : str :=
  match text with
  | [] => []
  | c :: text' =>
      if is_space c
      then (if in_ws then collapse_from true text'
            else space :: collapse_from true text')
      else c :: collapse_from false text'
  end.

Definition collapse (text : str) : str := collapse_from false text.

Definition _preprocess_text (text : str) : str :=
  let text := isolate_hyphens text in
  let text := blank_other text in
  let text := lstrip text in
  let text := rstrip text in
  let text := collapse text in
  text.

(** Truth value of a variable holding a [str] or [None]. *)
Definition truthy (word : option str) : bool :=
  match word with
  | Some (_ :: _) => true
  | _ => false
  end.

(** [re.match("^[a-z0-9\$]", word)]. *)
Definition starts_ok (word : str) : bool :=
  match word with
  | c :: _ => is_lower c || is_digit c || (c =? dollar)%N
  | [] => false
  end.

(** The last binding of [k] in a list of pairs: how a dict comprehension
    over that list answers [d[k]]. *)
Definition dict_get (A : Type) (k : str) (l : list (str * A)) : option A :=
  fold_left (fun acc kv => if str_eqb (fst kv) k then Some (snd kv) else acc)
            l None.

Record Rouge155Tokenizer : Type := mkRouge155Tokenizer
  { byte_limit : Z;
    word_limit : Z;
    stem : option (str -> str);
    remove_stopwords : option (str -> option str);
    split_sentences : str -> list str }.

Section External.

(** What the package takes from outside the repository: the Porter stemmer
    of nltk ([PorterStemmer('MARTIN_EXTENSIONS').stem]), the lines of the
    four WordNet exception files (word, base form), the lines of the
    stopword file, and [re.findall] for the SEE pattern (one tuple of four
    groups per match). *)
Variable porter_stem : str -> str.
Variable exceptions : list (str * str).
Variable stopwords : list str.
Variable see_findall : str -> list (str * str * str * str).

Definition _get_stemmer (stem : bool) : option (str -> str) :=
  if negb stem then None
  else Some (fun x =>
               match dict_get x exceptions with
               | Some base => porter_stem base
               | None => porter_stem x
               end).

Definition _get_stopword_remover (sw_removal : bool) : option (str -> option str) :=
  if negb sw_removal then None
  else Some (fun x => if existsb (str_eqb x) stopwords then None else Some x).

Definition _get_sentence_splitter (sentence_split : option str)
  : result (str -> list str) :=
  match sentence_split with
  | None => Ok (fun x => [x])
  | Some m =>
      if str_eqb m (of_string "SPL") then Ok (split_on newline)
      else if str_eqb m (of_string "SEE")
      then Ok (fun x => map (fun m => snd m) (see_findall x))
      else Raise AssertionError
  end.

(** [Rouge155Tokenizer(byte_limit, word_limit, stem, sw_removal,
    sentence_split=...)]. *)
Definition new (byte_limit word_limit : Z) (stem sw_removal : bool)
  (sentence_split : option str) : result Rouge155Tokenizer :=
  splitter <- _get_sentence_splitter sentence_split ;;
  Ok {| byte_limit := byte_limit;
        word_limit := word_limit;
        stem := _get_stemmer stem;
        remove_stopwords := _get_stopword_remover sw_removal;
        split_sentences := splitter |}.

End External.

Section Methods.

Variable self : Rouge155Tokenizer.

Definition _preprocess_word (word : str) : option str :=
  let word := lower word in
  let word :=
    match remove_stopwords self with
    | Some f => f word
    | None => Some word
    end in
  let word :=
    match word with
    | Some ((_ :: _) as w) => if starts_ok w then word else None
    | _ => word
    end in
  match stem self, word with
  | Some f, Some ((_ :: _) as w) => Some (f w)
  | _, _ => word
  end.

(** [[self._preprocess_word(w) for w in sentence.split()
      if self._preprocess_word(w)]]. *)
Definition tokenize_sentence (sentence : str) : list str :=
  flat_map (fun w =>
              if truthy (_preprocess_word w)
              then match _preprocess_word w with
                   | Some t => [t]
                   | None => []
                   end
              else [])
           (split_ws (_preprocess_text sentence)).

(** The inner loop of [_truncate_bytes] over the words of one sentence.
    Returns [tokenized_sentence], [byte_len] and whether the loop left
    through [break]: only then was [tokenized_sentence] appended. *)
Fixpoint truncate_bytes_words (byte_len : Z) (sentence : list str)
  : result (list str * Z * bool) :=
  match sentence with
  | [] => Ok ([], byte_len, false)
  | word :: sentence' =>
      enc <- utf8_encode word ;;
      let new_byte_len := (byte_len + Z.of_nat (length enc))%Z in
      if (new_byte_len >=? byte_limit self)%Z then
        cut <- utf8_decode (take (byte_limit self - byte_len) enc) ;;
        Ok ([cut], byte_limit self, true)
      else
        r <- truncate_bytes_words new_byte_len sentence' ;;
        let '(tokenized_sentence, byte_len', broke) := r in
        Ok (word :: tokenized_sentence, byte_len', broke)
  end.

(** The outer loop of [_truncate_bytes]; the result is what the loop
    appends to [new_tokenized_text] from [byte_len] on. *)
Fixpoint truncate_bytes_from (byte_len : Z) (tokenized_text : Document)
  : result Document :=
  match tokenized_text with
  | [] => Ok []
  | sentence :: tokenized_text' =>
      n <- byte_length (concat sentence) ;;
      let new_byte_len := (byte_len + Z.of_nat n)%Z in
      if (new_byte_len >? byte_limit self)%Z then
        r <- truncate_bytes_words byte_len sentence ;;
        let '(tokenized_sentence, byte_len', broke) := r in
        let appended := if broke : bool then [tokenized_sentence] else [] in
        if (byte_len' =? byte_limit self)%Z then Ok appended
        else
          tl <- truncate_bytes_from byte_len' tokenized_text' ;;
          Ok (appended ++ tl)
      else
        if (new_byte_len =? byte_limit self)%Z then Ok [sentence]
        else
          tl <- truncate_bytes_from new_byte_len tokenized_text' ;;
          Ok (sentence :: tl)
  end.

Definition _truncate_bytes (tokenized_text : Document) : result Document :=
  truncate_bytes_from 0 tokenized_text.

(** The loop of [_truncate_words]. *)
Fixpoint truncate_words_from (word_len : Z) (tokenized_text : Document)
  : Document :=
  match tokenized_text with
  | [] => []
  | sentence :: tokenized_text' =>
      let new_word_len := (word_len + Z.of_nat (length sentence))%Z in
      if (new_word_len >? word_limit self)%Z then
        [take (word_limit self - word_len) sentence]
      else
        if (new_word_len =? word_limit self)%Z then [sentence]
        else sentence :: truncate_words_from new_word_len tokenized_text'
  end.

Definition _truncate_words (tokenized_text : Document) : Document :=
  truncate_words_from 0 tokenized_text.

(** The first loop of [tokenize_text]: the Document before truncation. *)
Definition untruncated (text : str) : Document :=
  map tokenize_sentence (split_sentences self text).

Definition tokenize_text (text : str) : result Document :=
  let tokenized_text := untruncated text in
  tokenized_text <-
    (if (byte_limit self =? 0)%Z then Ok tokenized_text
     else _truncate_bytes tokenized_text) ;;
  Ok (if (word_limit self =? 0)%Z then tokenized_text
      else _truncate_words tokenized_text).

End Methods.

#[global] Instance Rouge155Tokenizer_BaseTokenizer
  : Base.BaseTokenizer Rouge155Tokenizer :=
  {| Base.tokenize_text := tokenize_text |}.

End Tokenize.

(* ================================================================== *)
(** * rouge/rouge.py *)
(* ================================================================== *)

Module Rouge.

(** ** Counters *)

(** [Counter]: n-gram and count, in order of first insertion. *)
Definition Counter := list (str * nat).

Fixpoint counter_add (ngram : str) (c : Counter) : Counter :=
  match c with
  | [] => [(ngram, 1)]
  | (k, v) :: c' =>
      if str_eqb k ngram then (k, S v) :: c'
      else (k, v) :: counter_add ngram c'
  end.

(** [Counter(ngrams)]. *)
Definition generate_counter (ngrams : list str) : Counter :=
  fold_left (fun c ngram => counter_add ngram c) ngrams [].

Definition keys (c : Counter) : list str := map fst c.
Definition values (c : Counter) : list nat := map snd c.

(** [ngram in counter]. *)
Definition contains (c : Counter) (ngram : str) : bool :=
  existsb (fun kv => str_eqb (fst kv) ngram) c.

(** [counter[ngram]]; a [Counter] answers 0 for a missing key. *)
Fixpoint get (c : Counter) (ngram : str) : nat :=
  match c with
  | [] => 0
  | (k, v) :: c' => if str_eqb k ngram then v else get c' ngram
  end.

(** A dictionary keyed by the n-gram size. *)
Fixpoint lookup (A : Type) (n : nat) (d : list (nat * A)) : result A :=
  match d with
  | [] => Raise KeyError
  | (k, v) :: d' => if Nat.eqb k n then Ok v else lookup n d'
  end.

(** ** Numbers *)

(** [a / b] on two counts, [b] not zero. *)
Definition div (a b : nat) : Q :=
  (inject_Z (Z.of_nat a) / inject_Z (Z.of_nat b))%Q.

(** Nearest integer, ties to even. *)
Definition round_half_even (q : Q) : Z :=
  let f := Qfloor q in
  match (q - inject_Z f ?= 1 # 2)%Q with
  | Lt => f
  | Gt => (f + 1)%Z
  | Eq => if Z.even f then f else (f + 1)%Z
  end.

(** [round(q, 5)]. *)
Definition round5 (q : Q) : Q :=
  Qred (inject_Z (round_half_even (q * 100000)) / 100000)%Q.

(** [f"ROUGE-{n}"]. *)
Definition label (n : nat) : str :=
  of_string ("ROUGE-" ++ NilEmpty.string_of_uint (Nat.to_uint n)).

Record Scores : Type := mkScores { R : Q; P : Q; F : Q }.

(** ** The scorer *)

(** [self.incremental] once [reset_incremental] has filled it. *)
Record Incremental : Type := mkIncremental
  { ref_counters : list (nat * list Counter);
    refs_count : list (nat * nat);
    prev_tokens : list str }.

(** A [Rouge] object.  [incremental = None] is the empty dictionary the
    constructor leaves.  A negative [n] makes every [range(1, N+1)] and
    [range(N)] empty, as 0 does, so [N] is a natural number. *)
Record Rouge (T : Type) : Type := mkRouge
  { tokenizer : T;
    N : nat;
    scoring : str;
    alpha : Q;
    incremental : option Incremental }.

Arguments mkRouge {T}.

(** [Rouge(tokenizer, n, scoring, alpha)]. *)
Definition new (T : Type) (tokenizer : T) (n : nat) (scoring : str) (alpha : Q)
  : Rouge T :=
  mkRouge tokenizer n scoring alpha None.

Definition _ngram_tokenize (tokenized_sentences : Document) (n : nat) : list str :=
  let tokenized_text := concat tokenized_sentences in
  map (fun i => join [Tokenize.space] (slice i n tokenized_text))
      (seq 0 (S (length tokenized_text) - n)).

(** [sum(matches.values())] for the dictionary [matches] of [n_score]; the
    keys of a [Counter] are distinct (lemma [generate_counter_keys_NoDup]),
    so the dictionary has one entry per candidate n-gram kept. *)
Definition matches_of (ref_counter cand_counter : Counter) : nat :=
  sum (map (fun ngram => Nat.min (get ref_counter ngram) (get cand_counter ngram))
           (filter (contains ref_counter) (keys cand_counter))).

(** One turn of the loop over [ref_texts_tokens]: the entries appended to
    [cands_count], [refs_count] and [matches_count]. *)
Definition per_reference (cand_counter : Counter) (n : nat) (ref : Document)
  : nat * nat * nat :=
  let ref_counter := generate_counter (_ngram_tokenize ref n) in
  (sum (values cand_counter), sum (values ref_counter),
   matches_of ref_counter cand_counter).

(** The key of [max] under scoring "B": [x[2]/x[1]]. *)
Definition best_key (x : nat * nat * nat) : result Q :=
  let '(_, refs, matches) := x in
  if Nat.eqb refs 0 then Raise ZeroDivisionError else Ok (div matches refs).

(** [max] keeps the first item whose key is largest. *)
Fixpoint max_from (A : Type) (best : A) (kbest : Q) (l : list (A * Q)) : A :=
  match l with
  | [] => best
  | (x, k) :: l' =>
      if Qle_bool k kbest then max_from best kbest l'
      else max_from x k l'
  end.

Definition max_by_key (xs : list (nat * nat * nat)) : result (nat * nat * nat) :=
  match xs with
  | [] => Raise ValueError
  | x :: xs' =>
      k <- best_key x ;;
      ks <- mapM best_key xs' ;;
      Ok (max_from x k (combine xs' ks))
  end.

Definition recall_of (refs_count matches_count : nat) : Q :=
  if Nat.eqb refs_count 0 then 0%Q else div matches_count refs_count.

Definition precision_of (cands_count matches_count : nat) : Q :=
  if Nat.eqb cands_count 0 then 0%Q else div matches_count cands_count.

Definition fscore_of (alpha precision recall : Q) (matches_count : nat) : result Q :=
  if Nat.eqb matches_count 0 then Ok 0%Q
  else
    let d := ((1 - alpha) * precision + alpha * recall)%Q in
    if Qeq_bool d 0 then Raise ZeroDivisionError
    else Ok (precision * recall / d)%Q.

(** The counts [cands_count, refs_count, matches_count] after the
    [if self.scoring == ...] of [n_score].  Under a scoring that is neither
    "A" nor "B" the three stay lists, and dividing them raises unless they
    are empty. *)
Definition aggregate (scoring : str) (triples : list (nat * nat * nat))
  : result (nat * nat * nat) :=
  if str_eqb scoring (of_string "A") then
    Ok (sum (map (fun x => fst (fst x)) triples),
        sum (map (fun x => snd (fst x)) triples),
        sum (map snd triples))
  else if str_eqb scoring (of_string "B") then max_by_key triples
  else match triples with
       | [] => Ok (0, 0, 0)
       | _ :: _ => Raise TypeError
       end.

Section Scorer.

Context {T : Type} `{Base.BaseTokenizer T}.

Variable self : Rouge T.

Definition _tokenize (text : str) : result Document :=
  Base.tokenize_text (tokenizer self) text.

(** The body of the loop of [n_score] up to the aggregated counts. *)
Definition counts_at (ref_texts_tokens : list Document) (cand_text_tokens : Document)
  (n : nat) : result (nat * nat * nat) :=
  let cand_counter := generate_counter (_ngram_tokenize cand_text_tokens n) in
  aggregate (scoring self)
            (map (per_reference cand_counter n) ref_texts_tokens).

Definition scores_at (ref_texts_tokens : list Document) (cand_text_tokens : Document)
  (n : nat) : result Scores :=
  c <- counts_at ref_texts_tokens cand_text_tokens n ;;
  let '(cands_count, refs_count, matches_count) := c in
  let recall := recall_of refs_count matches_count in
  let precision := precision_of cands_count matches_count in
  fscore <- fscore_of (alpha self) precision recall matches_count ;;
  Ok {| R := round5 recall; P := round5 precision; F := round5 fscore |}.

Definition n_score (ref_texts : list str) (cand_text : str)
  : result (list (str * Scores)) :=
  cand_text_tokens <- _tokenize cand_text ;;
  ref_texts_tokens <- mapM _tokenize ref_texts ;;
  mapM (fun n =>
          s <- scores_at ref_texts_tokens cand_text_tokens n ;;
          Ok (label n, s))
       (seq 1 (N self)).

(** The two nested loops of [n_score_incremental]. *)
Definition incremental_matches (ref_counters : list Counter) (new_ngrams : list str)
  : nat :=
  fold_left
    (fun matches_count ref_counter =>
       fold_left
         (fun matches_count ngram =>
            if contains ref_counter ngram then S matches_count
            else matches_count)
         new_ngrams matches_count)
    ref_counters 0.

(** [new_ngrams] of [n_score_incremental] for the updated buffer. *)
Definition new_ngrams_of (prev_tokens : list str) (n : nat) : list str :=
  _ngram_tokenize [last_n n prev_tokens] n.

Definition with_incremental (i : Incremental) : Rouge T :=
  mkRouge (tokenizer self) (N self) (scoring self) (alpha self) (Some i).

(** [n_score_incremental]: the scorer after the call and the recall per
    label, [None] for Python's [None].  What a call that raises leaves in
    [self.incremental] is not described. *)
Definition n_score_incremental (new_text : str)
  : result (Rouge T * list (str * option Q)) :=
  toks <- _tokenize new_text ;;
  let new_tokens := concat toks in
  match new_tokens with
  | _ :: _ =>
      inc <- match incremental self with
             | Some i => Ok i
             | None => Raise KeyError
             end ;;
      let inc := {| ref_counters := ref_counters inc;
                    refs_count := refs_count inc;
                    prev_tokens := prev_tokens inc ++ new_tokens |} in
      results <-
        mapM (fun n =>
                let new_ngrams := new_ngrams_of (prev_tokens inc) n in
                counters <- lookup n (ref_counters inc) ;;
                let matches_count := incremental_matches counters new_ngrams in
                total <- lookup n (refs_count inc) ;;
                if Nat.eqb total 0 then Raise ZeroDivisionError
                else Ok (label n, Some (div matches_count total)))
             (seq 1 (N self)) ;;
      Ok (with_incremental inc, results)
  | [] => Ok (self, map (fun n => (label n, None)) (seq 1 (N self)))
  end.

(** The tables of [reset_incremental] for one n. *)
Definition reference_counters (ref_texts : list str) (n : nat)
  : result (list Counter) :=
  mapM (fun ref =>
          toks <- _tokenize ref ;;
          Ok (generate_counter (_ngram_tokenize toks n)))
       ref_texts.

Definition reset_incremental (ref_texts : list str) : result (Rouge T) :=
  let prev_tokens := map (fun _ => @nil BinNums.N) (seq 0 (N self)) in
  tables <-
    mapM (fun n =>
            ref_counters <- reference_counters ref_texts n ;;
            Ok (n, ref_counters))
         (seq 1 (N self)) ;;
  Ok (with_incremental
        {| ref_counters := tables;
           refs_count :=
             map (fun e => (fst e, sum (map (fun c => sum (values c)) (snd e))))
                 tables;
           prev_tokens := prev_tokens |}).

End Scorer.

(** ** [from_rouge155_args] *)

(** The recognised keys of [args] with an effect, with their defaults. *)
Record Args : Type := mkArgs
  { arg_b : Z; arg_l : Z; arg_m : bool; arg_s : bool;
    arg_n : nat; arg_f : str; arg_p : Q }.

Definition default_args : Args :=
  {| arg_b := 0; arg_l := 0; arg_m := false; arg_s := false;
     arg_n := 4; arg_f := of_string "A"; arg_p := 1 # 2 |}.

Section FromArgs.

Variable porter_stem : str -> str.
Variable exceptions : list (str * str).
Variable stopwords : list str.
Variable see_findall : str -> list (str * str * str * str).

Definition from_rouge155_args (args : Args)
  : result (Rouge Tokenize.Rouge155Tokenizer) :=
  tokenizer <-
    Tokenize.new porter_stem exceptions stopwords see_findall
      (arg_b args) (arg_l args) (arg_m args) (arg_s args)
      (Some (of_string "SPL")) ;;
  Ok (new tokenizer (arg_n args) (arg_f args) (arg_p args)).

End FromArgs.

End Rouge.

(* ================================================================== *)
(** * Sessions and sample configurations *)
(* ================================================================== *)

Module Session.

Section Feed.

Context {T : Type} `{Base.BaseTokenizer T}.

(** Successive calls of [n_score_incremental], one per increment; the
    outputs are collected in call order. *)
Fixpoint feed (self : Rouge.Rouge T) (increments : list str)
  : result (Rouge.Rouge T * list (list (str * option Q))) :=
  match increments with
  | [] => Ok (self, [])
  | text :: increments' =>
      r <- Rouge.n_score_incremental self text ;;
      let '(self', out) := r in
      r' <- feed self' increments' ;;
      let '(self'', outs) := r' in
      Ok (self'', out :: outs)
  end.

(** [reset_incremental] followed by the increments. *)
Definition run (self : Rouge.Rouge T) (ref_texts increments : list str)
  : result (list (list (str * option Q))) :=
  self' <- Rouge.reset_incremental self ref_texts ;;
  r <- feed self' increments ;;
  Ok (snd r).

End Feed.

(** The recall one call reports under a label; [None] adds nothing. *)
Fixpoint recall_at (lbl : str) (out : list (str * option Q)) : Q :=
  match out with
  | [] => 0%Q
  | (k, v) :: out' =>
      if str_eqb k lbl
      then match v with Some q => q | None => 0%Q end
      else recall_at lbl out'
  end.

(** Sum over the calls of the recall reported under a label. *)
Definition recall_sum (lbl : str) (outs : list (list (str * option Q))) : Q :=
  fold_right (fun out acc => (recall_at lbl out + acc)%Q) 0%Q outs.

(** The batch recall under a label. *)
Fixpoint batch_recall (lbl : str) (res : list (str * Rouge.Scores)) : option Q :=
  match res with
  | [] => None
  | (k, s) :: res' =>
      if str_eqb k lbl then Some (Rouge.R s) else batch_recall lbl res'
  end.

End Session.

Module Spec.

(** A token that is not the empty string. *)
Definition nonempty (w : str) : Prop := w <> [].

(** The stemmer and the stopword remover of a tokenizer return ASCII
    strings on ASCII words. *)
Definition ascii_safe (t : Tokenize.Rouge155Tokenizer) : Prop :=
  (forall f, Tokenize.stem t = Some f ->
             forall w, is_ascii w -> is_ascii (f w))
  /\ (forall g, Tokenize.remove_stopwords t = Some g ->
                forall w w', g w = Some w' -> is_ascii w -> is_ascii w').

(** The characters [_preprocess_text] leaves. *)
Definition word_or_space (c : N) : Prop :=
  Tokenize.is_word_char c = true \/ c = Tokenize.space.

(** Number of characters of a Document. *)
Definition doc_length (d : Document) : nat := length (concat (concat d)).

(** Occurrences of an n-gram in a list of n-grams. *)
Definition occurrences (ngrams : list str) (ngram : str) : nat :=
  count_occ str_eq_dec ngrams ngram.

(** Membership of an n-gram in a list of n-grams. *)
Definition occurs (ngrams : list str) (ngram : str) : bool :=
  existsb (str_eqb ngram) ngrams.

(** Size of the multiset intersection of two lists of n-grams, in the
    words of the specification: the sum, over the distinct n-grams
    present in both, of the minimum of their two counts. *)
Definition multiset_intersection (cand_ngrams ref_ngrams : list str) : nat :=
  sum (map (fun ngram => Nat.min (occurrences cand_ngrams ngram)
                                 (occurrences ref_ngrams ngram))
           (filter (occurs ref_ngrams) (nodup str_eq_dec cand_ngrams))).

(** The per-n reference tables [reset_incremental] stores for references
    tokenized to [docs]. *)
Definition tables (docs : list Document) (N : nat)
  : list (nat * list Rouge.Counter) :=
  map (fun n =>
         (n, map (fun d => Rouge.generate_counter (Rouge._ngram_tokenize d n))
                 docs))
      (seq 1 N).

(** Total number of n-grams of the references, repeats included. *)
Definition total (docs : list Document) (n : nat) : nat :=
  sum (map (fun d => length (Rouge._ngram_tokenize d n)) docs).

Definition totals (docs : list Document) (N : nat) : list (nat * nat) :=
  map (fun n => (n, total docs n)) (seq 1 N).

(** Number of pairs of a reference and a new n-gram of the buffer such
    that the n-gram occurs in the reference. *)
Definition membership_matches (docs : list Document) (prev_tokens : list str)
  (n : nat) : nat :=
  sum (map (fun d => length (filter (occurs (Rouge._ngram_tokenize d n))
                                    (Rouge.new_ngrams_of prev_tokens n)))
           docs).

End Spec.

Module Sample.

(** Stand-ins for what comes from outside the repository. *)
Definition porter_stem (w : str) : str := w.
Definition exceptions : list (str * str) :=
  [(of_string "freest", of_string "free")].
Definition stopwords : list str := [of_string "afterwards"].
Definition see_findall (_ : str) : list (str * str * str * str) := [].

Definition tokenizer (byte_limit word_limit : Z) (stem sw_removal : bool)
  : result Tokenize.Rouge155Tokenizer :=
  Tokenize.new porter_stem exceptions stopwords see_findall
    byte_limit word_limit stem sw_removal (Some (of_string "SPL")).

(** [Rouge.from_rouge155_args({"n": n, "f": f})]. *)
Definition scorer (n : nat) (f : string)
  : result (Rouge.Rouge Tokenize.Rouge155Tokenizer) :=
  Rouge.from_rouge155_args porter_stem exceptions stopwords see_findall
    {| Rouge.arg_b := 0; Rouge.arg_l := 0; Rouge.arg_m := false;
       Rouge.arg_s := false; Rouge.arg_n := n;
       Rouge.arg_f := of_string f; Rouge.arg_p := 1 # 2 |}.

Definition n_score (n : nat) (f : string) (ref_texts : list string)
  (cand_text : string) : result (list (str * Rouge.Scores)) :=
  self <- scorer n f ;;
  Rouge.n_score self (map of_string ref_texts) (of_string cand_text).

Definition incremental (n : nat) (ref_texts increments : list string)
  : result (list (list (str * option Q))) :=
  self <- scorer n "A" ;;
  Session.run self (map of_string ref_texts) (map of_string increments).

(** The tokens of a text under the default configuration. *)
Definition tokens (text : string) : result Document :=
  t <- tokenizer 0 0 false false ;;
  Tokenize.tokenize_text t (of_string text).

(** The tokenizer [tokenizer] builds. *)
Definition spl (byte_limit word_limit : Z) (stem sw_removal : bool)
  : Tokenize.Rouge155Tokenizer :=
  {| Tokenize.byte_limit := byte_limit;
     Tokenize.word_limit := word_limit;
     Tokenize.stem := Tokenize._get_stemmer porter_stem exceptions stem;
     Tokenize.remove_stopwords :=
       Tokenize._get_stopword_remover stopwords sw_removal;
     Tokenize.split_sentences := Tokenize.split_on Tokenize.newline |}.

(** The scorer [scorer] builds. *)
Definition rouge (n : nat) (f : string) : Rouge.Rouge Tokenize.Rouge155Tokenizer :=
  Rouge.new (spl 0 0 false false) n (of_string f) (1 # 2).

(** The entries of [cands_count], [refs_count] and [matches_count] of
    [n_score] before aggregation. *)
Definition triples (n : nat) (ref_texts : list string) (cand_text : string)
  : result (list (nat * nat * nat)) :=
  cand <- tokens cand_text ;;
  refs <- mapM tokens ref_texts ;;
  Ok (map (Rouge.per_reference
             (Rouge.generate_counter (Rouge._ngram_tokenize cand n)) n) refs).

(** The aggregated counts of [n_score] for one n. *)
Definition counts (n : nat) (f : string) (ref_texts : list string)
  (cand_text : string) : result (nat * nat * nat) :=
  self <- scorer n f ;;
  cand <- Rouge._tokenize self (of_string cand_text) ;;
  refs <- mapM (Rouge._tokenize self) (map of_string ref_texts) ;;
  Rouge.counts_at self refs cand n.

(** The text of [test_byte_limit] and [test_word_limit] in
    [tests/test_tokenizer.py]. *)
Definition test_text : string :=
  "A testcase is created by subclassing unittest.TestCase. The three individual tests are defined with methods whose names start with the letters test. This naming convention informs the test runner about which methods represent tests.".

(** The state [reset_incremental] builds for N = 1 against the
    references "a" and "a". *)
Definition inc_a_a : Rouge.Incremental :=
  {| Rouge.ref_counters := Spec.tables [[[of_string "a"]]; [[of_string "a"]]] 1;
     Rouge.refs_count := Spec.totals [[[of_string "a"]]; [[of_string "a"]]] 1;
     Rouge.prev_tokens := [[]] |}.

End Sample.

(* ================================================================== *)
(** * Vocabulary of the further properties *)
(* ================================================================== *)

Module CharsetDefs.

(** A letter or a digit. *)
Definition alnum (c : N) : Prop :=
  Tokenize.is_upper c || Tokenize.is_lower c || Tokenize.is_digit c = true.

(** A lowercase letter or a digit. *)
Definition lower_alnum (c : N) : Prop :=
  Tokenize.is_lower c || Tokenize.is_digit c = true.

End CharsetDefs.

Module PlainDefs.

(** A letter, a digit or a line break stays; any other character becomes a
    space. *)
Definition plain_char (c : N) : N :=
  if Tokenize.is_upper c || Tokenize.is_lower c || Tokenize.is_digit c
     || (c =? Tokenize.newline)%N
  then c else Tokenize.space.

Definition plain (text : str) : str := map plain_char text.

(** The words other than the hyphen standing alone. *)
Definition keep (w : str) : bool := negb (str_eqb w [Tokenize.hyphen]).

End PlainDefs.

Module ScoreDefs.

Import Rouge.

(** The three scores of one label lie between 0 and 1. *)
Definition in_unit_interval (s : Scores) : Prop :=
  (0 <= R s <= 1)%Q /\ (0 <= P s <= 1)%Q /\ (0 <= F s <= 1)%Q.

End ScoreDefs.

Module DoubleDefs.

(** What is used of the division of two counts in binary64: on [0, 1] the
    quotient returned is within 2^-54 of the exact one (half the spacing
    of the doubles below 1), and it depends on the value of the exact
    quotient only. *)
Definition rounds_like_double (fl : Q -> Q) : Prop :=
  (forall q, (0 <= q <= 1)%Q ->
             (q - (1 # 18014398509481984) <= fl q
              <= q + (1 # 18014398509481984))%Q)
  /\ (forall p q, (p == q)%Q -> (fl p == fl q)%Q).

(** The key [x[2]/x[1]] as the code holds it: rounded. *)
Definition rounded_key (fl : Q -> Q) (x : nat * nat * nat) : result Q :=
  k <- Rouge.best_key x ;; Ok (fl k).

(** [max(..., key=lambda x: x[2]/x[1])] on rounded keys. *)
Definition max_by_rounded_key (fl : Q -> Q) (xs : list (nat * nat * nat))
  : result (nat * nat * nat) :=
  match xs with
  | [] => Raise ValueError
  | x :: xs' =>
      k <- rounded_key fl x ;;
      ks <- mapM (rounded_key fl) xs' ;;
      Ok (Rouge.max_from x k (combine xs' ks))
  end.

(** The keys of triples with matches at most the reference count and
    reference counts below 2^26. *)
Definition small_key (k : Q) : Prop :=
  exists m r, m <= r /\ 0 < r /\ (Z.of_nat r < 67108864)%Z
              /\ k = Rouge.div m r.

End DoubleDefs.

Module TelescopeDefs.

Import Rouge Spec.

(** The n-gram the i-th call of [n_score_incremental] counts when the
    tokens [W] are fed one per call after [reset_incremental]. *)
Definition counted_ngram (N : nat) (W : list str) (n i : nat) : str :=
  join [Tokenize.space] (last_n n (repeat [] N ++ firstn i W)).

(** The match count of [n_score] pooled over the references under
    scoring "A". *)
Definition batch_matches (docs : list Document) (cand : Document) (n : nat) : nat :=
  sum (map (fun d => multiset_intersection (_ngram_tokenize cand n)
                                           (_ngram_tokenize d n))
           docs).

(** What successive calls report on a state [reset_incremental] built,
    from the buffer [prev] on, for increments tokenized to [tdocs]. *)
Fixpoint ready_outputs (docs : list Document) (N : nat) (prev : list str)
  (tdocs : list Document) : list (list (str * option Q)) :=
  match tdocs with
  | [] => []
  | d :: tdocs' =>
      map (fun n => (label n,
                     Some (div (membership_matches docs (prev ++ concat d) n)
                               (total docs n))))
          (seq 1 N)
      :: ready_outputs docs N (prev ++ concat d) tdocs'
  end.

(** The numerators of those reports for one n. *)
Fixpoint numerators (docs : list Document) (prev : list str)
  (tdocs : list Document) (n : nat) : list nat :=
  match tdocs with
  | [] => []
  | d :: tdocs' =>
      membership_matches docs (prev ++ concat d) n
      :: numerators docs (prev ++ concat d) tdocs' n
  end.

(** A token of a reference: not empty and without a space. *)
Definition plain_token (w : str) : Prop := w <> [] /\ ~ In Tokenize.space w.

End TelescopeDefs.

(* ================================================================== *)
(** * Facts on Python values *)
(* ================================================================== *)

Module PyFacts.

Lemma str_eqb_eq (s t : str) : str_eqb s t = true <-> s = t.
Proof.
  revert t; induction s as [|c s IH]; intros [|d t]; simpl;
    try (split; (reflexivity || discriminate)).
  rewrite andb_true_iff, N.eqb_eq, IH.
  split; [intros [-> ->]; reflexivity | intros E; injection E; auto].
Qed.

Lemma str_eqb_refl (s : str) : str_eqb s s = true.
Proof. apply str_eqb_eq; reflexivity. Qed.

Lemma str_eqb_neq (s t : str) : str_eqb s t = false <-> s <> t.
Proof.
  rewrite <- str_eqb_eq. destruct (str_eqb s t); split; congruence.
Qed.

Lemma bind_ok (A B : Type) (m : result A) (f : A -> result B) (b : B) :
  bind m f = Ok b -> exists a, m = Ok a /\ f a = Ok b.
Proof. destruct m as [a|e]; simpl; [eauto | discriminate]. Qed.

Lemma utf8_encode_ascii (s : str) : is_ascii s -> utf8_encode s = Ok s.
Proof.
  induction 1 as [|c s Hc _ IH]; simpl; [reflexivity|].
  unfold utf8_encode_char.
  apply N.ltb_lt in Hc. rewrite Hc. simpl. rewrite IH. reflexivity.
Qed.

Lemma utf8_decode_ascii (s : bytes) : is_ascii s -> utf8_decode s = Ok s.
Proof.
  induction 1 as [|c s Hc _ IH]; simpl; [reflexivity|].
  apply N.ltb_lt in Hc. rewrite Hc, IH. reflexivity.
Qed.

Lemma byte_length_ascii (s : str) :
  is_ascii s -> byte_length s = Ok (length s).
Proof. intros Hs. unfold byte_length. rewrite utf8_encode_ascii; auto. Qed.

Lemma cons_char_ok (c : N) (m : result str) (s : str) :
  cons_char c m = Ok s -> s <> [].
Proof.
  destruct m; simpl; [intros E; injection E as <-; discriminate | discriminate].
Qed.

(** Decoding a non-empty byte string never yields the empty string. *)
Lemma utf8_decode_nonempty (b : N) (bs : bytes) (s : str) :
  utf8_decode (b :: bs) = Ok s -> s <> [].
Proof.
  cbn [utf8_decode]. intros E.
  repeat match type of E with
         | (if ?c then _ else _) = _ => destruct c
         | match ?l with [] => _ | _ :: _ => _ end = _ => destruct l
         | (let c := _ in _) = _ => cbv zeta in E
         end;
    try discriminate; eapply cons_char_ok; eassumption.
Qed.

Lemma is_ascii_app (s t : str) : is_ascii s -> is_ascii t -> is_ascii (s ++ t).
Proof. intros; apply Forall_app; auto. Qed.

Lemma is_ascii_concat (l : list str) : Forall is_ascii l -> is_ascii (concat l).
Proof.
  induction 1; simpl; [constructor | apply is_ascii_app; assumption].
Qed.

Lemma Forall_prefix (A : Type) (P : A -> Prop) (n : nat) (l : list A) :
  Forall P l -> Forall P (firstn n l).
Proof.
  intros Hl. revert n.
  induction Hl as [|x l Hx _ IH]; intros [|n]; simpl; constructor; auto.
Qed.

Lemma is_ascii_firstn (n : nat) (s : str) : is_ascii s -> is_ascii (firstn n s).
Proof. apply Forall_prefix. Qed.

Lemma Forall_take (A : Type) (P : A -> Prop) (k : Z) (l : list A) :
  Forall P l -> Forall P (take k l).
Proof.
  intros Hl. unfold take. destruct (0 <=? k)%Z; apply Forall_prefix; exact Hl.
Qed.

Lemma take_nonneg (A : Type) (k : Z) (l : list A) :
  (0 <= k)%Z -> take k l = firstn (Z.to_nat k) l.
Proof. intros Hk. unfold take. apply Z.leb_le in Hk. rewrite Hk. reflexivity. Qed.

End PyFacts.

(* ================================================================== *)
(** * Facts on the tokenizer *)
(* ================================================================== *)

Module TokenizeFacts.

Import Tokenize PyFacts Spec.

Ltac bool_to_prop :=
  repeat match goal with
         | H : _ || _ = true |- _ => apply orb_true_iff in H; destruct H as [H|H]
         | H : _ && _ = true |- _ => apply andb_true_iff in H; destruct H
         | H : (_ <=? _)%N = true |- _ => apply N.leb_le in H
         | H : (_ =? _)%N = true |- _ => apply N.eqb_eq in H
         end.

Lemma is_word_char_ascii (c : N) : is_word_char c = true -> (c < 0x80)%N.
Proof.
  unfold is_word_char, is_upper, is_lower, is_digit, in_range, hyphen.
  intros H. bool_to_prop; lia.
Qed.

Lemma word_or_space_ascii (c : N) : word_or_space c -> (c < 0x80)%N.
Proof.
  intros [H| ->]; [apply is_word_char_ascii; exact H | unfold space; lia].
Qed.

Lemma blank_other_chars (text : str) : Forall word_or_space (blank_other text).
Proof.
  unfold blank_other. apply Forall_forall. intros c Hc.
  apply in_map_iff in Hc. destruct Hc as [d [<- _]].
  destruct (is_word_char d) eqn:E; [left; exact E | right; reflexivity].
Qed.

Lemma lstrip_Forall (P : N -> Prop) (text : str) :
  Forall P text -> Forall P (lstrip text).
Proof.
  induction 1 as [|c text Hc Ht IH]; simpl; [constructor|].
  destruct (is_space c); [exact IH | constructor; assumption].
Qed.

Lemma rstrip_Forall (P : N -> Prop) (text : str) :
  Forall P text -> Forall P (rstrip text).
Proof.
  intros Ht. unfold rstrip. apply Forall_rev, lstrip_Forall, Forall_rev, Ht.
Qed.

Lemma collapse_from_Forall (P : N -> Prop) (text : str) :
  P space -> Forall P text -> forall in_ws, Forall P (collapse_from in_ws text).
Proof.
  intros Hsp. induction 1 as [|c text Hc Ht IH]; intros in_ws; simpl;
    [constructor|].
  destruct (is_space c); [destruct in_ws|]; auto.
Qed.

Lemma preprocess_text_chars (text : str) :
  Forall word_or_space (_preprocess_text text).
Proof.
  unfold _preprocess_text, collapse.
  apply collapse_from_Forall; [right; reflexivity|].
  apply rstrip_Forall, lstrip_Forall, blank_other_chars.
Qed.

Lemma preprocess_text_ascii (text : str) : is_ascii (_preprocess_text text).
Proof.
  eapply Forall_impl; [|apply preprocess_text_chars].
  intros c; apply word_or_space_ascii.
Qed.

Lemma split_ws_from_Forall (P : N -> Prop) (s : str) :
  Forall P s -> forall cur, Forall P cur ->
  Forall (fun w => nonempty w /\ Forall P w) (split_ws_from cur s).
Proof.
  assert (Hrev : forall c cur, Forall P (c :: cur) ->
                   nonempty (rev (c :: cur)) /\ Forall P (rev (c :: cur))).
  { intros c cur Hcur. split; [|apply Forall_rev; exact Hcur].
    simpl. intros E. apply app_eq_nil in E. destruct E; discriminate. }
  induction 1 as [|c s Hc Hs IH]; intros cur Hcur; simpl.
  - destruct cur; constructor; auto.
  - destruct (is_space c).
    + destruct cur; [apply IH; constructor|].
      constructor; [apply Hrev; exact Hcur | apply IH; constructor].
    + apply IH. constructor; assumption.
Qed.

Lemma split_ws_words (s : str) :
  is_ascii s -> Forall (fun w => nonempty w /\ is_ascii w) (split_ws s).
Proof.
  intros Hs. unfold split_ws. apply split_ws_from_Forall; [exact Hs | constructor].
Qed.

Lemma lower_ascii (w : str) : is_ascii w -> is_ascii (lower w).
Proof.
  unfold lower, is_ascii. intros Hw. apply Forall_forall. intros c Hc.
  apply in_map_iff in Hc. destruct Hc as [d [<- Hd]].
  pose proof (proj1 (Forall_forall _ _) Hw d Hd) as Hlt. simpl in Hlt.
  unfold lower_char, is_upper, in_range.
  destruct ((65 <=? d)%N && (d <=? 90)%N) eqn:E; [|exact Hlt].
  bool_to_prop. lia.
Qed.

Section Tokenizer.

Variable t : Rouge155Tokenizer.

Lemma preprocess_word_ascii (w w' : str) :
  ascii_safe t -> is_ascii w -> _preprocess_word t w = Some w' -> is_ascii w'.
Proof.
  intros [Hstem Hsw] Hw. apply lower_ascii in Hw.
  unfold _preprocess_word.
  set (w1 := match remove_stopwords t with
             | Some f => f (lower w)
             | None => Some (lower w)
             end).
  assert (H1 : forall x, w1 = Some x -> is_ascii x).
  { subst w1. destruct (remove_stopwords t) as [g|] eqn:Eg.
    - intros x Hx. eapply Hsw; eauto.
    - intros x Hx. injection Hx as <-. exact Hw. }
  clearbody w1.
  set (w2 := match w1 with
             | Some ((_ :: _) as w0) => if starts_ok w0 then w1 else None
             | _ => w1
             end).
  assert (H2 : forall x, w2 = Some x -> is_ascii x).
  { subst w2. destruct w1 as [[|c r]|]; auto.
    destruct (starts_ok (c :: r)); [auto | discriminate]. }
  clearbody w2.
  destruct (stem t) as [f|] eqn:Ef; [|auto].
  destruct w2 as [[|c r]|]; auto.
  intros E. injection E as <-. eapply Hstem; eauto.
Qed.

Lemma tokenize_sentence_nonempty (sentence : str) :
  Forall nonempty (tokenize_sentence t sentence).
Proof.
  unfold tokenize_sentence. apply Forall_flat_map, Forall_forall.
  intros w _. destruct (_preprocess_word t w) as [[|c r]|]; simpl;
    repeat constructor. discriminate.
Qed.

Lemma tokenize_sentence_ascii (sentence : str) :
  ascii_safe t -> Forall is_ascii (tokenize_sentence t sentence).
Proof.
  intros Hsafe. unfold tokenize_sentence. apply Forall_flat_map.
  eapply Forall_impl; [|apply split_ws_words, preprocess_text_ascii].
  intros w [_ Hw]. simpl.
  destruct (_preprocess_word t w) as [w'|] eqn:E; simpl; [|constructor].
  destruct w' as [|c r]; constructor; [|constructor].
  eapply preprocess_word_ascii; eauto.
Qed.

Lemma untruncated_nonempty (text : str) :
  Forall (Forall nonempty) (untruncated t text).
Proof.
  unfold untruncated. apply Forall_forall. intros s Hs.
  apply in_map_iff in Hs. destruct Hs as [x [<- _]].
  apply tokenize_sentence_nonempty.
Qed.

Lemma untruncated_ascii (text : str) :
  ascii_safe t -> Forall (Forall is_ascii) (untruncated t text).
Proof.
  intros Hsafe. unfold untruncated. apply Forall_forall. intros s Hs.
  apply in_map_iff in Hs. destruct Hs as [x [<- _]].
  apply tokenize_sentence_ascii, Hsafe.
Qed.

(** ** Word truncation keeps tokens whole *)

Lemma truncate_words_from_Forall (P : str -> Prop) (doc : Document) :
  Forall (Forall P) doc ->
  forall word_len, Forall (Forall P) (truncate_words_from t word_len doc).
Proof.
  induction 1 as [|s doc Hs Hd IH]; intros word_len; simpl; [constructor|].
  destruct (_ >? _)%Z.
  - constructor; [apply Forall_take; exact Hs | constructor].
  - destruct (_ =? _)%Z; constructor; auto.
Qed.

End Tokenizer.

End TokenizeFacts.

Module TruncateFacts.

Import Tokenize PyFacts Spec TokenizeFacts.

Section Tokenizer.

Variable t : Rouge155Tokenizer.

(** ** Byte truncation emits no empty token under a positive budget *)

Lemma truncate_bytes_words_nonempty (sentence : list str) :
  Forall nonempty sentence ->
  forall byte_len ws bl broke,
    (byte_len < byte_limit t)%Z ->
    truncate_bytes_words t byte_len sentence = Ok (ws, bl, broke) ->
    Forall nonempty ws /\ (if broke then bl = byte_limit t else (bl < byte_limit t)%Z).
Proof.
  induction 1 as [|word rest Hw Hrest IH]; intros byte_len ws bl broke Hlt E;
    simpl in E.
  - injection E as <- <- <-. split; [constructor | exact Hlt].
  - apply bind_ok in E. destruct E as [enc [Henc E]].
    destruct (_ >=? _)%Z eqn:Hge.
    + apply bind_ok in E. destruct E as [cut [Hcut E]].
      injection E as <- <- <-. split; [|reflexivity].
      constructor; [|constructor].
      rewrite Z.geb_leb in Hge. apply Z.leb_le in Hge.
      rewrite take_nonneg in Hcut by lia.
      destruct enc as [|b bs]; [simpl in Hge; lia|].
      destruct (Z.to_nat (byte_limit t - byte_len)) eqn:Ek; [lia|].
      simpl in Hcut. eapply utf8_decode_nonempty; exact Hcut.
    + apply bind_ok in E. destruct E as [[[ws' bl'] broke'] [Hr E]].
      injection E as <- <- <-.
      rewrite Z.geb_leb in Hge. apply Z.leb_gt in Hge.
      apply IH in Hr; [|exact Hge]. destruct Hr as [Hws Hbl].
      split; [constructor; assumption | exact Hbl].
Qed.

Lemma truncate_bytes_from_nonempty (doc : Document) :
  Forall (Forall nonempty) doc ->
  forall byte_len out,
    (byte_len < byte_limit t)%Z ->
    truncate_bytes_from t byte_len doc = Ok out ->
    Forall (Forall nonempty) out.
Proof.
  induction 1 as [|s doc Hs Hdoc IH]; intros byte_len out Hlt E; simpl in E.
  - injection E as <-. constructor.
  - apply bind_ok in E. destruct E as [n [Hn E]].
    destruct (_ >? _)%Z eqn:Hgt.
    + apply bind_ok in E. destruct E as [[[ws bl] broke] [Hr E]].
      eapply truncate_bytes_words_nonempty in Hr; [|exact Hs|exact Hlt].
      destruct Hr as [Hws Hbl].
      assert (Happ : Forall (Forall nonempty) (if broke then [ws] else [])).
      { destruct broke; repeat constructor; exact Hws. }
      destruct (bl =? byte_limit t)%Z eqn:Hbl'.
      * injection E as <-. exact Happ.
      * apply bind_ok in E. destruct E as [tl [Htl E]]. injection E as <-.
        apply Z.eqb_neq in Hbl'. destruct broke; [contradiction|].
        apply Forall_app. split; [exact Happ|]. eapply IH; eauto.
    + rewrite Z.gtb_ltb in Hgt. apply Z.ltb_ge in Hgt.
      destruct (_ =? _)%Z eqn:Heq.
      * injection E as <-. repeat constructor; exact Hs.
      * apply bind_ok in E. destruct E as [tl [Htl E]]. injection E as <-.
        apply Z.eqb_neq in Heq. constructor; [exact Hs|].
        eapply IH; [|exact Htl]. lia.
Qed.

(** ** On ASCII tokens byte truncation always returns *)

Lemma truncate_bytes_words_ascii (sentence : list str) :
  Forall is_ascii sentence ->
  forall byte_len, exists ws bl broke,
    truncate_bytes_words t byte_len sentence = Ok (ws, bl, broke)
    /\ Forall is_ascii ws.
Proof.
  induction 1 as [|word rest Hw Hrest IH]; intros byte_len; simpl.
  - do 3 eexists. split; [reflexivity | constructor].
  - rewrite (utf8_encode_ascii Hw). simpl.
    destruct (_ >=? _)%Z.
    + rewrite utf8_decode_ascii by (apply Forall_take; exact Hw). simpl.
      do 3 eexists. split; [reflexivity|].
      constructor; [apply Forall_take; exact Hw | constructor].
    + destruct (IH (byte_len + Z.of_nat (length word))%Z)
        as (ws & bl & broke & -> & Hws).
      simpl. do 3 eexists. split; [reflexivity|]. constructor; assumption.
Qed.

Lemma truncate_bytes_from_ascii (doc : Document) :
  Forall (Forall is_ascii) doc ->
  forall byte_len, exists out,
    truncate_bytes_from t byte_len doc = Ok out
    /\ Forall (Forall is_ascii) out.
Proof.
  induction 1 as [|s doc Hs Hdoc IH]; intros byte_len; simpl.
  - eexists. split; [reflexivity | constructor].
  - rewrite (byte_length_ascii (is_ascii_concat Hs)). simpl.
    destruct (_ >? _)%Z.
    + destruct (truncate_bytes_words_ascii Hs byte_len)
        as (ws & bl & broke & -> & Hws).
      simpl.
      assert (Happ : Forall (Forall is_ascii) (if broke then [ws] else [])).
      { destruct broke; repeat constructor; exact Hws. }
      destruct (bl =? byte_limit t)%Z.
      * eexists. split; [reflexivity | exact Happ].
      * destruct (IH bl) as (tl & -> & Htl). simpl.
        eexists. split; [reflexivity|]. apply Forall_app. split; assumption.
    + destruct (_ =? _)%Z.
      * eexists. split; [reflexivity|]. repeat constructor; exact Hs.
      * destruct (IH (byte_len + Z.of_nat (length (concat s)))%Z)
          as (tl & -> & Htl).
        simpl. eexists. split; [reflexivity|]. constructor; assumption.
Qed.

(** ** On ASCII tokens byte truncation stops at the budget exactly *)

Lemma truncate_bytes_words_exact (sentence : list str) :
  Forall is_ascii sentence ->
  forall byte_len,
    (byte_len < byte_limit t)%Z ->
    (byte_limit t <= byte_len + Z.of_nat (length (concat sentence)))%Z ->
    exists ws,
      truncate_bytes_words t byte_len sentence = Ok (ws, byte_limit t, true)
      /\ Forall is_ascii ws
      /\ Z.of_nat (length (concat ws)) = (byte_limit t - byte_len)%Z.
Proof.
  induction 1 as [|word rest Hw Hrest IH]; intros byte_len Hlt Hge; simpl.
  - simpl in Hge. lia.
  - rewrite (utf8_encode_ascii Hw). simpl.
    simpl in Hge. rewrite length_app in Hge.
    destruct (_ >=? _)%Z eqn:E; rewrite Z.geb_leb in E.
    + apply Z.leb_le in E.
      rewrite utf8_decode_ascii by (apply Forall_take; exact Hw). simpl.
      eexists. split; [reflexivity|]. split.
      * constructor; [apply Forall_take; exact Hw | constructor].
      * simpl. rewrite app_nil_r, take_nonneg by lia.
        rewrite length_firstn. lia.
    + apply Z.leb_gt in E.
      destruct (IH (byte_len + Z.of_nat (length word))%Z)
        as (ws & -> & Hws & Hlen); [exact E | lia |].
      simpl. eexists. split; [reflexivity|]. split.
      * constructor; assumption.
      * simpl. rewrite length_app. lia.
Qed.

Lemma doc_length_cons (s : list str) (d : Document) :
  doc_length (s :: d) = length (concat s) + doc_length d.
Proof. unfold doc_length. simpl. rewrite concat_app, length_app. reflexivity. Qed.

Lemma doc_length_single (s : list str) : doc_length [s] = length (concat s).
Proof. rewrite doc_length_cons. unfold doc_length. simpl. lia. Qed.

Lemma truncate_bytes_from_exact (doc : Document) :
  Forall (Forall is_ascii) doc ->
  forall byte_len,
    (byte_len < byte_limit t)%Z ->
    (byte_limit t < byte_len + Z.of_nat (doc_length doc))%Z ->
    exists out,
      truncate_bytes_from t byte_len doc = Ok out
      /\ Forall (Forall is_ascii) out
      /\ Z.of_nat (doc_length out) = (byte_limit t - byte_len)%Z.
Proof.
  induction 1 as [|s doc Hs Hdoc IH]; intros byte_len Hlt Hgt.
  - unfold doc_length in Hgt. simpl in Hgt. lia.
  - rewrite doc_length_cons in Hgt. simpl.
    rewrite (byte_length_ascii (is_ascii_concat Hs)). simpl.
    destruct (_ >? _)%Z eqn:E; rewrite Z.gtb_ltb in E.
    + apply Z.ltb_lt in E.
      destruct (truncate_bytes_words_exact Hs Hlt) as (ws & -> & Hws & Hlen);
        [lia|].
      simpl. rewrite Z.eqb_refl.
      eexists. split; [reflexivity|]. split.
      * repeat constructor; exact Hws.
      * rewrite doc_length_single. exact Hlen.
    + apply Z.ltb_ge in E.
      destruct (_ =? _)%Z eqn:Heq.
      * apply Z.eqb_eq in Heq.
        eexists. split; [reflexivity|]. split.
        -- repeat constructor; exact Hs.
        -- rewrite doc_length_single. lia.
      * apply Z.eqb_neq in Heq.
        destruct (IH (byte_len + Z.of_nat (length (concat s)))%Z)
          as (tl & -> & Htl & Hlen); [lia | lia |].
        simpl. eexists. split; [reflexivity|]. split.
        -- constructor; assumption.
        -- rewrite doc_length_cons. lia.
Qed.

End Tokenizer.

(** ** Tokenizers built by the constructor *)

Section Constructor.

Variable porter_stem : str -> str.
Variable exceptions : list (str * str).
Variable stopwords : list str.
Variable see_findall : str -> list (str * str * str * str).

Hypothesis porter_ascii : forall w, is_ascii w -> is_ascii (porter_stem w).
Hypothesis exceptions_ascii : Forall (fun e => is_ascii (snd e)) exceptions.

Lemma dict_get_In (A : Type) (k : str) (l : list (str * A)) (v : A) :
  dict_get k l = Some v -> exists k', In (k', v) l.
Proof.
  unfold dict_get.
  assert (G : forall acc, fold_left (fun acc kv =>
                 if str_eqb (fst kv) k then Some (snd kv) else acc) l acc = Some v ->
               acc = Some v \/ exists k', In (k', v) l).
  { induction l as [|[k0 v0] l IH]; intros acc E; simpl in E; [left; exact E|].
    apply IH in E. destruct E as [E|[k' Hk']].
    - simpl in E. destruct (str_eqb k0 k).
      + injection E as <-. right. exists k0. left. reflexivity.
      + left. exact E.
    - right. exists k'. right. exact Hk'. }
  intros E. apply G in E. destruct E as [E|E]; [discriminate | exact E].
Qed.

Lemma new_ascii_safe (b l : Z) (m s : bool) (split : option str)
  (t : Rouge155Tokenizer) :
  Tokenize.new porter_stem exceptions stopwords see_findall b l m s split = Ok t ->
  ascii_safe t /\ byte_limit t = b /\ word_limit t = l.
Proof.
  unfold Tokenize.new. intros E. apply bind_ok in E.
  destruct E as [splitter [_ E]]. injection E as <-. simpl.
  split; [|split; reflexivity]. split.
  - unfold _get_stemmer. destruct m; simpl; [|discriminate].
    intros f Ef. injection Ef as <-. intros w Hw.
    destruct (dict_get w exceptions) as [base|] eqn:Eb; [|auto].
    apply porter_ascii. apply dict_get_In in Eb. destruct Eb as [k' Hin].
    exact (proj1 (Forall_forall _ _) exceptions_ascii _ Hin).
  - unfold _get_stopword_remover. destruct s; simpl; [|discriminate].
    intros g Eg. injection Eg as <-. intros w w' Hw.
    destruct (existsb _ _); [discriminate|]. injection Hw as <-. auto.
Qed.

End Constructor.

End TruncateFacts.

(* ================================================================== *)
(** * Facts on counters *)
(* ================================================================== *)

Module CounterFacts.

Import Rouge PyFacts Spec.

Lemma sum_app (l l' : list nat) : sum (l ++ l') = sum l + sum l'.
Proof. induction l; simpl; [reflexivity|]. unfold sum in *. simpl. lia. Qed.

Lemma sum_Permutation (l l' : list nat) : Permutation l l' -> sum l = sum l'.
Proof.
  unfold sum. induction 1; simpl; lia.
Qed.

Lemma get_counter_add (ngram : str) (c : Counter) (k : str) :
  get (counter_add ngram c) k
  = if str_eqb ngram k then S (get c k) else get c k.
Proof.
  induction c as [|[k0 v0] c IH]; simpl.
  - destruct (str_eqb ngram k); reflexivity.
  - destruct (str_eqb k0 ngram) eqn:E0; simpl.
    + apply str_eqb_eq in E0. subst k0.
      destruct (str_eqb ngram k); reflexivity.
    + rewrite IH. destruct (str_eqb k0 k) eqn:E1; [|reflexivity].
      apply str_eqb_eq in E1. subst k0.
      rewrite str_eqb_neq in E0.
      destruct (str_eqb ngram k) eqn:E2; [|reflexivity].
      apply str_eqb_eq in E2. congruence.
Qed.

Lemma keys_counter_add (ngram : str) (c : Counter) (k : str) :
  In k (keys (counter_add ngram c)) <-> k = ngram \/ In k (keys c).
Proof.
  unfold keys. induction c as [|[k0 v0] c IH]; simpl.
  - intuition.
  - destruct (str_eqb k0 ngram) eqn:E0; simpl.
    + apply str_eqb_eq in E0. subst k0. intuition.
    + rewrite IH. intuition.
Qed.

Lemma keys_counter_add_NoDup (ngram : str) (c : Counter) :
  NoDup (keys c) -> NoDup (keys (counter_add ngram c)).
Proof.
  induction c as [|[k0 v0] c IH]; simpl; intros Hnd.
  - repeat constructor. intros [].
  - inversion Hnd as [|x l Hx Hl]; subst.
    destruct (str_eqb k0 ngram) eqn:E0; simpl.
    + constructor; assumption.
    + constructor; [|apply IH; exact Hl].
      intros Hin. apply keys_counter_add in Hin. destruct Hin as [->|Hin].
      * rewrite str_eqb_refl in E0. discriminate.
      * apply Hx. exact Hin.
Qed.

Lemma values_counter_add (ngram : str) (c : Counter) :
  sum (values (counter_add ngram c)) = S (sum (values c)).
Proof.
  unfold sum, values. induction c as [|[k0 v0] c IH]; simpl; [reflexivity|].
  destruct (str_eqb k0 ngram); simpl; lia.
Qed.

Lemma contains_keys (c : Counter) (ngram : str) :
  contains c ngram = true <-> In ngram (keys c).
Proof.
  unfold contains, keys. rewrite existsb_exists, in_map_iff.
  split.
  - intros [kv [Hin E]]. apply str_eqb_eq in E. eauto.
  - intros [kv [E Hin]]. exists kv. split; [exact Hin|].
    apply str_eqb_eq. exact E.
Qed.

Lemma occurs_In (ngrams : list str) (ngram : str) :
  occurs ngrams ngram = true <-> In ngram ngrams.
Proof.
  unfold occurs. rewrite existsb_exists. split.
  - intros [x [Hin E]]. apply str_eqb_eq in E. subst. exact Hin.
  - intros Hin. exists ngram. split; [exact Hin | apply str_eqb_refl].
Qed.

(** The counter reached from [c] after inserting the n-grams of a list. *)
Lemma fold_counter_get (ngrams : list str) (c : Counter) (k : str) :
  get (fold_left (fun c ngram => counter_add ngram c) ngrams c) k
  = occurrences ngrams k + get c k.
Proof.
  unfold occurrences. revert c.
  induction ngrams as [|g ngrams IH]; intros c; simpl; [reflexivity|].
  rewrite IH, get_counter_add.
  destruct (str_eq_dec g k) as [->|Hne].
  - rewrite str_eqb_refl. lia.
  - apply str_eqb_neq in Hne. rewrite Hne. reflexivity.
Qed.

Lemma fold_counter_keys (ngrams : list str) (c : Counter) (k : str) :
  In k (keys (fold_left (fun c ngram => counter_add ngram c) ngrams c))
  <-> In k ngrams \/ In k (keys c).
Proof.
  revert c. induction ngrams as [|g ngrams IH]; intros c; simpl.
  - intuition.
  - rewrite IH, keys_counter_add. intuition.
Qed.

Lemma fold_counter_NoDup (ngrams : list str) (c : Counter) :
  NoDup (keys c) ->
  NoDup (keys (fold_left (fun c ngram => counter_add ngram c) ngrams c)).
Proof.
  revert c. induction ngrams as [|g ngrams IH]; intros c Hc; simpl;
    [exact Hc|].
  apply IH, keys_counter_add_NoDup, Hc.
Qed.

Lemma fold_counter_values (ngrams : list str) (c : Counter) :
  sum (values (fold_left (fun c ngram => counter_add ngram c) ngrams c))
  = length ngrams + sum (values c).
Proof.
  revert c. induction ngrams as [|g ngrams IH]; intros c; simpl;
    [reflexivity|].
  rewrite IH, values_counter_add. lia.
Qed.

(** [counter[ngram]] is the number of occurrences of the n-gram. *)
Lemma generate_counter_get (ngrams : list str) (k : str) :
  get (generate_counter ngrams) k = occurrences ngrams k.
Proof.
  unfold generate_counter. rewrite fold_counter_get. simpl. lia.
Qed.

Lemma generate_counter_keys (ngrams : list str) (k : str) :
  In k (keys (generate_counter ngrams)) <-> In k ngrams.
Proof.
  unfold generate_counter. rewrite fold_counter_keys. simpl. intuition.
Qed.

Lemma generate_counter_keys_NoDup (ngrams : list str) :
  NoDup (keys (generate_counter ngrams)).
Proof. apply fold_counter_NoDup. constructor. Qed.

(** [sum(counter.values())] is the number of n-grams, repeats included. *)
Lemma generate_counter_total (ngrams : list str) :
  sum (values (generate_counter ngrams)) = length ngrams.
Proof.
  unfold generate_counter. rewrite fold_counter_values. simpl. lia.
Qed.

Lemma generate_counter_contains (ngrams : list str) (k : str) :
  contains (generate_counter ngrams) k = occurs ngrams k.
Proof.
  apply eq_true_iff_eq.
  rewrite contains_keys, generate_counter_keys, occurs_In. reflexivity.
Qed.

(** The match count of [n_score] against any enumeration without
    repetition of the n-grams present in both texts. *)
Lemma matches_of_enumeration (cand_ngrams ref_ngrams gs : list str) :
  NoDup gs ->
  (forall g, In g gs <-> In g cand_ngrams /\ In g ref_ngrams) ->
  matches_of (generate_counter ref_ngrams) (generate_counter cand_ngrams)
  = sum (map (fun g => Nat.min (occurrences cand_ngrams g)
                               (occurrences ref_ngrams g)) gs).
Proof.
  intros Hnd Hgs. unfold matches_of.
  rewrite (map_ext _ (fun g => Nat.min (occurrences cand_ngrams g)
                                       (occurrences ref_ngrams g)))
    by (intros g; rewrite !generate_counter_get; apply Nat.min_comm).
  apply sum_Permutation, Permutation_map, NoDup_Permutation.
  - apply NoDup_filter, generate_counter_keys_NoDup.
  - exact Hnd.
  - intros g. rewrite filter_In, contains_keys, !generate_counter_keys, Hgs.
    reflexivity.
Qed.

Lemma matches_of_multiset (cand_ngrams ref_ngrams : list str) :
  matches_of (generate_counter ref_ngrams) (generate_counter cand_ngrams)
  = multiset_intersection cand_ngrams ref_ngrams.
Proof.
  unfold multiset_intersection. apply matches_of_enumeration.
  - apply NoDup_filter, NoDup_nodup.
  - intros g. rewrite filter_In, nodup_In, occurs_In. reflexivity.
Qed.

(** The two loops of [n_score_incremental] count, table by table, the new
    n-grams that are keys of the table. *)
Lemma incremental_matches_sum (counters : list Counter) (new_ngrams : list str) :
  incremental_matches counters new_ngrams
  = sum (map (fun c => length (filter (contains c) new_ngrams)) counters).
Proof.
  unfold incremental_matches.
  assert (Hin : forall c ngrams acc,
             fold_left (fun m ngram => if contains c ngram then S m else m)
                       ngrams acc
             = acc + length (filter (contains c) ngrams)).
  { intros c ngrams. induction ngrams as [|g ngrams IH]; intros acc; simpl;
      [lia|].
    rewrite IH. destruct (contains c g); simpl; lia. }
  assert (Hout : forall cs acc,
             fold_left (fun m c =>
                          fold_left (fun m ngram =>
                                       if contains c ngram then S m else m)
                                    new_ngrams m) cs acc
             = acc + sum (map (fun c => length (filter (contains c) new_ngrams)) cs)).
  { induction cs as [|c cs IH]; intros acc; simpl; [unfold sum; simpl; lia|].
    rewrite IH, Hin. unfold sum. simpl. lia. }
  rewrite Hout. reflexivity.
Qed.

End CounterFacts.

(* ================================================================== *)
(** * Facts on the scorer *)
(* ================================================================== *)

Module RougeFacts.

Import Rouge PyFacts Spec CounterFacts.

Lemma mapM_ok_map (A B : Type) (f : A -> result B) (h : A -> B) (l : list A) :
  (forall x, In x l -> f x = Ok (h x)) -> mapM f l = Ok (map h l).
Proof.
  induction l as [|a l IH]; intros Hf; simpl; [reflexivity|].
  rewrite (Hf a) by (left; reflexivity). simpl.
  rewrite IH by (intros x Hx; apply Hf; right; exact Hx). reflexivity.
Qed.

Lemma mapM_then_map (A B C : Type) (f : A -> result B) (g : B -> C)
  (l : list A) (ys : list B) :
  mapM f l = Ok ys ->
  mapM (fun x => y <- f x ;; Ok (g y)) l = Ok (map g ys).
Proof.
  revert ys. induction l as [|a l IH]; intros ys E; simpl in *.
  - injection E as <-. reflexivity.
  - destruct (f a) as [b|e]; simpl in *; [|discriminate].
    destruct (mapM f l) as [bs|e]; simpl in *; [|discriminate].
    injection E as <-. rewrite (IH bs eq_refl). reflexivity.
Qed.

Lemma map_const_seq (A : Type) (x : A) (len start : nat) :
  map (fun _ => x) (seq start len) = repeat x len.
Proof.
  revert start. induction len as [|len IH]; intros start; simpl;
    [reflexivity | rewrite IH; reflexivity].
Qed.

Lemma lookup_seq (A : Type) (f : nat -> A) (len start n : nat) :
  start <= n < start + len ->
  lookup n (map (fun k => (k, f k)) (seq start len)) = Ok (f n).
Proof.
  revert start. induction len as [|len IH]; intros start Hn; simpl; [lia|].
  destruct (Nat.eqb start n) eqn:E.
  - apply Nat.eqb_eq in E. subst. reflexivity.
  - apply Nat.eqb_neq in E. apply IH. lia.
Qed.

Section Scorer.

Context {T : Type} `{Base.BaseTokenizer T}.

Variable self : Rouge T.

Lemma reference_counters_ok (ref_texts : list str) (docs : list Document) (n : nat) :
  mapM (_tokenize self) ref_texts = Ok docs ->
  reference_counters self ref_texts n
  = Ok (map (fun d => generate_counter (_ngram_tokenize d n)) docs).
Proof. intros E. unfold reference_counters. apply mapM_then_map, E. Qed.

(** What [reset_incremental] builds once every reference is tokenized. *)
Lemma reset_incremental_ok (ref_texts : list str) (docs : list Document) :
  mapM (_tokenize self) ref_texts = Ok docs ->
  reset_incremental self ref_texts
  = Ok (with_incremental self
          {| ref_counters := tables docs (N self);
             refs_count := totals docs (N self);
             prev_tokens := repeat [] (N self) |}).
Proof.
  intros E. unfold reset_incremental.
  rewrite (@mapM_ok_map _ _ _
             (fun n => (n, map (fun d => generate_counter (_ngram_tokenize d n)) docs))).
  2:{ intros n _. rewrite (@reference_counters_ok ref_texts docs n E). reflexivity. }
  simpl. fold (tables docs (N self)). rewrite map_const_seq.
  do 3 f_equal. unfold tables, totals. rewrite map_map. apply map_ext.
  intros n. simpl. f_equal. unfold total. rewrite map_map. f_equal.
  apply map_ext. intros d. apply generate_counter_total.
Qed.

(** A call of [n_score_incremental] on a state [reset_incremental] built,
    whatever the buffer holds, when the increment has tokens and no
    reference total is zero. *)
Lemma n_score_incremental_ready (inc : Incremental) (docs : list Document)
  (new_text : str) (toks : Document) :
  incremental self = Some inc ->
  ref_counters inc = tables docs (N self) ->
  refs_count inc = totals docs (N self) ->
  _tokenize self new_text = Ok toks ->
  concat toks <> [] ->
  (forall n, 1 <= n <= N self -> total docs n <> 0) ->
  n_score_incremental self new_text
  = Ok (with_incremental self
          {| ref_counters := ref_counters inc;
             refs_count := refs_count inc;
             prev_tokens := prev_tokens inc ++ concat toks |},
        map (fun n =>
               (label n,
                Some (div (membership_matches docs
                             (prev_tokens inc ++ concat toks) n)
                          (total docs n))))
            (seq 1 (N self))).
Proof.
  intros Hinc Htab Htot Htok Hne Hnz. unfold n_score_incremental.
  rewrite Htok. simpl. destruct (concat toks) as [|w ws] eqn:Ec;
    [contradiction|].
  rewrite Hinc. simpl.
  rewrite (@mapM_ok_map _ _ _
             (fun n => (label n,
                        Some (div (membership_matches docs
                                     (prev_tokens inc ++ w :: ws) n)
                                  (total docs n))))).
  - reflexivity.
  - intros n Hn. apply in_seq in Hn.
    rewrite Htab, Htot. unfold tables, totals.
    rewrite (lookup_seq (fun n => map (fun d => generate_counter (_ngram_tokenize d n)) docs))
      by lia.
    simpl. rewrite (lookup_seq (total docs)) by lia. simpl.
    destruct (Nat.eqb (total docs n) 0) eqn:Ez.
    + apply Nat.eqb_eq in Ez. exfalso. apply (Hnz n); [lia | exact Ez].
    + rewrite incremental_matches_sum. unfold membership_matches.
      rewrite map_map. do 5 f_equal. apply map_ext. intros d. f_equal.
      apply filter_ext. intros g. apply generate_counter_contains.
Qed.

End Scorer.

(** [new_ngrams] holds one n-gram: the last [n] tokens of the buffer. *)
Lemma new_ngrams_of_single (prev_tokens : list str) (n : nat) :
  1 <= n <= length prev_tokens ->
  new_ngrams_of prev_tokens n = [join [Tokenize.space] (last_n n prev_tokens)].
Proof.
  intros Hn. unfold new_ngrams_of, _ngram_tokenize.
  assert (Hlen : length (last_n n prev_tokens) = n).
  { unfold last_n. destruct n as [|n]; [lia|]. rewrite length_skipn. lia. }
  change (concat [last_n n prev_tokens]) with (last_n n prev_tokens ++ []).
  rewrite app_nil_r, Hlen. replace (S n - n) with 1 by lia.
  cbn [seq map]. unfold slice. cbn [skipn].
  rewrite firstn_all2 by lia. reflexivity.
Qed.

End RougeFacts.

(* ================================================================== *)
(** * Zero denominators and bounds on the counts *)
(* ================================================================== *)

Module BoundsFacts.

Import Rouge PyFacts Spec CounterFacts RougeFacts.

Lemma mapM_raise (A B : Type) (f : A -> result B) (e : exn) (l : list A) :
  (forall x e', f x = Raise e' -> e' = e) ->
  (exists x, In x l /\ f x = Raise e) ->
  mapM f l = Raise e.
Proof.
  intros Hall. induction l as [|a l IH]; intros [x [Hin Hx]]; simpl.
  - destruct Hin.
  - destruct (f a) as [b|e'] eqn:Ea; simpl.
    + destruct Hin as [->|Hin]; [congruence|].
      rewrite IH by eauto. reflexivity.
    + f_equal. eapply Hall; eauto.
Qed.

Lemma best_key_raise (x : nat * nat * nat) (e : exn) :
  best_key x = Raise e -> e = ZeroDivisionError.
Proof.
  destruct x as [[c r] m]. simpl. destruct (Nat.eqb r 0); congruence.
Qed.

(** Under scoring "B" one reference without n-grams is enough for the
    key of [max] to divide by zero. *)
Lemma best_scoring_zero_reference (triples : list (nat * nat * nat))
  (cands matches : nat) :
  In (cands, 0, matches) triples ->
  aggregate (of_string "B") triples = Raise ZeroDivisionError.
Proof.
  intros Hin. unfold aggregate. simpl.
  destruct triples as [|x xs]; [destruct Hin|]. simpl.
  destruct (best_key x) as [k|e] eqn:Ek; simpl.
  - destruct Hin as [->|Hin]; [discriminate|].
    rewrite (@mapM_raise _ _ best_key ZeroDivisionError xs).
    + reflexivity.
    + intros y e' Hy. eapply best_key_raise; eauto.
    + exists (cands, 0, matches). split; [exact Hin | reflexivity].
  - f_equal. eapply best_key_raise; eauto.
Qed.

Lemma sum_cons (x : nat) (l : list nat) : sum (x :: l) = x + sum l.
Proof. reflexivity. Qed.

Lemma sum_map_le (A : Type) (f g : A -> nat) (l : list A) :
  (forall x, In x l -> f x <= g x) -> sum (map f l) <= sum (map g l).
Proof.
  induction l as [|a l IH]; intros Hfg; cbn [map]; [reflexivity|].
  rewrite !sum_cons.
  pose proof (Hfg a (or_introl eq_refl)).
  assert (sum (map f l) <= sum (map g l))
    by (apply IH; intros x Hx; apply Hfg; right; exact Hx).
  lia.
Qed.

Lemma occurrences_cons (a : str) (l : list str) (g : str) :
  occurrences (a :: l) g
  = if str_eqb a g then S (occurrences l g) else occurrences l g.
Proof.
  unfold occurrences. simpl. destruct (str_eq_dec a g) as [->|Hne].
  - rewrite str_eqb_refl. reflexivity.
  - apply str_eqb_neq in Hne. rewrite Hne. reflexivity.
Qed.

Lemma sum_occurrences_cons (a : str) (l gs : list str) :
  NoDup gs ->
  sum (map (occurrences (a :: l)) gs) <= S (sum (map (occurrences l) gs)).
Proof.
  induction 1 as [|g gs Hg Hnd IH]; cbn [map]; [unfold sum; simpl; lia|].
  rewrite !sum_cons, occurrences_cons.
  destruct (str_eqb a g) eqn:E; [|lia].
  apply str_eqb_eq in E. subst g.
  rewrite (map_ext_in (occurrences (a :: l)) (occurrences l)); [lia|].
  intros g' Hg'. rewrite occurrences_cons.
  destruct (str_eqb a g') eqn:E'; [|reflexivity].
  apply str_eqb_eq in E'. subst g'. contradiction.
Qed.

(** Distinct n-grams cannot occur more often than the list is long. *)
Lemma sum_occurrences_le (l gs : list str) :
  NoDup gs -> sum (map (occurrences l) gs) <= length l.
Proof.
  intros Hnd. induction l as [|a l IH].
  - rewrite (map_ext _ (fun _ => 0)) by reflexivity.
    clear Hnd. induction gs as [|g gs IHg]; [reflexivity|].
    cbn [map]. rewrite sum_cons. exact IHg.
  - pose proof (sum_occurrences_cons a l Hnd). simpl. lia.
Qed.

Lemma multiset_intersection_le (cand_ngrams ref_ngrams : list str) :
  multiset_intersection cand_ngrams ref_ngrams <= length cand_ngrams
  /\ multiset_intersection cand_ngrams ref_ngrams <= length ref_ngrams.
Proof.
  unfold multiset_intersection.
  assert (Hnd : NoDup (filter (occurs ref_ngrams) (nodup str_eq_dec cand_ngrams)))
    by apply NoDup_filter, NoDup_nodup.
  split.
  - etransitivity; [|apply (sum_occurrences_le cand_ngrams Hnd)].
    apply sum_map_le. intros g _. apply Nat.le_min_l.
  - etransitivity; [|apply (sum_occurrences_le ref_ngrams Hnd)].
    apply sum_map_le. intros g _. apply Nat.le_min_r.
Qed.

(** The counts pooled under scoring "A": matches never exceed the
    candidate count nor the reference count. *)
Lemma pooled_counts_le (cand_ngrams : list str) (n : nat) (refs : list Document) :
  let triples := map (per_reference (generate_counter cand_ngrams) n) refs in
  sum (map snd triples) <= sum (map (fun x => fst (fst x)) triples)
  /\ sum (map snd triples) <= sum (map (fun x => snd (fst x)) triples).
Proof.
  simpl. rewrite !map_map. split; apply sum_map_le; intros d _;
    unfold per_reference; simpl;
    rewrite matches_of_multiset, generate_counter_total;
    apply multiset_intersection_le.
Qed.

Lemma div_pos (a b : nat) : 0 < a -> 0 < b -> (0 < div a b)%Q.
Proof.
  intros Ha Hb. unfold div.
  apply Qlt_shift_div_l.
  - change 0%Q with (inject_Z 0). rewrite <- Zlt_Qlt. lia.
  - rewrite Qmult_0_l. change 0%Q with (inject_Z 0). rewrite <- Zlt_Qlt. lia.
Qed.

Lemma fscore_of_ok (alpha precision recall : Q) (matches_count : nat) :
  (0 <= alpha <= 1)%Q ->
  (0 < matches_count -> (0 < precision)%Q /\ (0 < recall)%Q) ->
  exists f, fscore_of alpha precision recall matches_count = Ok f.
Proof.
  intros [Ha0 Ha1] Hpos. unfold fscore_of.
  destruct (Nat.eqb matches_count 0) eqn:E; [eauto|].
  apply Nat.eqb_neq in E. destruct Hpos as [Hp Hr]; [lia|].
  destruct (Qeq_bool _ 0) eqn:Ed; [|eauto].
  exfalso. apply Qeq_bool_iff in Ed.
  assert (H1 : (0 <= (1 - alpha) * precision)%Q).
  { apply Qmult_le_0_compat; [|apply Qlt_le_weak; exact Hp].
    unfold Qminus. rewrite <- Qle_minus_iff. exact Ha1. }
  assert (H2 : (0 <= alpha * recall)%Q).
  { apply Qmult_le_0_compat; [exact Ha0 | apply Qlt_le_weak; exact Hr]. }
  destruct (Qlt_le_dec 0 alpha) as [Hlt|Hle].
  - assert (0 < alpha * recall)%Q.
    { rewrite <- (Qmult_0_l recall). apply Qmult_lt_r; assumption. }
    assert (0 < (1 - alpha) * precision + alpha * recall)%Q.
    { apply Qlt_le_trans with (0 + alpha * recall)%Q.
      - rewrite Qplus_0_l. assumption.
      - apply Qplus_le_l. exact H1. }
    rewrite Ed in *. eapply Qlt_irrefl; eauto.
  - assert (Ha : (alpha == 0)%Q) by (apply Qle_antisym; assumption).
    assert (0 < (1 - alpha) * precision)%Q.
    { rewrite <- (Qmult_0_l precision). apply Qmult_lt_r; [exact Hp|].
      rewrite Ha. reflexivity. }
    assert (0 < (1 - alpha) * precision + alpha * recall)%Q.
    { apply Qlt_le_trans with ((1 - alpha) * precision + 0)%Q.
      - rewrite Qplus_0_r. assumption.
      - apply Qplus_le_r. exact H2. }
    rewrite Ed in *. eapply Qlt_irrefl; eauto.
Qed.

Section Scorer.

Context {T : Type} `{Base.BaseTokenizer T}.

Variable self : Rouge T.

(** Under scoring "A" with a weight in [0, 1] the loop body of [n_score]
    returns whatever the counts are: zero denominators give zeros. *)
Lemma average_scoring_returns (refs : list Document) (cand : Document) (n : nat) :
  scoring self = of_string "A" ->
  (0 <= alpha self <= 1)%Q ->
  exists s, scores_at self refs cand n = Ok s.
Proof.
  intros Hsc Halpha. unfold scores_at, counts_at. rewrite Hsc.
  unfold aggregate. simpl.
  set (triples := map (per_reference (generate_counter (_ngram_tokenize cand n)) n) refs).
  destruct (pooled_counts_le (_ngram_tokenize cand n) n refs) as [Hc Hr].
  fold triples in Hc, Hr.
  set (cands := sum (map (fun x => fst (fst x)) triples)) in *.
  set (rs := sum (map (fun x => snd (fst x)) triples)) in *.
  set (ms := sum (map snd triples)) in *.
  destruct (@fscore_of_ok (alpha self) (precision_of cands ms) (recall_of rs ms) ms Halpha)
    as [f Hf].
  - intros Hm. unfold precision_of, recall_of.
    replace (Nat.eqb cands 0) with false by (symmetry; apply Nat.eqb_neq; lia).
    replace (Nat.eqb rs 0) with false by (symmetry; apply Nat.eqb_neq; lia).
    split; apply div_pos; lia.
  - rewrite Hf. simpl. eauto.
Qed.

End Scorer.

End BoundsFacts.

(* ================================================================== *)
(** * Where byte truncation cuts *)
(* ================================================================== *)

Module CutFacts.

Import Tokenize PyFacts Spec TokenizeFacts TruncateFacts.

Lemma no_tokens (doc : Document) :
  Forall (Forall nonempty) doc -> doc_length doc = 0 -> concat doc = [].
Proof.
  induction 1 as [|s doc Hs _ IH]; intros Hlen; [reflexivity|].
  rewrite doc_length_cons in Hlen. simpl.
  destruct s as [|w s].
  - simpl. apply IH. simpl in Hlen. exact Hlen.
  - exfalso. inversion Hs as [|? ? Hw _]; subst.
    simpl in Hlen. rewrite length_app in Hlen.
    destruct w; [apply Hw; reflexivity | simpl in Hlen; lia].
Qed.

Lemma last_token (sentence : list str) :
  sentence <> [] -> exists pre word, sentence = pre ++ [word].
Proof.
  intros Hne. destruct (exists_last Hne) as (pre & word & ->). eauto.
Qed.

Section Tokenizer.

Variable t : Rouge155Tokenizer.

(** The inner loop on ASCII words, once the sentence crosses the limit:
    the words before the crossing one are kept, the crossing one is cut
    to what is left of the limit, the loop breaks. *)
Lemma truncate_bytes_words_cut (sentence : list str) :
  Forall is_ascii sentence ->
  forall byte_len,
    (byte_len < byte_limit t)%Z ->
    (byte_limit t <= byte_len + Z.of_nat (length (concat sentence)))%Z ->
    exists pre word post,
      sentence = pre ++ word :: post
      /\ (byte_len + Z.of_nat (length (concat pre)) < byte_limit t
          <= byte_len + Z.of_nat (length (concat pre)) + Z.of_nat (length word))%Z
      /\ truncate_bytes_words t byte_len sentence
         = Ok (pre ++ [firstn (Z.to_nat (byte_limit t - byte_len
                                         - Z.of_nat (length (concat pre))))
                              word],
               byte_limit t, true).
Proof.
  induction 1 as [|w sentence Hw Hs IH]; intros byte_len Hlt Hge.
  - simpl in Hge. lia.
  - cbn [truncate_bytes_words]. rewrite (utf8_encode_ascii Hw). cbn [bind].
    destruct (byte_len + Z.of_nat (length w) >=? byte_limit t)%Z eqn:E.
    + apply Z.geb_le in E.
      exists [], w, sentence. split; [reflexivity|]. split; [simpl; lia|].
      assert (Hcut : is_ascii (take (byte_limit t - byte_len) w))
        by (apply Forall_take; exact Hw).
      rewrite (utf8_decode_ascii Hcut). cbn [bind app].
      rewrite take_nonneg by lia. simpl. rewrite Z.sub_0_r. reflexivity.
    + assert (E' : (byte_len + Z.of_nat (length w) < byte_limit t)%Z).
      { destruct (Z.geb_spec (byte_len + Z.of_nat (length w)) (byte_limit t));
          [discriminate | lia]. }
      clear E.
      destruct (IH (byte_len + Z.of_nat (length w))%Z)
        as (pre & word & post & Hsplit & Hb & Hrun); [exact E'| |].
      { clear IH. simpl in Hge. rewrite length_app in Hge. lia. }
      clear IH.
      exists (w :: pre), word, post.
      split; [simpl; rewrite Hsplit; reflexivity|].
      split; [simpl; rewrite length_app; lia|].
      rewrite Hrun. cbn [bind app]. simpl. rewrite length_app.
      rewrite Nat2Z.inj_add, !Z.sub_add_distr. reflexivity.
Qed.

(** The outer loop on ASCII, non-empty tokens. *)
Lemma truncate_bytes_from_cut (doc : Document) :
  Forall (Forall is_ascii) doc ->
  Forall (Forall nonempty) doc ->
  forall byte_len,
    (byte_len < byte_limit t)%Z ->
    exists out,
      truncate_bytes_from t byte_len doc = Ok out
      /\ ((byte_len + Z.of_nat (doc_length doc) <= byte_limit t)%Z ->
          concat out = concat doc)
      /\ ((byte_limit t < byte_len + Z.of_nat (doc_length doc))%Z ->
          exists pre word post,
            concat doc = pre ++ word :: post
            /\ (byte_len + Z.of_nat (length (concat pre)) < byte_limit t
                <= byte_len + Z.of_nat (length (concat pre))
                   + Z.of_nat (length word))%Z
            /\ concat out
               = pre ++ [firstn (Z.to_nat (byte_limit t - byte_len
                                           - Z.of_nat (length (concat pre))))
                                word]).
Proof.
  induction doc as [|s doc IH]; intros Hascii Hne byte_len Hlt.
  - exists []. split; [reflexivity|]. split; [reflexivity|].
    unfold doc_length. simpl. lia.
  - inversion Hascii as [|? ? Hs Hdoc]; subst.
    inversion Hne as [|? ? Hsne Hdne]; subst.
    specialize (IH Hdoc Hdne).
    cbn [truncate_bytes_from].
    rewrite (byte_length_ascii (is_ascii_concat Hs)). cbn [bind].
    rewrite doc_length_cons.
    destruct (byte_len + Z.of_nat (length (concat s)) >? byte_limit t)%Z eqn:Egt.
    + assert (Hgt : (byte_limit t < byte_len + Z.of_nat (length (concat s)))%Z).
      { destruct (Z.gtb_spec (byte_len + Z.of_nat (length (concat s)))
                             (byte_limit t)); [lia | discriminate]. }
      clear Egt.
      destruct (@truncate_bytes_words_cut s Hs byte_len Hlt)
        as (pre & word & post & Hsplit & Hb & Hrun); [lia|].
      rewrite Hrun. cbn [bind]. rewrite Z.eqb_refl.
      eexists. split; [reflexivity|]. split; [lia|]. intros _.
      exists pre, word, (post ++ concat doc).
      split; [simpl; rewrite Hsplit, <- app_assoc; reflexivity|].
      split; [exact Hb|]. simpl. rewrite app_nil_r. reflexivity.
    + assert (Hle : (byte_len + Z.of_nat (length (concat s)) <= byte_limit t)%Z).
      { destruct (Z.gtb_spec (byte_len + Z.of_nat (length (concat s)))
                             (byte_limit t)); [discriminate | lia]. }
      clear Egt.
      destruct (byte_len + Z.of_nat (length (concat s)) =? byte_limit t)%Z eqn:Eeq.
      * apply Z.eqb_eq in Eeq.
        exists [s]. split; [reflexivity|]. split.
        -- intros Htot. simpl. rewrite app_nil_r.
           rewrite (@no_tokens doc Hdne) by lia. rewrite app_nil_r. reflexivity.
        -- intros Htot.
           assert (Hsn : s <> []) by (intros ->; simpl in Eeq; lia).
           destruct (last_token Hsn) as (pre & word & ->).
           exists pre, word, (concat doc).
           rewrite concat_app in Eeq. simpl in Eeq.
           rewrite app_nil_r, length_app in Eeq.
           assert (Hw : nonempty word).
           { apply Forall_app in Hsne. destruct Hsne as [_ Hw].
             inversion Hw; assumption. }
           assert (Hwl : 0 < length word)
             by (destruct word; [exfalso; apply Hw; reflexivity | simpl; lia]).
           split; [simpl; rewrite <- app_assoc; reflexivity|].
           split; [lia|]. simpl. rewrite app_nil_r. f_equal. f_equal.
           symmetry. apply firstn_all2. lia.
      * apply Z.eqb_neq in Eeq.
        destruct (IH (byte_len + Z.of_nat (length (concat s)))%Z)
          as (tl & Htl & Hsmall & Hbig); [clear IH; lia|].
        clear IH.
        rewrite Htl. cbn [bind].
        exists (s :: tl). split; [reflexivity|]. split.
        -- intros Htot. simpl. rewrite Hsmall by lia. reflexivity.
        -- intros Htot. destruct Hbig as (pre & word & post & Hsplit & Hb & Hout);
             [lia|].
           exists (s ++ pre), word, post.
           split; [simpl; rewrite Hsplit, <- app_assoc; reflexivity|].
           rewrite concat_app, length_app.
           split; [lia|]. simpl. rewrite Hout, <- app_assoc.
           rewrite Nat2Z.inj_add, !Z.sub_add_distr. reflexivity.
Qed.

End Tokenizer.

End CutFacts.

(* ================================================================== *)
(** * The tokenizer against its specification *)
(* ================================================================== *)

Module TokenizerClaims.

Import Tokenize PyFacts Spec TokenizeFacts TruncateFacts CutFacts.

Lemma doc_ascii (d : Document) :
  Forall (Forall is_ascii) d -> is_ascii (concat (concat d)).
Proof. intros Hd. apply is_ascii_concat, Forall_concat. exact Hd. Qed.

Lemma sample_tokenizer (b l : Z) (m s : bool) :
  Sample.tokenizer b l m s = Ok (Sample.spl b l m s).
Proof. reflexivity. Qed.

Lemma sample_porter_ascii (w : str) : is_ascii w -> is_ascii (Sample.porter_stem w).
Proof. exact (fun H => H). Qed.

Lemma sample_exceptions_ascii :
  Forall (fun e => is_ascii (snd e)) Sample.exceptions.
Proof.
  repeat constructor; simpl; apply N.ltb_lt; reflexivity.
Qed.

(** [test_byte_limit] and [test_word_limit] of [tests/test_tokenizer.py]
    hold of the embedding. *)
Lemma test_byte_limit :
  fmap (fun d => length (concat (concat d)))
       (Tokenize.tokenize_text (Sample.spl 100 0 false false) (of_string Sample.test_text))
  = Ok 100.
Proof. vm_compute. reflexivity. Qed.

Lemma test_word_limit :
  fmap (fun d => length (concat d))
       (Tokenize.tokenize_text (Sample.spl 0 15 false false) (of_string Sample.test_text))
  = Ok 15.
Proof. vm_compute. reflexivity. Qed.

(** C6, as stated, fails: [_truncate_bytes] has no guard of its own.  A
    direct call on a token holding a two-byte character, with one byte
    left, cuts inside the character and raises. *)
Lemma C6_counterexample :
  _truncate_bytes (Sample.spl 1 0 false false) [[[233%N]]]
  = Raise UnicodeDecodeError.
Proof. reflexivity. Qed.

(** C10, as stated, fails: with byte limit -1 the text "a" is tokenized
    to one sentence holding the empty token. *)
Lemma C10_counterexample :
  tokenize_text (Sample.spl (-1) 0 false false) (of_string "a") = Ok [[[]]]
  /\ ~ Forall (Forall nonempty) [[@nil N]].
Proof.
  split; [reflexivity|].
  intros H. inversion H as [|s d Hs _]; subst.
  inversion Hs as [|w r Hw _]; subst. apply Hw. reflexivity.
Qed.

(** C10 (amended): for every input string and every configuration whose
    byte limit is not negative, every token of every sentence of the
    Document [tokenize_text] returns is a non-empty string. *)
Theorem C10_tokens_nonempty (t : Rouge155Tokenizer) (text : str) (doc : Document) :
  (0 <= byte_limit t)%Z ->
  tokenize_text t text = Ok doc ->
  Forall (Forall nonempty) doc.
Proof.
  intros Hb E. unfold tokenize_text in E.
  apply bind_ok in E. destruct E as [d [Hd E]]. injection E as <-.
  assert (Hne : Forall (Forall nonempty) d).
  { destruct (byte_limit t =? 0)%Z eqn:Hz.
    - injection Hd as <-. apply untruncated_nonempty.
    - apply Z.eqb_neq in Hz. unfold _truncate_bytes in Hd.
      eapply truncate_bytes_from_nonempty; [apply untruncated_nonempty | | exact Hd].
      lia. }
  destruct (word_limit t =? 0)%Z; [exact Hne|].
  apply truncate_words_from_Forall. exact Hne.
Qed.

Lemma C10_tokens_nonempty_witness :
  Forall (Forall nonempty) [[of_string "hello"; of_string "wo"]].
Proof.
  apply (@C10_tokens_nonempty (Sample.spl 7 3 true true)
           (of_string "Hello, afterwards world!")).
  - simpl. lia.
  - reflexivity.
Defined.

Section Constructed.

Variable porter_stem : str -> str.
Variable exceptions : list (str * str).
Variable stopwords : list str.
Variable see_findall : str -> list (str * str * str * str).

Hypothesis porter_ascii : forall w, is_ascii w -> is_ascii (porter_stem w).
Hypothesis exceptions_ascii : Forall (fun e => is_ascii (snd e)) exceptions.

Variables (b l : Z) (m s : bool) (split : option str).
Variable t : Rouge155Tokenizer.

(** C5 (amended): for every configuration with byte limit B > 0 and no
    word limit, and every text whose untruncated Document has more than B
    UTF-8 bytes, [tokenize_text] returns a Document whose tokens have
    exactly B UTF-8 bytes in total. *)
Theorem C5_byte_limit_exact (text : str) (n : nat) :
  (0 < b)%Z ->
  Tokenize.new porter_stem exceptions stopwords see_findall b 0 m s split = Ok t ->
  byte_length (concat (concat (untruncated t text))) = Ok n ->
  (b < Z.of_nat n)%Z ->
  exists doc,
    tokenize_text t text = Ok doc
    /\ byte_length (concat (concat doc)) = Ok (Z.to_nat b).
Proof.
  intros Hb Hnew Hn Hgt.
  assert (Hcfg : ascii_safe t /\ byte_limit t = b /\ word_limit t = 0%Z)
    by (eapply new_ascii_safe; [..|exact Hnew]; assumption).
  destruct Hcfg as (Hsafe & Hbl & Hwl).
  pose proof (untruncated_ascii text Hsafe) as Hascii.
  rewrite (byte_length_ascii (doc_ascii Hascii)) in Hn.
  injection Hn as <-.
  destruct (@truncate_bytes_from_exact t _ Hascii 0%Z)
    as (out & Hout & Hout_ascii & Hlen).
  { rewrite Hbl. exact Hb. }
  { rewrite Hbl. exact Hgt. }
  exists out. unfold tokenize_text, _truncate_bytes.
  rewrite Hbl, Hwl in *.
  replace (b =? 0)%Z with false by (symmetry; apply Z.eqb_neq; lia).
  rewrite Hout. simpl. split; [reflexivity|].
  rewrite (byte_length_ascii (doc_ascii Hout_ascii)).
  f_equal. unfold doc_length in Hlen. lia.
Qed.

(** C6 (amended): for every input text and every byte limit B > 0 the
    tokens that reach [_truncate_bytes] through [tokenize_text] are ASCII,
    and on them [_truncate_bytes] returns: it keeps every token when they
    have at most B bytes; otherwise it keeps the tokens before the one
    that crosses the limit, cuts that one with the code's own
    [encode('utf8')[:B - byte_len].decode()] to exactly the bytes left,
    and drops the rest.  [tokenize_text] returns that Document, after
    [_truncate_words] when a word limit is set. *)
Theorem C6_byte_truncation_decodes (text : str) :
  (0 < b)%Z ->
  Tokenize.new porter_stem exceptions stopwords see_findall b l m s split = Ok t ->
  exists out,
    _truncate_bytes t (untruncated t text) = Ok out
    /\ tokenize_text t text
       = Ok (if (l =? 0)%Z then out else _truncate_words t out)
    /\ Forall (Forall is_ascii) (untruncated t text)
    /\ byte_length (concat (concat (untruncated t text)))
       = Ok (doc_length (untruncated t text))
    /\ ((Z.of_nat (doc_length (untruncated t text)) <= b)%Z ->
        concat out = concat (untruncated t text))
    /\ ((b < Z.of_nat (doc_length (untruncated t text)))%Z ->
        exists pre word post before cut,
          concat (untruncated t text) = pre ++ word :: post
          /\ byte_length (concat pre) = Ok before
          /\ (Z.of_nat before < b)%Z
          /\ (enc <- utf8_encode word ;;
              utf8_decode (take (b - Z.of_nat before) enc)) = Ok cut
          /\ byte_length cut = Ok (Z.to_nat b - before)
          /\ concat out = pre ++ [cut]).
Proof.
  intros Hb Hnew.
  assert (Hcfg : ascii_safe t /\ byte_limit t = b /\ word_limit t = l)
    by (eapply new_ascii_safe; [..|exact Hnew]; assumption).
  destruct Hcfg as (Hsafe & Hbl & Hwl).
  pose proof (untruncated_ascii text Hsafe) as Hascii.
  pose proof (untruncated_nonempty t text) as Hne.
  destruct (@truncate_bytes_from_cut t _ Hascii Hne 0%Z)
    as (out & Hout & Hsmall & Hbig); [lia|].
  rewrite Hbl in Hsmall, Hbig.
  exists out. split; [exact Hout|]. split.
  { unfold tokenize_text, _truncate_bytes. rewrite Hbl, Hwl.
    replace (b =? 0)%Z with false by (symmetry; apply Z.eqb_neq; lia).
    rewrite Hout. reflexivity. }
  split; [exact Hascii|]. split.
  { apply byte_length_ascii, is_ascii_concat, Forall_concat. exact Hascii. }
  split.
  { intros Hle. apply Hsmall. lia. }
  intros Hgt. destruct Hbig as (pre & word & post & Hsplit & Hbd & Hcut); [lia|].
  assert (Htokens : Forall is_ascii (concat (untruncated t text)))
    by (apply Forall_concat; exact Hascii).
  rewrite Hsplit in Htokens. apply Forall_app in Htokens.
  destruct Htokens as [Hpre Hword].
  pose proof (Forall_inv Hword) as Hw.
  set (before := length (concat pre)) in *.
  exists pre, word, post, before, (firstn (Z.to_nat b - before) word).
  split; [exact Hsplit|]. split.
  { apply byte_length_ascii, is_ascii_concat. exact Hpre. }
  split; [lia|].
  assert (Hc : is_ascii (firstn (Z.to_nat b - before) word))
    by (apply Forall_prefix; exact Hw).
  split.
  { rewrite (utf8_encode_ascii Hw). cbn [bind].
    rewrite take_nonneg by lia.
    replace (Z.to_nat (b - Z.of_nat before)) with (Z.to_nat b - before) by lia.
    apply utf8_decode_ascii. exact Hc. }
  split.
  { rewrite (byte_length_ascii Hc), length_firstn. f_equal. lia. }
  rewrite Hcut. do 3 f_equal. lia.
Qed.

End Constructed.

(** C5, as stated, fails: with byte limit 3 and word limit 1 the text
    "aa bb" has 4 bytes before truncation and 2 after. *)
Lemma C5_counterexample :
  byte_length (concat (concat
     (untruncated (Sample.spl 3 1 false false) (of_string "aa bb")))) = Ok 4
  /\ tokenize_text (Sample.spl 3 1 false false) (of_string "aa bb")
     = Ok [[of_string "aa"]]
  /\ byte_length (concat (concat [[of_string "aa"]])) = Ok 2.
Proof. repeat split. Qed.

Lemma C5_byte_limit_exact_witness :
  exists doc,
    tokenize_text (Sample.spl 3 0 true true) (of_string "aa bb") = Ok doc
    /\ byte_length (concat (concat doc)) = Ok 3.
Proof.
  apply (@C5_byte_limit_exact Sample.porter_stem Sample.exceptions
           Sample.stopwords Sample.see_findall
           sample_porter_ascii sample_exceptions_ascii
           3%Z true true (Some (of_string "SPL"))
           (Sample.spl 3 0 true true) (of_string "aa bb") 4).
  - lia.
  - reflexivity.
  - reflexivity.
  - simpl. lia.
Defined.

Lemma C6_byte_truncation_decodes_witness :
  exists out,
    _truncate_bytes (Sample.spl 3 0 true true)
      (untruncated (Sample.spl 3 0 true true) (of_string "aa bb")) = Ok out
    /\ tokenize_text (Sample.spl 3 0 true true) (of_string "aa bb")
       = Ok (if (0 =? 0)%Z then out
             else _truncate_words (Sample.spl 3 0 true true) out)
    /\ Forall (Forall is_ascii)
         (untruncated (Sample.spl 3 0 true true) (of_string "aa bb"))
    /\ byte_length
         (concat (concat (untruncated (Sample.spl 3 0 true true)
                            (of_string "aa bb"))))
       = Ok (doc_length (untruncated (Sample.spl 3 0 true true)
                           (of_string "aa bb")))
    /\ ((Z.of_nat (doc_length (untruncated (Sample.spl 3 0 true true)
                                 (of_string "aa bb"))) <= 3)%Z ->
        concat out
        = concat (untruncated (Sample.spl 3 0 true true) (of_string "aa bb")))
    /\ ((3 < Z.of_nat (doc_length (untruncated (Sample.spl 3 0 true true)
                                     (of_string "aa bb"))))%Z ->
        exists pre word post before cut,
          concat (untruncated (Sample.spl 3 0 true true) (of_string "aa bb"))
          = pre ++ word :: post
          /\ byte_length (concat pre) = Ok before
          /\ (Z.of_nat before < 3)%Z
          /\ (enc <- utf8_encode word ;;
              utf8_decode (take (3 - Z.of_nat before) enc)) = Ok cut
          /\ byte_length cut = Ok (Z.to_nat 3 - before)
          /\ concat out = pre ++ [cut]).
Proof.
  apply (@C6_byte_truncation_decodes Sample.porter_stem Sample.exceptions
           Sample.stopwords Sample.see_findall
           sample_porter_ascii
           sample_exceptions_ascii
           3%Z 0%Z true true (Some (of_string "SPL"))
           (Sample.spl 3 0 true true) (of_string "aa bb")).
  - lia.
  - reflexivity.
Defined.

End TokenizerClaims.

(* ================================================================== *)
(** * The scorer against its specification *)
(* ================================================================== *)

Module ScorerClaims.

Import Rouge PyFacts Spec CounterFacts RougeFacts.

Local Open Scope string_scope.

Lemma sample_scorer (n : nat) (f : string) :
  Sample.scorer n f = Ok (Sample.rouge n f).
Proof. reflexivity. Qed.

(** C1: the docstring of [n_score_incremental] promises that the
    incremental recalls add up to the batch recall under scoring "A".
    The code breaks it twice.  Fed "a b" in one call against the
    reference "a b", it counts the last unigram only: the sum is 1/2 where
    the batch recall is 1.  Fed "a", "a", "a" against the reference "a",
    it counts each repetition: the sum is 3 where the batch recall is 1. *)
Theorem C1_incremental_sum_differs :
  (exists res outs,
      Sample.n_score 1 "A" ["a b"] "a b" = Ok res
      /\ Sample.incremental 1 ["a b"] ["a b"] = Ok outs
      /\ Session.batch_recall (label 1) res = Some 1%Q
      /\ (Session.recall_sum (label 1) outs == 1 # 2)%Q)
  /\ (exists res outs,
         Sample.n_score 1 "A" ["a"] "a a a" = Ok res
         /\ Sample.incremental 1 ["a"] ["a"; "a"; "a"] = Ok outs
         /\ Session.batch_recall (label 1) res = Some 1%Q
         /\ (Session.recall_sum (label 1) outs == 3)%Q).
Proof.
  split; do 2 eexists; (split; [vm_compute; reflexivity|]);
    (split; [vm_compute; reflexivity|]); split; vm_compute; reflexivity.
Qed.

(** C2: after [reset_incremental] with N = 2, the increment "a b" brings
    two tokens, yet [new_ngrams] holds one unigram ("b") and one bigram
    ("a b"): the slice [prev_tokens[-n:]] keeps the last n tokens, not the
    last len(new_tokens)+n-1. *)
Theorem C2_two_tokens_one_ngram :
  Sample.tokens "a b" = Ok [[of_string "a"; of_string "b"]]
  /\ new_ngrams_of ([[]; []] ++ [of_string "a"; of_string "b"])%list 1
     = [of_string "b"]
  /\ new_ngrams_of ([[]; []] ++ [of_string "a"; of_string "b"])%list 2
     = [of_string "a b"]
  /\ Sample.incremental 2 ["a b"] ["a b"]
     = Ok [[(label 1, Some (1 # 2)%Q); (label 2, Some (1 # 1)%Q)]].
Proof. repeat split. Qed.

(** C3, as stated, fails: against the references "a" and "a" the single
    new unigram "a" adds 2 to the matches count, one per table. *)
Lemma C3_counterexample :
  new_ngrams_of ([[]] ++ [of_string "a"])%list 1 = [of_string "a"]
  /\ incremental_matches
       [generate_counter [of_string "a"]; generate_counter [of_string "a"]]
       [of_string "a"] = 2
  /\ Sample.incremental 1 ["a"; "a"] ["a"] = Ok [[(label 1, Some (div 2 2))]].
Proof. repeat split. Qed.

Section Scorer.

Context {T : Type} `{Base.BaseTokenizer T}.

Variable self : Rouge T.

(** C3 (amended): in [n_score_incremental], for each n the matches count
    is the number of pairs of a reference table and a new n-gram such
    that the n-gram is a key of the table: membership ignores the count
    stored in a table, and an n-gram found in r tables adds r. *)
Theorem C3_membership_per_table (inc : Incremental) (docs : list Document)
  (new_text : str) (toks : Document) :
  incremental self = Some inc ->
  ref_counters inc = tables docs (N self) ->
  refs_count inc = totals docs (N self) ->
  _tokenize self new_text = Ok toks ->
  concat toks <> [] ->
  (forall n, 1 <= n <= N self -> total docs n <> 0) ->
  n_score_incremental self new_text
  = Ok (with_incremental self
          {| ref_counters := ref_counters inc;
             refs_count := refs_count inc;
             prev_tokens := (prev_tokens inc ++ concat toks)%list |},
        map (fun n =>
               (label n,
                Some (div (membership_matches docs
                             (prev_tokens inc ++ concat toks)%list n)
                          (total docs n))))
            (seq 1 (N self))).
Proof. apply n_score_incremental_ready. Qed.

(** C9 (amended): for every list of reference texts, [reset_incremental]
    sets the carry-over buffer to exactly N empty-string tokens, rebuilds
    the per-n reference tables and totals from the references alone, and
    its result does not depend on the incremental state it replaces. *)
Theorem C9_reset_incremental (ref_texts : list str) (docs : list Document) :
  mapM (_tokenize self) ref_texts = Ok docs ->
  reset_incremental self ref_texts
  = Ok (with_incremental self
          {| ref_counters := tables docs (N self);
             refs_count := totals docs (N self);
             prev_tokens := repeat [] (N self) |})
  /\ forall old : Incremental,
      reset_incremental (with_incremental self old) ref_texts
      = reset_incremental self ref_texts.
Proof.
  intros E. split; [apply reset_incremental_ok; exact E|].
  intros old. reflexivity.
Qed.

End Scorer.

Lemma C3_membership_per_table_witness :
  n_score_incremental
    (with_incremental (Sample.rouge 1 "A") Sample.inc_a_a) (of_string "a")
  = Ok (with_incremental (Sample.rouge 1 "A")
          {| ref_counters := ref_counters Sample.inc_a_a;
             refs_count := refs_count Sample.inc_a_a;
             prev_tokens := [[]; of_string "a"] |},
        [(label 1, Some (div 2 2))]).
Proof.
  apply (@C3_membership_per_table _ _
           (with_incremental (Sample.rouge 1 "A") Sample.inc_a_a)
           Sample.inc_a_a [[[of_string "a"]]; [[of_string "a"]]]
           (of_string "a") [[of_string "a"]]).
  - reflexivity.
  - reflexivity.
  - reflexivity.
  - reflexivity.
  - discriminate.
  - intros n Hn. simpl in Hn. replace n with 1 by lia. discriminate.
Defined.

(** C9, as stated, fails: with the default N = 4 the buffer holds four
    empty strings after [reset_incremental], not three. *)
Lemma C9_counterexample :
  fmap (fun self => option_map prev_tokens (incremental self))
       (reset_incremental (Sample.rouge 4 "A") [of_string "a b"])
  = Ok (Some [[]; []; []; []])
  /\ length ([[]; []; []; []] : list str) <> 4 - 1.
Proof. split; [reflexivity | discriminate]. Qed.

Lemma C9_reset_incremental_witness :
  reset_incremental (Sample.rouge 2 "A") [of_string "a b"]
  = Ok (with_incremental (Sample.rouge 2 "A")
          {| ref_counters := tables [[[of_string "a"; of_string "b"]]] 2;
             refs_count := totals [[[of_string "a"; of_string "b"]]] 2;
             prev_tokens := [[]; []] |}).
Proof.
  apply (@C9_reset_incremental _ _ (Sample.rouge 2 "A") [of_string "a b"]
           [[[of_string "a"; of_string "b"]]]).
  reflexivity.
Defined.

(** C4: under scoring "B" a reference without n-grams makes the key
    [x[2]/x[1]] of [max] divide by zero, and [n_score] raises; the guards
    on recall and precision are not reached.  Under scoring "A" the same
    input returns zeros. *)
Theorem C4_best_scoring_raises :
  Sample.n_score 1 "B" [""] "a" = Raise ZeroDivisionError
  /\ Sample.n_score 4 "B" ["a b c"] "a b c" = Raise ZeroDivisionError
  /\ Sample.n_score 1 "A" [""] "a"
     = Ok [(label 1, {| R := 0; P := 0; F := 0 |})].
Proof. repeat split. Qed.


(** C8: the match count of [n_score] against one reference is the size of
    the multiset intersection of the two n-gram lists, and the two
    denominators count n-grams with repeats; for n = 1, candidate "a a b"
    and reference "a b b" give 2 matches, recall 2/3 and precision 2/3
    (0.66667 once rounded). *)
Theorem C8_multiset_matching :
  (forall (cand ref : Document) (n : nat),
      per_reference (generate_counter (_ngram_tokenize cand n)) n ref
      = (length (_ngram_tokenize cand n),
         length (_ngram_tokenize ref n),
         multiset_intersection (_ngram_tokenize cand n)
                               (_ngram_tokenize ref n)))
  /\ Sample.counts 1 "A" ["a b b"] "a a b"
     = Ok (3, 3, Nat.min 2 1 + Nat.min 1 2)
  /\ (recall_of 3 2 == 2 # 3)%Q
  /\ (precision_of 3 2 == 2 # 3)%Q
  /\ Sample.n_score 1 "A" ["a b b"] "a a b"
     = Ok [(label 1, {| R := round5 (2 # 3); P := round5 (2 # 3);
                        F := round5 (2 # 3) |})]
  /\ round5 (2 # 3) = (66667 # 100000)%Q.
Proof.
  split; [|repeat split].
  intros cand ref n. unfold per_reference.
  rewrite !generate_counter_total, matches_of_multiset. reflexivity.
Qed.

End ScorerClaims.

(* ================================================================== *)
(** * Further properties: n-grams and counters *)
(* ================================================================== *)

Module NgramExtras.

Import Rouge PyFacts Spec CounterFacts RougeFacts BoundsFacts.

(** X1: [Counter(ngrams)] answers the number of occurrences of an n-gram,
    holds exactly the n-grams of the list as keys, each once, and its
    values add up to the length of the list. *)
Theorem generate_counter_counts (ngrams : list str) :
  (forall g, get (generate_counter ngrams) g = count_occ str_eq_dec ngrams g)
  /\ (forall g, contains (generate_counter ngrams) g = true <-> In g ngrams)
  /\ NoDup (keys (generate_counter ngrams))
  /\ sum (values (generate_counter ngrams)) = length ngrams.
Proof.
  split; [|split; [|split]].
  - intros g. apply generate_counter_get.
  - intros g. rewrite contains_keys. apply generate_counter_keys.
  - apply generate_counter_keys_NoDup.
  - apply generate_counter_total.
Qed.

Lemma slice_one (A : Type) (l : list A) (i : nat) :
  i < length l -> exists x, slice i 1 l = [x] /\ nth_error l i = Some x.
Proof.
  revert i. induction l as [|a l IH]; intros i Hi; simpl in Hi; [lia|].
  destruct i as [|i].
  - exists a. split; reflexivity.
  - destruct (IH i) as [x [Hs Hn]]; [lia|]. exists x. split; assumption.
Qed.

Lemma map_seq_nth (A : Type) (f : nat -> A) (l : list A) :
  (forall i, i < length l -> nth_error l i = Some (f i)) ->
  map f (seq 0 (length l)) = l.
Proof.
  induction l as [|a l IH] using rev_ind; intros Hf; [reflexivity|].
  rewrite length_app. simpl. rewrite Nat.add_1_r, seq_S, map_app. simpl.
  f_equal.
  - apply IH. intros i Hi.
    specialize (Hf i). rewrite length_app in Hf. simpl in Hf.
    rewrite nth_error_app1 in Hf by exact Hi. apply Hf. lia.
  - specialize (Hf (length l)). rewrite length_app in Hf. simpl in Hf.
    rewrite nth_error_app2, Nat.sub_diag in Hf by lia. simpl in Hf.
    assert (E : Some a = Some (f (length l))) by (apply Hf; lia).
    injection E as <-. reflexivity.
Qed.

(** X2: The unigrams of a tokenized text are its tokens, sentence
    boundaries erased. *)
Theorem unigrams_are_tokens (doc : Document) :
  _ngram_tokenize doc 1 = concat doc.
Proof.
  unfold _ngram_tokenize. replace (S (length (concat doc)) - 1)
    with (length (concat doc)) by lia.
  apply map_seq_nth. intros i Hi.
  destruct (slice_one (concat doc) Hi) as [x [Hs Hn]].
  rewrite Hs, Hn. reflexivity.
Qed.

End NgramExtras.

Module MatchExtras.

Import Rouge PyFacts Spec CounterFacts RougeFacts BoundsFacts.

Lemma split_on_no_sep (sep : BinNums.N) (s : str) :
  ~ In sep s -> Tokenize.split_on sep s = [s].
Proof.
  induction s as [|c s IH]; intros Hs; simpl; [reflexivity|].
  destruct (N.eqb c sep) eqn:E.
  - apply N.eqb_eq in E. exfalso. apply Hs. left. exact E.
  - rewrite IH by (intros H; apply Hs; right; exact H). reflexivity.
Qed.

Lemma split_on_app (sep : BinNums.N) (s t : str) :
  ~ In sep s ->
  Tokenize.split_on sep (s ++ sep :: t) = s :: Tokenize.split_on sep t.
Proof.
  induction s as [|c s IH]; intros Hs; simpl.
  - rewrite N.eqb_refl. reflexivity.
  - destruct (N.eqb c sep) eqn:E.
    + apply N.eqb_eq in E. exfalso. apply Hs. left. exact E.
    + rewrite IH by (intros H; apply Hs; right; exact H). reflexivity.
Qed.

Lemma split_join_tokens (tokens : list str) :
  tokens <> [] ->
  Forall (fun t => ~ In Tokenize.space t) tokens ->
  Tokenize.split_on Tokenize.space (join [Tokenize.space] tokens) = tokens.
Proof.
  intros Hne Hsp. induction Hsp as [|t ts Ht Hts IH]; [contradiction|].
  destruct ts as [|t' ts].
  - simpl. apply split_on_no_sep. exact Ht.
  - change (join [Tokenize.space] (t :: t' :: ts))
      with (t ++ Tokenize.space :: join [Tokenize.space] (t' :: ts)).
    rewrite split_on_app by exact Ht. f_equal. apply IH. discriminate.
Qed.

(** X3: An n-gram determines its tokens, as long as no token holds a space:
    splitting the joined string on the separator gives the tokens back,
    so two token sequences with the same n-gram string are equal. *)
Theorem ngram_round_trip (tokens tokens' : list str) :
  tokens <> [] ->
  tokens' <> [] ->
  Forall (fun t => ~ In Tokenize.space t) tokens ->
  Forall (fun t => ~ In Tokenize.space t) tokens' ->
  Tokenize.split_on Tokenize.space (join [Tokenize.space] tokens) = tokens
  /\ (join [Tokenize.space] tokens = join [Tokenize.space] tokens' ->
      tokens = tokens').
Proof.
  intros Hne Hne' Hsp Hsp'. split.
  - apply split_join_tokens; assumption.
  - intros E.
    rewrite <- (split_join_tokens Hne Hsp), E.
    apply split_join_tokens; assumption.
Qed.

Lemma ngram_round_trip_witness :
  Tokenize.split_on Tokenize.space
    (join [Tokenize.space] [of_string "the"; of_string "cat"])
  = [of_string "the"; of_string "cat"]
  /\ (join [Tokenize.space] [of_string "the"; of_string "cat"]
      = join [Tokenize.space] [of_string "the"; of_string "cat"] ->
      [of_string "the"; of_string "cat"] = [of_string "the"; of_string "cat"]).
Proof.
  apply (@ngram_round_trip [of_string "the"; of_string "cat"]
           [of_string "the"; of_string "cat"]).
  - discriminate.
  - discriminate.
  - repeat constructor; vm_compute; intuition discriminate.
  - repeat constructor; vm_compute; intuition discriminate.
Defined.

Lemma multiset_intersection_comm (a b : list str) :
  multiset_intersection a b = multiset_intersection b a.
Proof.
  rewrite <- (matches_of_multiset a b).
  unfold multiset_intersection at 1.
  rewrite (@matches_of_enumeration a b
             (filter (occurs a) (nodup str_eq_dec b))).
  - apply f_equal, map_ext. intros g. apply Nat.min_comm.
  - apply NoDup_filter, NoDup_nodup.
  - intros g. rewrite filter_In, nodup_In, occurs_In. tauto.
Qed.

(** Swapping candidate and reference swaps the two denominators and
    keeps the match count: the recall of one direction is the precision
    of the other. *)
Lemma per_reference_swap (cand ref : Document) (n : nat) :
  per_reference (generate_counter (_ngram_tokenize ref n)) n cand
  = let '(cands_count, refs_count, matches_count) :=
      per_reference (generate_counter (_ngram_tokenize cand n)) n ref in
    (refs_count, cands_count, matches_count).
Proof.
  unfold per_reference.
  rewrite !generate_counter_total, !matches_of_multiset.
  rewrite (multiset_intersection_comm (_ngram_tokenize ref n)).
  reflexivity.
Qed.

(** X4: The match count never exceeds the number of candidate n-grams nor
    the number of reference n-grams, and is zero when the two texts share
    no n-gram. *)
Theorem matches_bounds (cand_ngrams ref_ngrams : list str) :
  matches_of (generate_counter ref_ngrams) (generate_counter cand_ngrams)
    <= length cand_ngrams
  /\ matches_of (generate_counter ref_ngrams) (generate_counter cand_ngrams)
    <= length ref_ngrams
  /\ ((forall g, In g cand_ngrams -> ~ In g ref_ngrams) ->
      matches_of (generate_counter ref_ngrams) (generate_counter cand_ngrams) = 0).
Proof.
  rewrite matches_of_multiset.
  destruct (multiset_intersection_le cand_ngrams ref_ngrams) as [H1 H2].
  split; [exact H1|]. split; [exact H2|].
  intros Hdisj. rewrite <- (matches_of_multiset cand_ngrams ref_ngrams).
  rewrite (@matches_of_enumeration cand_ngrams ref_ngrams []).
  - reflexivity.
  - constructor.
  - intros g. split; [intros [] | intros [H3 H4]; exact (Hdisj g H3 H4)].
Qed.

(** A text scored against itself matches every n-gram. *)
Lemma multiset_intersection_self (l : list str) :
  multiset_intersection l l = length l.
Proof.
  rewrite <- matches_of_multiset. unfold matches_of.
  set (c := generate_counter l).
  assert (Hf : filter (contains c) (keys c) = keys c).
  { apply forallb_filter_id. apply forallb_forall. intros g Hg.
    apply contains_keys. exact Hg. }
  rewrite Hf.
  rewrite (map_ext _ (get c)) by (intros g; apply Nat.min_id).
  assert (Hget : forall c', NoDup (keys c') -> map (get c') (keys c') = values c').
  { induction c' as [|[k v] c' IH]; intros Hnd; [reflexivity|].
    simpl. rewrite str_eqb_refl. f_equal.
    inversion Hnd as [|x xs Hx Hxs]; subst.
    rewrite <- (IH Hxs). apply map_ext_in. intros g Hg.
    destruct (str_eqb k g) eqn:E; [|reflexivity].
    apply str_eqb_eq in E. subst g. contradiction. }
  rewrite Hget by apply generate_counter_keys_NoDup.
  apply generate_counter_total.
Qed.

End MatchExtras.

(* ================================================================== *)
(** * Further properties: scores *)
(* ================================================================== *)

Module ScoreExtras.

Import Rouge PyFacts Spec CounterFacts RougeFacts BoundsFacts MatchExtras.

Lemma round_half_even_bounds (q : Q) (lo hi : Z) :
  (inject_Z lo <= q <= inject_Z hi)%Q ->
  (lo <= round_half_even q <= hi)%Z.
Proof.
  intros [Hlo Hhi].
  assert (Hf1 : (lo <= Qfloor q)%Z).
  { rewrite <- (Qfloor_Z lo). apply Qfloor_resp_le. exact Hlo. }
  assert (Hf2 : (Qfloor q <= hi)%Z).
  { rewrite <- (Qfloor_Z hi). apply Qfloor_resp_le. exact Hhi. }
  assert (Hlt : (Qfloor q < hi)%Z \/ (q - inject_Z (Qfloor q) <= 0)%Q).
  { destruct (Z.eq_dec (Qfloor q) hi) as [E|E]; [right | left; lia].
    rewrite E. revert Hhi. generalize (inject_Z hi). intros h Hh. lra. }
  unfold round_half_even. cbv zeta.
  destruct (Qcompare_spec (q - inject_Z (Qfloor q)) (1 # 2)) as [E|E|E].
  - destruct (Z.even (Qfloor q)); [lia|].
    destruct Hlt as [Hlt|Hlt]; [lia|].
    exfalso. revert E Hlt. generalize (q - inject_Z (Qfloor q))%Q.
    intros d E Hlt. rewrite E in Hlt. lra.
  - lia.
  - destruct Hlt as [Hlt|Hlt]; [lia|].
    exfalso. revert E Hlt. generalize (q - inject_Z (Qfloor q))%Q.
    intros d E Hlt. lra.
Qed.

Lemma round5_bounds (q : Q) : (0 <= q <= 1)%Q -> (0 <= round5 q <= 1)%Q.
Proof.
  intros [H0 H1]. unfold round5. rewrite Qred_correct.
  destruct (@round_half_even_bounds (q * 100000)%Q 0 100000) as [Hz0 Hz1].
  { split; [change (inject_Z 0) with 0%Q | change (inject_Z 100000) with 100000%Q]; lra. }
  set (z := round_half_even (q * 100000)) in *.
  assert (Hq0 : (inject_Z 0 <= inject_Z z)%Q) by (rewrite <- Zle_Qle; exact Hz0).
  assert (Hq1 : (inject_Z z <= inject_Z 100000)%Q) by (rewrite <- Zle_Qle; exact Hz1).
  change (inject_Z 0) with 0%Q in Hq0.
  change (inject_Z 100000) with 100000%Q in Hq1.
  revert Hq0 Hq1. generalize (inject_Z z). intros x Hq0 Hq1.
  split.
  - apply Qle_shift_div_l; lra.
  - apply Qle_shift_div_r; lra.
Qed.

Lemma div_bounds (a b : nat) : a <= b -> 0 < b -> (0 <= div a b <= 1)%Q.
Proof.
  intros Hab Hb. unfold div.
  assert (Ha : (inject_Z 0 <= inject_Z (Z.of_nat a))%Q) by (rewrite <- Zle_Qle; lia).
  assert (Hb' : (inject_Z 0 < inject_Z (Z.of_nat b))%Q) by (rewrite <- Zlt_Qlt; lia).
  assert (Hab' : (inject_Z (Z.of_nat a) <= inject_Z (Z.of_nat b))%Q)
    by (rewrite <- Zle_Qle; lia).
  change (inject_Z 0) with 0%Q in Ha, Hb'.
  revert Ha Hb' Hab'.
  generalize (inject_Z (Z.of_nat a)), (inject_Z (Z.of_nat b)).
  intros x y Ha Hb' Hab'.
  split.
  - apply Qle_shift_div_l; lra.
  - apply Qle_shift_div_r; lra.
Qed.

Lemma recall_of_bounds (refs matches : nat) :
  matches <= refs -> (0 <= recall_of refs matches <= 1)%Q.
Proof.
  intros H. unfold recall_of. destruct (Nat.eqb refs 0) eqn:E; [lra|].
  apply Nat.eqb_neq in E. apply div_bounds; lia.
Qed.

Lemma precision_of_bounds (cands matches : nat) :
  matches <= cands -> (0 <= precision_of cands matches <= 1)%Q.
Proof.
  intros H. unfold precision_of. destruct (Nat.eqb cands 0) eqn:E; [lra|].
  apply Nat.eqb_neq in E. apply div_bounds; lia.
Qed.

Lemma recall_of_pos (refs matches : nat) :
  0 < matches -> matches <= refs -> (0 < recall_of refs matches)%Q.
Proof.
  intros H1 H2. unfold recall_of.
  replace (Nat.eqb refs 0) with false by (symmetry; apply Nat.eqb_neq; lia).
  apply div_pos; lia.
Qed.

Lemma precision_of_pos (cands matches : nat) :
  0 < matches -> matches <= cands -> (0 < precision_of cands matches)%Q.
Proof.
  intros H1 H2. unfold precision_of.
  replace (Nat.eqb cands 0) with false by (symmetry; apply Nat.eqb_neq; lia).
  apply div_pos; lia.
Qed.

Lemma fscore_of_bounds (alpha p r : Q) (matches : nat) (f : Q) :
  (0 <= alpha <= 1)%Q -> (0 <= p <= 1)%Q -> (0 <= r <= 1)%Q ->
  (0 < matches -> (0 < p)%Q /\ (0 < r)%Q) ->
  fscore_of alpha p r matches = Ok f ->
  (0 <= f <= 1)%Q.
Proof.
  intros Ha Hp Hr Hpos. unfold fscore_of.
  destruct (Nat.eqb matches 0) eqn:E.
  - intros H. injection H as <-. split; compute; discriminate.
  - apply Nat.eqb_neq in E. destruct Hpos as [Hp0 Hr0]; [lia|].
    destruct (Qeq_bool _ 0) eqn:Ed; [discriminate|].
    intros H. injection H as <-.
    apply Qeq_bool_neq in Ed.
    assert (Hd0 : (0 <= (1 - alpha) * p + alpha * r)%Q) by nra.
    assert (Hd : (0 < (1 - alpha) * p + alpha * r)%Q).
    { apply Qle_lteq in Hd0. destruct Hd0 as [H|H]; [exact H|].
      exfalso. apply Ed. symmetry. exact H. }
    assert (H1 : (0 <= (1 - alpha) * (p * (1 - r)))%Q)
      by (apply Qmult_le_0_compat; [lra | apply Qmult_le_0_compat; lra]).
    assert (H2 : (0 <= alpha * (r * (1 - p)))%Q)
      by (apply Qmult_le_0_compat; [lra | apply Qmult_le_0_compat; lra]).
    assert (H3 : (0 <= p * r)%Q) by (apply Qmult_le_0_compat; lra).
    split.
    + apply Qle_shift_div_l; [exact Hd|]. lra.
    + apply Qle_shift_div_r; [exact Hd|]. lra.
Qed.

Lemma best_key_ok_In (xs : list (nat * nat * nat)) (ks : list Q) :
  mapM best_key xs = Ok ks ->
  length ks = length xs
  /\ forall x k, In (x, k) (combine xs ks) -> best_key x = Ok k.
Proof.
  revert ks. induction xs as [|x xs IH]; intros ks E; simpl in E.
  - injection E as <-. split; [reflexivity | intros x k []].
  - apply bind_ok in E. destruct E as [k [Hk E]].
    apply bind_ok in E. destruct E as [ks' [Hks E]]. injection E as <-.
    destruct (IH ks' Hks) as [Hlen Hin]. split; [simpl; lia|].
    intros y ky [Hy|Hy]; [injection Hy as <- <-; exact Hk | apply Hin; exact Hy].
Qed.

Lemma max_from_spec (A : Type) (l : list (A * Q)) :
  forall best kbest,
  exists kx,
    In (max_from best kbest l, kx) ((best, kbest) :: l)
    /\ forall y ky, In (y, ky) ((best, kbest) :: l) -> (ky <= kx)%Q.
Proof.
  induction l as [|[y k] l IH]; intros best kbest; simpl.
  - exists kbest. split; [left; reflexivity|].
    intros y ky [E|[]]. injection E as _ <-. lra.
  - destruct (Qle_bool k kbest) eqn:E.
    + apply Qle_bool_iff in E.
      destruct (IH best kbest) as [kx [Hin Hmax]]. exists kx. split.
      * destruct Hin as [Hin|Hin]; [left; exact Hin | right; right; exact Hin].
      * intros z kz [Hz|[Hz|Hz]].
        -- apply (Hmax z kz). left. exact Hz.
        -- injection Hz as _ <-.
           assert (kbest <= kx)%Q by (apply (Hmax best kbest); left; reflexivity).
           lra.
        -- apply (Hmax z kz). right. exact Hz.
    + assert (Hlt : (kbest < k)%Q).
      { apply Qnot_le_lt. intros H. apply Qle_bool_iff in H. congruence. }
      destruct (IH y k) as [kx [Hin Hmax]]. exists kx. split.
      * right. exact Hin.
      * intros z kz [Hz|[Hz|Hz]].
        -- injection Hz as _ <-.
           assert (k <= kx)%Q by (apply (Hmax y k); left; reflexivity).
           lra.
        -- apply (Hmax z kz). left. exact Hz.
        -- apply (Hmax z kz). right. exact Hz.
Qed.

Lemma max_by_key_spec (triples : list (nat * nat * nat))
  (cands refs matches : nat) :
  aggregate (of_string "B") triples = Ok (cands, refs, matches) ->
  In (cands, refs, matches) triples
  /\ refs <> 0
  /\ forall c r m, In (c, r, m) triples ->
       r <> 0 /\ (div m r <= div matches refs)%Q.
Proof.
  unfold aggregate. simpl. unfold max_by_key.
  destruct triples as [|x xs]; [discriminate|].
  intros E. apply bind_ok in E. destruct E as [k [Hk E]].
  apply bind_ok in E. destruct E as [ks [Hks E]]. injection E as E.
  destruct (best_key_ok_In xs Hks) as [Hlen Hkeys].
  destruct (max_from_spec (combine xs ks) x k) as [kx [Hin Hmax]].
  rewrite E in Hin.
  assert (Hall : forall y ky, In (y, ky) ((x, k) :: combine xs ks) ->
                              best_key y = Ok ky).
  { intros y ky [Hy|Hy]; [injection Hy as <- <-; exact Hk | apply Hkeys; exact Hy]. }
  assert (Hkx : best_key (cands, refs, matches) = Ok kx) by (apply Hall; exact Hin).
  simpl in Hkx. destruct (Nat.eqb refs 0) eqn:Er; [discriminate|].
  injection Hkx as <-. apply Nat.eqb_neq in Er.
  split; [|split; [exact Er|]].
  - destruct Hin as [Hin|Hin]; [left; congruence|].
    right. apply in_combine_l in Hin. exact Hin.
  - intros c r m Hcrm.
    assert (Hex : exists ky, In ((c, r, m), ky) ((x, k) :: combine xs ks)).
    { destruct Hcrm as [->|Hcrm]; [exists k; left; reflexivity|].
      apply In_nth_error in Hcrm. destruct Hcrm as [i Hi].
      assert (Hi' : i < length ks).
      { rewrite Hlen. apply nth_error_Some. congruence. }
      apply nth_error_Some in Hi'.
      destruct (nth_error ks i) as [ky|] eqn:Eky; [|congruence].
      exists ky. right. apply (nth_error_In _ i).
      clear - Hi Eky. revert ks i Hi Eky.
      induction xs as [|a xs IH]; intros ks i Hi Eky;
        [destruct i; discriminate|].
      destruct ks as [|b ks]; [destruct i; discriminate|].
      destruct i as [|i]; simpl in *; [congruence | apply IH; assumption]. }
    destruct Hex as [ky Hy].
    pose proof (Hall _ _ Hy) as Hbk. simpl in Hbk.
    destruct (Nat.eqb r 0) eqn:Er'; [discriminate|]. injection Hbk as <-.
    apply Nat.eqb_neq in Er'. split; [exact Er'|].
    apply (Hmax _ _ Hy).
Qed.

End ScoreExtras.

Module BestExtras.

Import Rouge PyFacts Spec CounterFacts RougeFacts BoundsFacts ScoreExtras
       DoubleDefs.

Lemma div_frac (a b : nat) :
  0 < b -> (div a b == Z.of_nat a # Pos.of_nat b)%Q.
Proof.
  intros Hb. unfold div. rewrite (Qmake_Qdiv (Z.of_nat a) (Pos.of_nat b)).
  rewrite <- positive_nat_Z, Nat2Pos.id by lia. reflexivity.
Qed.

(** Two different ratios of counts below 2^26 are more than 2^-53 apart. *)
Lemma ratio_gap (m r m' r' : nat) :
  0 < r -> 0 < r' ->
  (Z.of_nat r < 67108864)%Z -> (Z.of_nat r' < 67108864)%Z ->
  (div m r < div m' r')%Q ->
  (div m r + (1 # 9007199254740992) < div m' r')%Q.
Proof.
  intros Hr Hr' Hb Hb'.
  rewrite (div_frac m Hr), (div_frac m' Hr').
  unfold Qlt, Qplus. cbn [Qnum Qden].
  rewrite !Pos2Z.inj_mul.
  rewrite <- !positive_nat_Z, !Nat2Pos.id by lia.
  rewrite !positive_nat_Z.
  assert (Hp : (Z.of_nat r * Z.of_nat r' < 4503599627370496)%Z).
  { change 4503599627370496%Z with (67108864 * 67108864)%Z.
    apply Z.mul_lt_mono_nonneg; lia. }
  revert Hp.
  generalize (Z.of_nat m) (Z.of_nat m') (Z.of_nat r) (Z.of_nat r').
  intros a a' b b' Hp Hlt. nia.
Qed.

Section Rounding.

Variable fl : Q -> Q.
Hypothesis fl_double : rounds_like_double fl.

(** On such ratios the rounded keys compare as the exact ones. *)
Lemma rounded_compare (m r m' r' : nat) :
  m <= r -> m' <= r' -> 0 < r -> 0 < r' ->
  (Z.of_nat r < 67108864)%Z -> (Z.of_nat r' < 67108864)%Z ->
  Qle_bool (fl (div m' r')) (fl (div m r)) = Qle_bool (div m' r') (div m r).
Proof.
  intros Hm Hm' Hr Hr' Hb Hb'. destruct fl_double as [Hclose Hcomp].
  pose proof (Hclose _ (div_bounds Hm Hr)) as Ha.
  pose proof (Hclose _ (div_bounds Hm' Hr')) as Ha'.
  destruct (Qle_bool (div m' r') (div m r)) eqn:E.
  - apply Qle_bool_iff in E. apply Qle_bool_iff.
    destruct (Qlt_le_dec (div m' r') (div m r)) as [Hlt|Hge].
    + pose proof (ratio_gap Hr' Hr Hb' Hb Hlt) as Hgap. lra.
    + assert (Heq : (div m' r' == div m r)%Q) by lra.
      rewrite (Hcomp _ _ Heq). lra.
  - destruct (Qle_bool (fl (div m' r')) (fl (div m r))) eqn:E'; [|reflexivity].
    apply Qle_bool_iff in E'.
    assert (Hlt : (div m r < div m' r')%Q).
    { apply Qnot_le_lt. intros Hle. apply Qle_bool_iff in Hle. congruence. }
    pose proof (ratio_gap Hr Hr' Hb Hb' Hlt) as Hgap. lra.
Qed.

Lemma max_from_rounded (A : Type) (l : list (A * Q)) :
  Forall (fun p => small_key (snd p)) l ->
  forall best kbest,
    small_key kbest ->
    max_from best (fl kbest) (map (fun p => (fst p, fl (snd p))) l)
    = max_from best kbest l.
Proof.
  induction 1 as [|[y k] l Hk _ IH]; intros best kbest Hbest; [reflexivity|].
  cbn [map max_from fst snd]. cbn [snd] in Hk.
  destruct Hk as (m' & r' & Hm' & Hr' & Hb' & ->).
  pose proof Hbest as (m & r & Hm & Hr & Hb & ->).
  rewrite (rounded_compare Hm Hm' Hr Hr' Hb Hb').
  destruct (Qle_bool (div m' r') (div m r)).
  - apply IH. exact Hbest.
  - apply IH. exists m', r'. auto.
Qed.

Lemma best_key_small (x : nat * nat * nat) (k : Q) :
  snd x <= snd (fst x) /\ (Z.of_nat (snd (fst x)) < 2 ^ 26)%Z ->
  best_key x = Ok k -> small_key k.
Proof.
  destruct x as [[c r] m]. cbn [fst snd]. intros [Hm Hb] E. simpl in E.
  destruct (Nat.eqb r 0) eqn:Er; [discriminate|]. injection E as <-.
  apply Nat.eqb_neq in Er. exists m, r.
  split; [exact Hm|]. split; [lia|]. split; [exact Hb | reflexivity].
Qed.

Lemma rounded_keys (xs : list (nat * nat * nat)) (ks : list Q) :
  mapM best_key xs = Ok ks ->
  mapM (rounded_key fl) xs = Ok (map fl ks).
Proof. apply mapM_then_map. Qed.

(** Within the bounds, [max] on the rounded keys returns what [max] on
    the exact keys returns. *)
Lemma max_by_rounded_key_agrees (triples : list (nat * nat * nat))
  (x : nat * nat * nat) :
  Forall (fun x => snd x <= snd (fst x)
                   /\ (Z.of_nat (snd (fst x)) < 2 ^ 26)%Z) triples ->
  max_by_key triples = Ok x ->
  max_by_rounded_key fl triples = Ok x.
Proof.
  intros Hb E. destruct triples as [|y ys]; [discriminate|].
  unfold max_by_key in E. unfold max_by_rounded_key.
  apply bind_ok in E. destruct E as [k [Hk E]].
  apply bind_ok in E. destruct E as [ks [Hks E]]. injection E as <-.
  inversion Hb as [|? ? Hy Hys]; subst.
  unfold rounded_key at 1. rewrite Hk. cbn [bind].
  rewrite (rounded_keys ys Hks). cbn [bind]. f_equal.
  replace (combine ys (map fl ks))
    with (map (fun p : (nat * nat * nat) * Q => (fst p, fl (snd p)))
              (combine ys ks)).
  - apply max_from_rounded; [|exact (@best_key_small y k Hy Hk)].
    destruct (best_key_ok_In ys Hks) as [_ Hin].
    apply Forall_forall. intros [z kz] Hz. cbn [snd].
    apply (@best_key_small z kz); [|apply Hin; exact Hz].
    apply in_combine_l in Hz.
    exact (proj1 (Forall_forall _ _) Hys z Hz).
  - clear. revert ks. induction ys as [|a ys IH]; intros [|b ks];
      try reflexivity.
    simpl. rewrite IH. reflexivity.
Qed.

End Rounding.

Lemma exact_rounds_like_double : rounds_like_double (fun q => q).
Proof.
  split.
  - intros q _. split; lra.
  - intros p q E. exact E.
Qed.

(** X5: Under scoring "B", for per-reference triples with matches at
    most the reference count and reference counts below 2^26: when [max]
    returns, it returns one of the triples, every reference has n-grams,
    and no reference has a larger ratio of matches to reference n-grams.
    The key of [max] is a double in the code and an exact ratio here;
    within these bounds two different ratios are more than 2^-53 apart,
    so the rounded keys order the references as the exact ones do, and
    [max] on keys rounded as doubles are returns the same triple. *)
Theorem best_scoring_maximal (triples : list (nat * nat * nat))
  (cands refs matches : nat) :
  Forall (fun x => snd x <= snd (fst x)
                   /\ (Z.of_nat (snd (fst x)) < 2 ^ 26)%Z) triples ->
  aggregate (of_string "B") triples = Ok (cands, refs, matches) ->
  In (cands, refs, matches) triples
  /\ refs <> 0
  /\ (forall c r m, In (c, r, m) triples ->
        r <> 0 /\ (div m r <= div matches refs)%Q)
  /\ (forall fl, rounds_like_double fl ->
        max_by_rounded_key fl triples = Ok (cands, refs, matches)).
Proof.
  intros Hb E.
  destruct (max_by_key_spec _ E) as (Hin & Hr & Hmax).
  split; [exact Hin|]. split; [exact Hr|]. split; [exact Hmax|].
  intros fl Hfl. apply max_by_rounded_key_agrees; [exact Hfl | exact Hb|].
  exact E.
Qed.

Lemma best_scoring_maximal_witness :
  In (2, 1, 1) [(2, 4, 2); (2, 1, 1)]
  /\ 1 <> 0
  /\ (forall c r m, In (c, r, m) [(2, 4, 2); (2, 1, 1)] ->
        r <> 0 /\ (div m r <= div 1 1)%Q)
  /\ (forall fl, rounds_like_double fl ->
        max_by_rounded_key fl [(2, 4, 2); (2, 1, 1)] = Ok (2, 1, 1)).
Proof.
  apply (@best_scoring_maximal [(2, 4, 2); (2, 1, 1)] 2 1 1).
  - repeat constructor; simpl; lia.
  - reflexivity.
Defined.

End BestExtras.

Module ResultExtras.

Import Rouge PyFacts Spec CounterFacts RougeFacts BoundsFacts MatchExtras ScoreExtras
       ScoreDefs.

Lemma of_string_inj (s t : string) : of_string s = of_string t -> s = t.
Proof.
  unfold of_string. intros E.
  rewrite <- (string_of_list_ascii_of_string s),
          <- (string_of_list_ascii_of_string t).
  f_equal. revert E.
  generalize (list_ascii_of_string s), (list_ascii_of_string t).
  induction l as [|a l IH]; intros [|b l']; simpl; intros E;
    try discriminate; [reflexivity|].
  injection E as Eab El. f_equal; [|apply IH; exact El].
  rewrite <- (ascii_N_embedding a), <- (ascii_N_embedding b), Eab.
  reflexivity.
Qed.

(** Distinct sizes have distinct labels. *)
Lemma label_inj (n m : nat) : label n = label m -> n = m.
Proof.
  unfold label. intros E. apply of_string_inj in E.
  simpl in E. injection E as E.
  apply Unsigned.to_uint_inj.
  assert (Hs : Some (Nat.to_uint n) = Some (Nat.to_uint m)).
  { rewrite <- !NilEmpty.usu. rewrite E. reflexivity. }
  injection Hs as Hs. exact Hs.
Qed.

Lemma NoDup_labels (start len : nat) : NoDup (map label (seq start len)).
Proof.
  revert start. induction len as [|len IH]; intros start; simpl;
    constructor; [|apply IH].
  intros Hin. apply in_map_iff in Hin. destruct Hin as [k [Ek Hk]].
  apply label_inj in Ek. apply in_seq in Hk. lia.
Qed.

Lemma mapM_labelled (A : Type) (g : nat -> result A) (l : list nat)
  (res : list (str * A)) :
  mapM (fun n => s <- g n ;; Ok (label n, s)) l = Ok res ->
  map fst res = map label l
  /\ forall n s, In (label n, s) res -> In n l /\ g n = Ok s.
Proof.
  revert res. induction l as [|a l IH]; intros res E; simpl in E.
  - injection E as <-. split; [reflexivity | intros n s []].
  - apply bind_ok in E. destruct E as [[k v] [Hkv E]].
    apply bind_ok in Hkv. destruct Hkv as [s [Hs Hkv]]. injection Hkv as <- <-.
    apply bind_ok in E. destruct E as [res' [Hres E]]. injection E as <-.
    destruct (IH res' Hres) as [Hkeys Hin]. split; [simpl; f_equal; exact Hkeys|].
    intros n s' [Hn|Hn].
    + assert (Hl : label a = label n) by congruence.
      assert (Hv : s = s') by congruence.
      apply label_inj in Hl. subst a s'.
      split; [left; reflexivity | exact Hs].
    + destruct (Hin n s' Hn) as [H1 H2]. split; [right; exact H1 | exact H2].
Qed.

Lemma aggregate_le (scoring : str) (triples : list (nat * nat * nat))
  (cands refs matches : nat) :
  Forall (fun x => snd x <= fst (fst x) /\ snd x <= snd (fst x)) triples ->
  aggregate scoring triples = Ok (cands, refs, matches) ->
  matches <= cands /\ matches <= refs.
Proof.
  intros Hall. unfold aggregate.
  destruct (str_eqb scoring (of_string "A")).
  - intros E. injection E as <- <- <-.
    split.
    + apply (@sum_map_le _ (fun x => snd x) (fun x => fst (fst x)) triples).
      intros x Hx. exact (proj1 (proj1 (Forall_forall _ _) Hall x Hx)).
    + apply (@sum_map_le _ (fun x => snd x) (fun x => snd (fst x)) triples).
      intros x Hx. exact (proj2 (proj1 (Forall_forall _ _) Hall x Hx)).
  - destruct (str_eqb scoring (of_string "B")) eqn:EB.
    + intros E.
      assert (E' : aggregate (of_string "B") triples = Ok (cands, refs, matches))
        by exact E.
      apply max_by_key_spec in E'. destruct E' as [Hin _].
      exact (proj1 (Forall_forall _ _) Hall _ Hin).
    + destruct triples; [|discriminate].
      intros E. injection E as <- <- <-. lia.
Qed.

Lemma per_reference_le (cand_ngrams : list str) (n : nat) (refs : list Document) :
  Forall (fun x => snd x <= fst (fst x) /\ snd x <= snd (fst x))
         (map (per_reference (generate_counter cand_ngrams) n) refs).
Proof.
  apply Forall_forall. intros x Hx. apply in_map_iff in Hx.
  destruct Hx as [d [<- _]]. unfold per_reference. simpl.
  rewrite matches_of_multiset, !generate_counter_total.
  apply multiset_intersection_le.
Qed.

Section Scorer.

Context {T : Type} `{Base.BaseTokenizer T}.

Variable self : Rouge T.

Lemma scores_at_bounds (refs : list Document) (cand : Document) (n : nat)
  (s : Scores) :
  (0 <= alpha self <= 1)%Q ->
  scores_at self refs cand n = Ok s ->
  in_unit_interval s.
Proof.
  intros Ha E. unfold scores_at in E.
  apply bind_ok in E. destruct E as [[[c r] m] [Hc E]].
  apply bind_ok in E. destruct E as [f [Hf E]]. injection E as <-.
  unfold counts_at in Hc.
  apply aggregate_le in Hc; [|apply per_reference_le]. destruct Hc as [Hmc Hmr].
  pose proof (recall_of_bounds Hmr) as Hr.
  pose proof (precision_of_bounds Hmc) as Hp.
  assert (Hfb : (0 <= f <= 1)%Q).
  { eapply fscore_of_bounds; [exact Ha | exact Hp | exact Hr | | exact Hf].
    intros Hm. split; [apply precision_of_pos | apply recall_of_pos]; assumption. }
  unfold in_unit_interval. simpl.
  split; [|split]; apply round5_bounds; assumption.
Qed.

(** X6: Every score [n_score] returns lies between 0 and 1, for a weight
    between 0 and 1. *)
Theorem n_score_in_unit_interval (ref_texts : list str) (cand_text : str)
  (res : list (str * Scores)) :
  (0 <= alpha self <= 1)%Q ->
  n_score self ref_texts cand_text = Ok res ->
  Forall (fun e => in_unit_interval (snd e)) res.
Proof.
  intros Ha E. unfold n_score in E.
  apply bind_ok in E. destruct E as [cand [_ E]].
  apply bind_ok in E. destruct E as [refs [_ E]].
  apply mapM_labelled in E. destruct E as [Hkeys Hin].
  apply Forall_forall. intros [k s] Hks.
  assert (Hk : In k (map label (seq 1 (N self)))).
  { rewrite <- Hkeys. apply in_map_iff. exists (k, s). split; [reflexivity | exact Hks]. }
  apply in_map_iff in Hk. destruct Hk as [n [<- _]].
  destruct (Hin n s Hks) as [_ Hs]. simpl.
  eapply scores_at_bounds; eauto.
Qed.

(** X7: When [n_score] returns, the result has one entry per size, keyed
    "ROUGE-1" to "ROUGE-N" in that order, and no key twice. *)
Theorem n_score_keys (ref_texts : list str) (cand_text : str)
  (res : list (str * Scores)) :
  n_score self ref_texts cand_text = Ok res ->
  map fst res = map label (seq 1 (N self))
  /\ NoDup (map fst res)
  /\ length res = N self.
Proof.
  intros E. unfold n_score in E.
  apply bind_ok in E. destruct E as [cand [_ E]].
  apply bind_ok in E. destruct E as [refs [_ E]].
  apply mapM_labelled in E. destruct E as [Hkeys _].
  split; [exact Hkeys|]. split.
  - rewrite Hkeys. apply NoDup_labels.
  - rewrite <- (length_map fst), Hkeys, length_map, length_seq. reflexivity.
Qed.

End Scorer.

Lemma n_score_in_unit_interval_witness :
  Forall (fun e => in_unit_interval (snd e))
    [(label 1, {| R := 66667 # 100000; P := 66667 # 100000;
                  F := 66667 # 100000 |});
     (label 2, {| R := 1 # 2; P := 1 # 2; F := 1 # 2 |})].
Proof.
  apply (@n_score_in_unit_interval _ _ (Sample.rouge 2 "A")
           [of_string "a b c"] (of_string "a b d")).
  - split; compute; discriminate.
  - reflexivity.
Defined.

Lemma n_score_keys_witness :
  map fst [(label 1, {| R := 66667 # 100000; P := 66667 # 100000;
                        F := 66667 # 100000 |});
           (label 2, {| R := 1 # 2; P := 1 # 2; F := 1 # 2 |})]
  = map label (seq 1 (N (Sample.rouge 2 "A")))
  /\ NoDup (map fst [(label 1, {| R := 66667 # 100000; P := 66667 # 100000;
                                  F := 66667 # 100000 |});
                     (label 2, {| R := 1 # 2; P := 1 # 2; F := 1 # 2 |})])
  /\ length [(label 1, {| R := 66667 # 100000; P := 66667 # 100000;
                          F := 66667 # 100000 |});
             (label 2, {| R := 1 # 2; P := 1 # 2; F := 1 # 2 |})]
     = N (Sample.rouge 2 "A").
Proof.
  apply (@n_score_keys _ _ (Sample.rouge 2 "A")
           [of_string "a b c"] (of_string "a b d")).
  reflexivity.
Defined.

End ResultExtras.

Module PerfectExtras.

Import Rouge PyFacts Spec CounterFacts RougeFacts BoundsFacts MatchExtras
       ScoreExtras ResultExtras.

Lemma round_half_even_comp (x y : Q) :
  (x == y)%Q -> round_half_even x = round_half_even y.
Proof.
  intros E. unfold round_half_even. cbv zeta.
  rewrite (Qfloor_comp x y E).
  assert (Ec : ((x - inject_Z (Qfloor y) ?= 1 # 2) = (y - inject_Z (Qfloor y) ?= 1 # 2))%Q).
  { apply Qcompare_comp; [rewrite E; reflexivity | reflexivity]. }
  rewrite Ec. reflexivity.
Qed.

Lemma round5_comp (x y : Q) : (x == y)%Q -> round5 x = round5 y.
Proof.
  intros E. unfold round5. apply Qred_complete.
  rewrite (@round_half_even_comp (x * 100000)%Q (y * 100000)%Q);
    [reflexivity | rewrite E; reflexivity].
Qed.

Lemma div_same (k : nat) : 0 < k -> (div k k == 1)%Q.
Proof.
  intros Hk. unfold div. apply Qmult_inv_r.
  intros E. unfold Qeq in E. simpl in E. lia.
Qed.

Lemma aggregate_single (scoring : str) (k : nat) :
  0 < k ->
  scoring = of_string "A" \/ scoring = of_string "B" ->
  aggregate scoring [(k, k, k)] = Ok (k, k, k).
Proof.
  intros Hk [-> | ->]; unfold aggregate; simpl.
  - rewrite !Nat.add_0_r. reflexivity.
  - replace (Nat.eqb k 0) with false by (symmetry; apply Nat.eqb_neq; lia).
    reflexivity.
Qed.

Section Scorer.

Context {T : Type} `{Base.BaseTokenizer T}.

Variable self : Rouge T.

Lemma scores_at_identical (doc : Document) (n : nat) :
  scoring self = of_string "A" \/ scoring self = of_string "B" ->
  1 <= n <= length (concat doc) ->
  scores_at self [doc] doc n = Ok {| R := 1; P := 1; F := 1 |}.
Proof.
  intros Hsc Hn. unfold scores_at, counts_at. simpl.
  unfold per_reference.
  rewrite generate_counter_total, matches_of_multiset, multiset_intersection_self.
  set (k := length (_ngram_tokenize doc n)).
  assert (Hk : 0 < k).
  { subst k. unfold _ngram_tokenize. rewrite length_map, length_seq. lia. }
  rewrite (aggregate_single Hk Hsc). simpl.
  assert (Hr : (recall_of k k == 1)%Q).
  { unfold recall_of.
    replace (Nat.eqb k 0) with false by (symmetry; apply Nat.eqb_neq; lia).
    apply div_same, Hk. }
  assert (Hp : (precision_of k k == 1)%Q) by exact Hr.
  unfold fscore_of.
  replace (Nat.eqb k 0) with false by (symmetry; apply Nat.eqb_neq; lia).
  assert (Hd : ((1 - alpha self) * precision_of k k + alpha self * recall_of k k == 1)%Q).
  { rewrite Hp, Hr. ring. }
  destruct (Qeq_bool _ 0) eqn:Ed.
  - apply Qeq_bool_iff in Ed. rewrite Hd in Ed. discriminate.
  - simpl. f_equal.
    assert (Hf : (precision_of k k * recall_of k k
                  / ((1 - alpha self) * precision_of k k + alpha self * recall_of k k)
                  == 1)%Q).
    { rewrite Hd, Hp, Hr. reflexivity. }
    rewrite (round5_comp Hr), (round5_comp Hp), (round5_comp Hf).
    reflexivity.
Qed.

(** X8: A text scored against itself as the only reference gets recall,
    precision and F-score 1 for every n, under "A" and under "B" and for
    every weight between 0 and 1, provided it has at least N tokens.
    (For such a weight the denominator [(1-alpha)*1 + alpha*1] of the
    F-score is 1 in the code's doubles as it is here.) *)
Theorem n_score_identical (text : str) (doc : Document) :
  scoring self = of_string "A" \/ scoring self = of_string "B" ->
  (0 <= alpha self <= 1)%Q ->
  _tokenize self text = Ok doc ->
  N self <= length (concat doc) ->
  n_score self [text] text
  = Ok (map (fun n => (label n, {| R := 1; P := 1; F := 1 |}))
            (seq 1 (N self))).
Proof.
  intros Hsc _ Htok HN. unfold n_score. rewrite Htok. simpl. rewrite Htok. simpl.
  apply mapM_ok_map. intros n Hn. apply in_seq in Hn.
  rewrite scores_at_identical; [reflexivity | exact Hsc | lia].
Qed.

End Scorer.

Lemma n_score_identical_witness :
  n_score (Sample.rouge 2 "B") [of_string "a b"] (of_string "a b")
  = Ok (map (fun n => (label n, {| R := 1; P := 1; F := 1 |}))
            (seq 1 (N (Sample.rouge 2 "B")))).
Proof.
  apply (@n_score_identical _ _ (Sample.rouge 2 "B") (of_string "a b")
           [[of_string "a"; of_string "b"]]).
  - right. reflexivity.
  - split; compute; discriminate.
  - reflexivity.
  - simpl. lia.
Defined.

End PerfectExtras.

(* ================================================================== *)
(** * Further properties: the incremental scorer *)
(* ================================================================== *)

Module IncrementalExtras.

Import Rouge PyFacts Spec CounterFacts RougeFacts BoundsFacts.

Lemma mapM_raise_in (A B : Type) (f : A -> result B) (e : exn) (l : list A) :
  (forall x e', In x l -> f x = Raise e' -> e' = e) ->
  (exists x, In x l /\ f x = Raise e) ->
  mapM f l = Raise e.
Proof.
  induction l as [|a l IH]; intros Hall [x [Hin Hx]]; simpl.
  - destruct Hin.
  - destruct (f a) as [b|e'] eqn:Ea; simpl.
    + destruct Hin as [->|Hin]; [congruence|].
      rewrite IH; [reflexivity | | eauto].
      intros y e' Hy. apply Hall. right. exact Hy.
    + f_equal. apply (Hall a); [left; reflexivity | exact Ea].
Qed.

Lemma mapM_ext_in (A B : Type) (f g : A -> result B) (l : list A) :
  (forall x, In x l -> f x = g x) -> mapM f l = mapM g l.
Proof.
  induction l as [|a l IH]; intros Hfg; simpl; [reflexivity|].
  rewrite (Hfg a) by (left; reflexivity).
  rewrite IH by (intros x Hx; apply Hfg; right; exact Hx). reflexivity.
Qed.

Lemma ngrams_short (doc : Document) (n : nat) :
  length (concat doc) < n -> _ngram_tokenize doc n = [].
Proof.
  intros Hn. unfold _ngram_tokenize.
  replace (S (length (concat doc)) - n) with 0 by lia. reflexivity.
Qed.

Lemma total_short (docs : list Document) (n : nat) :
  Forall (fun d => length (concat d) < n) docs -> total docs n = 0.
Proof.
  unfold total. induction 1 as [|d docs Hd _ IH]; [reflexivity|].
  cbn [map]. rewrite sum_cons, IH, (ngrams_short _ Hd). reflexivity.
Qed.

Section Scorer.

Context {T : Type} `{Base.BaseTokenizer T}.

Variable self : Rouge T.

Lemma n_score_incremental_zero (inc : Incremental) (docs : list Document)
  (new_text : str) (toks : Document) (n0 : nat) :
  incremental self = Some inc ->
  ref_counters inc = tables docs (N self) ->
  refs_count inc = totals docs (N self) ->
  _tokenize self new_text = Ok toks ->
  concat toks <> [] ->
  1 <= n0 <= N self ->
  total docs n0 = 0 ->
  n_score_incremental self new_text = Raise ZeroDivisionError.
Proof.
  intros Hinc Htab Htot Htok Hne Hn0 Hz. unfold n_score_incremental.
  rewrite Htok. simpl. destruct (concat toks) as [|w ws]; [contradiction|].
  rewrite Hinc. simpl.
  rewrite (@mapM_raise_in _ _ _ ZeroDivisionError); [reflexivity | |].
  - intros n e' Hn. apply in_seq in Hn.
    rewrite Htab, Htot. unfold tables, totals.
    rewrite (lookup_seq (fun n => map (fun d => generate_counter (_ngram_tokenize d n)) docs))
      by lia.
    simpl. rewrite (lookup_seq (total docs)) by lia. simpl.
    destruct (Nat.eqb (total docs n) 0); congruence.
  - exists n0. split; [apply in_seq; lia|].
    rewrite Htab, Htot. unfold tables, totals.
    rewrite (lookup_seq (fun n => map (fun d => generate_counter (_ngram_tokenize d n)) docs))
      by lia.
    simpl. rewrite (lookup_seq (total docs)) by lia. simpl.
    rewrite Hz. reflexivity.
Qed.

(** X13: After [reset_incremental], if for some n up to N every reference has
    fewer than n tokens, every increment that brings a token raises
    [ZeroDivisionError]: the stored total for that n is 0 and the
    division has no guard. *)
Theorem incremental_short_references (inc : Incremental) (docs : list Document)
  (new_text : str) (toks : Document) (n0 : nat) :
  incremental self = Some inc ->
  ref_counters inc = tables docs (N self) ->
  refs_count inc = totals docs (N self) ->
  _tokenize self new_text = Ok toks ->
  concat toks <> [] ->
  1 <= n0 <= N self ->
  Forall (fun d => length (concat d) < n0) docs ->
  n_score_incremental self new_text = Raise ZeroDivisionError.
Proof.
  intros Hinc Htab Htot Htok Hne Hn0 Hshort.
  eapply n_score_incremental_zero; eauto. apply total_short, Hshort.
Qed.

(** X12: Before any [reset_incremental] an increment with tokens raises
    [KeyError], an increment without tokens returns [None] under each of
    the N labels and leaves the scorer as it was. *)
Theorem incremental_before_reset (new_text : str) (toks : Document) :
  incremental self = None ->
  _tokenize self new_text = Ok toks ->
  n_score_incremental self new_text
  = match concat toks with
    | [] => Ok (self, map (fun n => (label n, None)) (seq 1 (N self)))
    | _ :: _ => Raise KeyError
    end.
Proof.
  intros Hinc Htok. unfold n_score_incremental. rewrite Htok. simpl.
  destruct (concat toks); [reflexivity|]. rewrite Hinc. reflexivity.
Qed.

End Scorer.

Section Feed.

Context {T : Type} `{Base.BaseTokenizer T}.

Lemma n_score_incremental_state (self self' : Rouge T) (inc : Incremental)
  (text : str) (toks : Document) (out : list (str * option Q)) :
  incremental self = Some inc ->
  _tokenize self text = Ok toks ->
  n_score_incremental self text = Ok (self', out) ->
  tokenizer self' = tokenizer self /\ N self' = N self
  /\ scoring self' = scoring self /\ alpha self' = alpha self
  /\ exists inc', incremental self' = Some inc'
       /\ ref_counters inc' = ref_counters inc
       /\ refs_count inc' = refs_count inc
       /\ prev_tokens inc' = prev_tokens inc ++ concat toks.
Proof.
  intros Hinc Htok E. unfold n_score_incremental in E.
  rewrite Htok in E. simpl in E.
  destruct (concat toks) as [|w ws].
  - injection E as <- <-. repeat split.
    exists inc. rewrite app_nil_r. repeat split. exact Hinc.
  - rewrite Hinc in E. simpl in E.
    apply bind_ok in E. destruct E as [res [_ E]]. injection E as <- <-.
    repeat split. eexists. split; [reflexivity|]. repeat split.
Qed.

(** X14: Across a run of increments the scorer keeps its reference tables and
    totals, and its carry-over buffer is the buffer it started from
    followed by every token fed so far: nothing is ever dropped from
    it. *)
Theorem feed_keeps_every_token (texts : list str) :
  forall (self self' : Rouge T) (inc : Incremental) (docs : list Document)
         (outs : list (list (str * option Q))),
  incremental self = Some inc ->
  mapM (_tokenize self) texts = Ok docs ->
  Session.feed self texts = Ok (self', outs) ->
  length outs = length texts
  /\ exists inc', incremental self' = Some inc'
       /\ ref_counters inc' = ref_counters inc
       /\ refs_count inc' = refs_count inc
       /\ prev_tokens inc'
          = prev_tokens inc ++ concat (map (@concat str) docs).
Proof.
  induction texts as [|text texts IH]; intros self self' inc docs outs Hinc Hdocs E.
  - simpl in E, Hdocs. injection E as <- <-. injection Hdocs as <-.
    split; [reflexivity|]. exists inc. simpl. rewrite app_nil_r. repeat split.
    exact Hinc.
  - simpl in E, Hdocs.
    apply bind_ok in Hdocs. destruct Hdocs as [toks [Htok Hdocs]].
    apply bind_ok in Hdocs. destruct Hdocs as [docs' [Hdocs' Hdocs]].
    injection Hdocs as <-.
    apply bind_ok in E. destruct E as [[self1 out] [Hstep E]].
    apply bind_ok in E. destruct E as [[self2 outs'] [Hrest E]].
    injection E as <- <-.
    destruct (@n_score_incremental_state self self1 inc text toks out Hinc Htok Hstep)
      as (Htk & _ & _ & _ & inc1 & Hinc1 & Htab1 & Htot1 & Hprev1).
    assert (Hdocs1 : mapM (_tokenize self1) texts = Ok docs').
    { rewrite <- Hdocs'. apply mapM_ext_in. intros x _.
      unfold _tokenize. rewrite Htk. reflexivity. }
    destruct (IH self1 self2 inc1 docs' outs' Hinc1 Hdocs1 Hrest)
      as (Hlen & inc2 & Hinc2 & Htab2 & Htot2 & Hprev2).
    split; [simpl; lia|]. exists inc2. split; [exact Hinc2|].
    split; [congruence|]. split; [congruence|].
    rewrite Hprev2, Hprev1. simpl. rewrite app_assoc. reflexivity.
Qed.

End Feed.

Lemma incremental_short_references_witness :
  n_score_incremental
    (with_incremental (Sample.rouge 2 "A")
       {| ref_counters := tables [[[of_string "a"]]] 2;
          refs_count := totals [[[of_string "a"]]] 2;
          prev_tokens := [[]; []] |})
    (of_string "a")
  = Raise ZeroDivisionError.
Proof.
  apply (@incremental_short_references _ _
           (with_incremental (Sample.rouge 2 "A")
              {| ref_counters := tables [[[of_string "a"]]] 2;
                 refs_count := totals [[[of_string "a"]]] 2;
                 prev_tokens := [[]; []] |})
           {| ref_counters := tables [[[of_string "a"]]] 2;
              refs_count := totals [[[of_string "a"]]] 2;
              prev_tokens := [[]; []] |}
           [[[of_string "a"]]] (of_string "a") [[of_string "a"]] 2).
  - reflexivity.
  - reflexivity.
  - reflexivity.
  - reflexivity.
  - discriminate.
  - simpl. lia.
  - repeat constructor.
Defined.

Lemma incremental_before_reset_witness :
  n_score_incremental (Sample.rouge 1 "A") (of_string "a")
  = match concat [[of_string "a"]] with
    | [] => Ok (Sample.rouge 1 "A",
                map (fun n => (label n, None)) (seq 1 (N (Sample.rouge 1 "A"))))
    | _ :: _ => Raise KeyError
    end.
Proof.
  apply (@incremental_before_reset _ _ (Sample.rouge 1 "A") (of_string "a")
           [[of_string "a"]]).
  - reflexivity.
  - reflexivity.
Defined.

Lemma feed_keeps_every_token_witness :
  length [[(label 1, Some (div 0 2))]; [(label 1, Some (div 0 2))]]
  = length [of_string "a b"; of_string "c"]
  /\ exists inc',
       incremental
         (with_incremental (Sample.rouge 1 "A")
            {| ref_counters := ref_counters Sample.inc_a_a;
               refs_count := refs_count Sample.inc_a_a;
               prev_tokens :=
                 [[]; of_string "a"; of_string "b"; of_string "c"] |})
       = Some inc'
       /\ ref_counters inc' = ref_counters Sample.inc_a_a
       /\ refs_count inc' = refs_count Sample.inc_a_a
       /\ prev_tokens inc'
          = prev_tokens Sample.inc_a_a
            ++ concat (map (@concat str)
                         [[[of_string "a"; of_string "b"]];
                          [[of_string "c"]]]).
Proof.
  apply (@feed_keeps_every_token _ _ [of_string "a b"; of_string "c"]
           (with_incremental (Sample.rouge 1 "A") Sample.inc_a_a)
           (with_incremental (Sample.rouge 1 "A")
              {| ref_counters := ref_counters Sample.inc_a_a;
                 refs_count := refs_count Sample.inc_a_a;
                 prev_tokens :=
                   [[]; of_string "a"; of_string "b"; of_string "c"] |})
           Sample.inc_a_a
           [[[of_string "a"; of_string "b"]]; [[of_string "c"]]]
           [[(label 1, Some (div 0 2))]; [(label 1, Some (div 0 2))]]).
  - reflexivity.
  - reflexivity.
  - reflexivity.
Defined.

End IncrementalExtras.

(* ================================================================== *)
(** * Further properties: truncation and sentence splitting *)
(* ================================================================== *)

Module TruncateExtras.

Import Tokenize PyFacts Spec TokenizeFacts TruncateFacts.

Lemma firstn_app_le (A : Type) (k : nat) (l l' : list A) :
  k <= length l -> firstn k (l ++ l') = firstn k l.
Proof.
  intros Hk. rewrite firstn_app. replace (k - length l) with 0 by lia.
  simpl. apply app_nil_r.
Qed.

Lemma firstn_app_ge (A : Type) (k : nat) (l l' : list A) :
  length l <= k -> firstn k (l ++ l') = l ++ firstn (k - length l) l'.
Proof.
  intros Hk. rewrite firstn_app, firstn_all2 by exact Hk. reflexivity.
Qed.

Section Tokenizer.

Variable t : Rouge155Tokenizer.

Lemma truncate_words_from_prefix (doc : Document) :
  forall word_len,
    (0 <= word_len <= word_limit t)%Z ->
    concat (truncate_words_from t word_len doc)
    = firstn (Z.to_nat (word_limit t - word_len)) (concat doc).
Proof.
  induction doc as [|s doc IH]; intros word_len Hw; simpl.
  - rewrite firstn_nil. reflexivity.
  - destruct (_ >? _)%Z eqn:E; rewrite Z.gtb_ltb in E.
    + apply Z.ltb_lt in E. simpl. rewrite app_nil_r.
      rewrite take_nonneg by lia. rewrite firstn_app_le by lia. reflexivity.
    + apply Z.ltb_ge in E. destruct (_ =? _)%Z eqn:E'.
      * apply Z.eqb_eq in E'. simpl. rewrite app_nil_r.
        rewrite firstn_app_le by lia. rewrite firstn_all2 by lia. reflexivity.
      * apply Z.eqb_neq in E'. simpl. rewrite IH by lia.
        rewrite firstn_app_ge by lia. do 2 f_equal. lia.
Qed.

(** X17: [_truncate_words] keeps the first [word_limit] tokens of the text,
    sentence boundaries aside, and all of them when the text has fewer:
    the number of tokens left is the smaller of the limit and the number
    of tokens. *)
Theorem truncate_words_keeps_first (doc : Document) :
  (0 <= word_limit t)%Z ->
  concat (_truncate_words t doc)
  = firstn (Z.to_nat (word_limit t)) (concat doc)
  /\ length (concat (_truncate_words t doc))
     = Nat.min (Z.to_nat (word_limit t)) (length (concat doc)).
Proof.
  intros Hw. unfold _truncate_words.
  rewrite truncate_words_from_prefix by lia. rewrite Z.sub_0_r.
  split; [reflexivity | apply length_firstn].
Qed.

Lemma truncate_bytes_words_prefix (sentence : list str) :
  Forall is_ascii sentence ->
  forall byte_len,
    (byte_len < byte_limit t)%Z ->
    (byte_limit t <= byte_len + Z.of_nat (length (concat sentence)))%Z ->
    exists ws,
      truncate_bytes_words t byte_len sentence = Ok (ws, byte_limit t, true)
      /\ concat ws
         = firstn (Z.to_nat (byte_limit t - byte_len)) (concat sentence).
Proof.
  induction 1 as [|word rest Hw Hrest IH]; intros byte_len Hlt Hge; simpl.
  - simpl in Hge. lia.
  - rewrite (utf8_encode_ascii Hw). simpl.
    simpl in Hge. rewrite length_app in Hge.
    destruct (_ >=? _)%Z eqn:E; rewrite Z.geb_leb in E.
    + apply Z.leb_le in E.
      rewrite utf8_decode_ascii by (apply Forall_take; exact Hw). simpl.
      eexists. split; [reflexivity|].
      simpl. rewrite app_nil_r, take_nonneg by lia.
      rewrite firstn_app_le by lia. reflexivity.
    + apply Z.leb_gt in E.
      destruct (IH (byte_len + Z.of_nat (length word))%Z)
        as (ws & -> & Hws); [exact E | lia |].
      simpl. eexists. split; [reflexivity|].
      simpl. rewrite Hws, firstn_app_ge by lia. do 2 f_equal. lia.
Qed.

Lemma truncate_bytes_from_prefix (doc : Document) :
  Forall (Forall is_ascii) doc ->
  forall byte_len,
    (byte_len < byte_limit t)%Z ->
    exists out,
      truncate_bytes_from t byte_len doc = Ok out
      /\ concat (concat out)
         = firstn (Z.to_nat (byte_limit t - byte_len)) (concat (concat doc)).
Proof.
  induction 1 as [|s doc Hs Hdoc IH]; intros byte_len Hlt; simpl.
  - eexists. split; [reflexivity|]. rewrite firstn_nil. reflexivity.
  - rewrite (byte_length_ascii (is_ascii_concat Hs)). simpl.
    rewrite concat_app.
    destruct (_ >? _)%Z eqn:E; rewrite Z.gtb_ltb in E.
    + apply Z.ltb_lt in E.
      destruct (truncate_bytes_words_prefix Hs Hlt) as (ws & -> & Hws); [lia|].
      simpl. rewrite Z.eqb_refl.
      eexists. split; [reflexivity|].
      simpl. rewrite !app_nil_r, Hws, firstn_app_le by lia. reflexivity.
    + apply Z.ltb_ge in E.
      destruct (_ =? _)%Z eqn:Heq.
      * apply Z.eqb_eq in Heq.
        eexists. split; [reflexivity|].
        simpl. rewrite !app_nil_r, firstn_app_le by lia.
        rewrite firstn_all2 by lia. reflexivity.
      * apply Z.eqb_neq in Heq.
        destruct (IH (byte_len + Z.of_nat (length (concat s)))%Z)
          as (tl & -> & Htl); [lia|].
        simpl. eexists. split; [reflexivity|].
        simpl. rewrite concat_app, Htl, firstn_app_ge by lia.
        do 2 f_equal. lia.
Qed.

(** X18: On ASCII tokens [_truncate_bytes] keeps the first [byte_limit]
    characters of the text, token and sentence boundaries aside, and the
    whole text when it is shorter. *)
Theorem truncate_bytes_keeps_first (doc : Document) :
  (0 < byte_limit t)%Z ->
  Forall (Forall is_ascii) doc ->
  exists out,
    _truncate_bytes t doc = Ok out
    /\ concat (concat out)
       = firstn (Z.to_nat (byte_limit t)) (concat (concat doc)).
Proof.
  intros Hb Hdoc. unfold _truncate_bytes.
  destruct (truncate_bytes_from_prefix Hdoc Hb) as (out & Hout & Hpre).
  exists out. split; [exact Hout|]. rewrite Hpre, Z.sub_0_r. reflexivity.
Qed.

End Tokenizer.

Lemma split_on_join (sep : N) (s : str) :
  join [sep] (split_on sep s) = s
  /\ Forall (fun x => ~ In sep x) (split_on sep s)
  /\ split_on sep s <> [].
Proof.
  induction s as [|c s (IHj & IHf & IHn)]; simpl.
  - repeat split; [repeat constructor; intros [] | discriminate].
  - destruct (N.eqb c sep) eqn:E.
    + apply N.eqb_eq in E. subst c. split; [|split; [|discriminate]].
      * destruct (split_on sep s) as [|w ws] eqn:Es; [contradiction|].
        simpl in *. rewrite IHj. reflexivity.
      * constructor; [intros [] | exact IHf].
    + apply N.eqb_neq in E.
      destruct (split_on sep s) as [|w ws] eqn:Es; [contradiction|].
      split; [|split; [|discriminate]].
      * destruct ws as [|w' ws]; simpl in *; rewrite <- IHj; reflexivity.
      * inversion IHf as [|? ? Hw Hws]; subst. constructor; [|exact Hws].
        intros [H|H]; [congruence | exact (Hw H)].
Qed.

(** X21: Splitting a text into sentences under "SPL" loses nothing: joining
    the sentences with a newline gives the text back, no sentence holds a
    newline, and there is always at least one sentence. *)
Theorem spl_split_join (porter_stem : str -> str) (exceptions : list (str * str))
  (stopwords : list str) (see_findall : str -> list (str * str * str * str))
  (b l : Z) (m s : bool) (t : Rouge155Tokenizer) (text : str) :
  Tokenize.new porter_stem exceptions stopwords see_findall b l m s
    (Some (of_string "SPL")) = Ok t ->
  join [newline] (split_sentences t text) = text
  /\ Forall (fun x => ~ In newline x) (split_sentences t text)
  /\ split_sentences t text <> [].
Proof.
  intros E. unfold Tokenize.new in E. simpl in E. injection E as <-. simpl.
  apply split_on_join.
Qed.

Lemma truncate_words_keeps_first_witness :
  concat (_truncate_words (Sample.spl 0 3 false false)
            [[of_string "a"; of_string "b"]; [of_string "c"; of_string "d"]])
  = firstn (Z.to_nat (word_limit (Sample.spl 0 3 false false)))
      (concat [[of_string "a"; of_string "b"];
               [of_string "c"; of_string "d"]])
  /\ length (concat (_truncate_words (Sample.spl 0 3 false false)
                       [[of_string "a"; of_string "b"];
                        [of_string "c"; of_string "d"]]))
     = Nat.min (Z.to_nat (word_limit (Sample.spl 0 3 false false)))
         (length (concat [[of_string "a"; of_string "b"];
                          [of_string "c"; of_string "d"]])).
Proof.
  apply (@truncate_words_keeps_first (Sample.spl 0 3 false false)
           [[of_string "a"; of_string "b"]; [of_string "c"; of_string "d"]]).
  simpl. lia.
Defined.

Lemma truncate_bytes_keeps_first_witness :
  exists out,
    _truncate_bytes (Sample.spl 3 0 false false)
      [[of_string "ab"; of_string "cd"]] = Ok out
    /\ concat (concat out)
       = firstn (Z.to_nat (byte_limit (Sample.spl 3 0 false false)))
           (concat (concat [[of_string "ab"; of_string "cd"]])).
Proof.
  apply (@truncate_bytes_keeps_first (Sample.spl 3 0 false false)
           [[of_string "ab"; of_string "cd"]]).
  - simpl. lia.
  - repeat constructor.
Defined.

Lemma spl_split_join_witness :
  join [newline]
    (split_sentences (Sample.spl 0 0 false false)
       (of_string "a" ++ [newline] ++ of_string "b"))
  = of_string "a" ++ [newline] ++ of_string "b"
  /\ Forall (fun x => ~ In newline x)
       (split_sentences (Sample.spl 0 0 false false)
          (of_string "a" ++ [newline] ++ of_string "b"))
  /\ split_sentences (Sample.spl 0 0 false false)
       (of_string "a" ++ [newline] ++ of_string "b") <> [].
Proof.
  apply (@spl_split_join Sample.porter_stem Sample.exceptions
           Sample.stopwords Sample.see_findall 0%Z 0%Z false false
           (Sample.spl 0 0 false false)
           (of_string "a" ++ [newline] ++ of_string "b")).
  reflexivity.
Defined.

End TruncateExtras.

Module LimitExtras.

Import Tokenize PyFacts Spec TokenizeFacts TruncateFacts TruncateExtras.

Lemma length_concat_firstn (A : Type) (k : nat) (l : list (list A)) :
  length (concat (firstn k l)) <= length (concat l).
Proof.
  revert k. induction l as [|x l IH]; intros [|k]; simpl; try lia.
  rewrite !length_app. specialize (IH k). lia.
Qed.

Lemma length_concat_take (A : Type) (k : Z) (l : list (list A)) :
  length (concat (take k l)) <= length (concat l).
Proof. unfold take. destruct (0 <=? k)%Z; apply length_concat_firstn. Qed.

Section Tokenizer.

Variable t : Rouge155Tokenizer.

Lemma truncate_words_from_chars (doc : Document) :
  forall word_len,
    doc_length (truncate_words_from t word_len doc) <= doc_length doc.
Proof.
  induction doc as [|s doc IH]; intros word_len; simpl; [lia|].
  destruct (_ >? _)%Z.
  - rewrite doc_length_single, doc_length_cons.
    eapply Nat.le_trans; [apply length_concat_take | apply Nat.le_add_r].
  - destruct (_ =? _)%Z.
    + rewrite doc_length_single, doc_length_cons. lia.
    + rewrite !doc_length_cons. specialize (IH (word_len + Z.of_nat (length s))%Z).
      lia.
Qed.

(** X19: With a word limit L > 0, a Document [tokenize_text] returns holds at
    most L tokens, whatever the byte limit and the sentence splitter. *)
Theorem tokenize_text_word_limit (text : str) (doc : Document) :
  (0 < word_limit t)%Z ->
  tokenize_text t text = Ok doc ->
  length (concat doc) <= Z.to_nat (word_limit t).
Proof.
  intros Hl E. unfold tokenize_text in E.
  apply bind_ok in E. destruct E as (d & _ & E).
  replace (word_limit t =? 0)%Z with false in E
    by (symmetry; apply Z.eqb_neq; lia).
  injection E as <-. unfold _truncate_words.
  rewrite truncate_words_from_prefix by lia.
  rewrite length_firstn, Z.sub_0_r. lia.
Qed.

End Tokenizer.

Lemma tokenize_text_word_limit_witness :
  length (concat [[of_string "a"; of_string "b"]; [of_string "c"]])
  <= Z.to_nat (word_limit (Sample.spl 0 3 false false)).
Proof.
  apply (@tokenize_text_word_limit (Sample.spl 0 3 false false)
           (of_string "a b" ++ [newline] ++ of_string "c d")).
  - simpl. lia.
  - reflexivity.
Defined.

Section Constructed.

Variable porter_stem : str -> str.
Variable exceptions : list (str * str).
Variable stopwords : list str.
Variable see_findall : str -> list (str * str * str * str).

Hypothesis porter_ascii : forall w, is_ascii w -> is_ascii (porter_stem w).
Hypothesis exceptions_ascii : Forall (fun e => is_ascii (snd e)) exceptions.

(** X20: With a byte limit B > 0 and a stemmer that keeps ASCII words ASCII,
    [tokenize_text] returns a Document whose tokens have at most B UTF-8
    bytes in total, whatever the word limit (a negative one included). *)
Theorem tokenize_text_byte_limit (b l : Z) (m s : bool) (split : option str)
  (t : Rouge155Tokenizer) (text : str) :
  (0 < b)%Z ->
  Tokenize.new porter_stem exceptions stopwords see_findall b l m s split = Ok t ->
  exists doc k,
    tokenize_text t text = Ok doc
    /\ byte_length (concat (concat doc)) = Ok k
    /\ k <= Z.to_nat b.
Proof.
  intros Hb Hnew.
  assert (Hcfg : ascii_safe t /\ byte_limit t = b /\ word_limit t = l)
    by (eapply new_ascii_safe; [..|exact Hnew]; assumption).
  destruct Hcfg as (Hsafe & Hbl & Hwl).
  pose proof (untruncated_ascii text Hsafe) as Hascii.
  destruct (@truncate_bytes_from_prefix t _ Hascii 0%Z)
    as (out & Hout & Hpre); [lia|].
  destruct (@truncate_bytes_from_ascii t _ Hascii 0%Z) as (out' & Hout' & Hoa).
  rewrite Hout in Hout'. injection Hout' as <-.
  assert (Hlen : doc_length out <= Z.to_nat b).
  { unfold doc_length. rewrite Hpre, length_firstn, Z.sub_0_r, Hbl. lia. }
  unfold tokenize_text, _truncate_bytes.
  replace (byte_limit t =? 0)%Z with false by (symmetry; apply Z.eqb_neq; lia).
  rewrite Hout. simpl.
  destruct (word_limit t =? 0)%Z.
  - exists out, (doc_length out). split; [reflexivity|]. split; [|exact Hlen].
    apply byte_length_ascii, is_ascii_concat, Forall_concat. exact Hoa.
  - exists (_truncate_words t out), (doc_length (_truncate_words t out)).
    split; [reflexivity|]. split.
    + apply byte_length_ascii, is_ascii_concat, Forall_concat.
      apply truncate_words_from_Forall. exact Hoa.
    + pose proof (truncate_words_from_chars t out 0). unfold _truncate_words. lia.
Qed.

End Constructed.

Lemma tokenize_text_byte_limit_witness :
  exists doc k,
    tokenize_text (Sample.spl 3 1 true true) (of_string "aa bb") = Ok doc
    /\ byte_length (concat (concat doc)) = Ok k
    /\ k <= Z.to_nat 3.
Proof.
  apply (@tokenize_text_byte_limit Sample.porter_stem Sample.exceptions
           Sample.stopwords Sample.see_findall
           TokenizerClaims.sample_porter_ascii
           TokenizerClaims.sample_exceptions_ascii
           3%Z 1%Z true true (Some (of_string "SPL"))
           (Sample.spl 3 1 true true) (of_string "aa bb")).
  - lia.
  - reflexivity.
Defined.

End LimitExtras.

(* ================================================================== *)
(** * Further properties: words *)
(* ================================================================== *)

Module WordExtras.

Import Tokenize PyFacts Spec TokenizeFacts TruncateFacts CharsetDefs.

Lemma split_ws_from_space (c : N) (cur s : str) :
  is_space c = true ->
  split_ws_from cur (c :: s)
  = match cur with
    | [] => split_ws_from [] s
    | _ :: _ => rev cur :: split_ws_from [] s
    end.
Proof. intros E. simpl. rewrite E. destruct cur; reflexivity. Qed.

Lemma split_ws_from_char (c : N) (cur s : str) :
  is_space c = false ->
  split_ws_from cur (c :: s) = split_ws_from (c :: cur) s.
Proof. intros E. simpl. rewrite E. reflexivity. Qed.

Lemma split_ws_lstrip (s : str) :
  split_ws_from [] (lstrip s) = split_ws_from [] s.
Proof.
  induction s as [|c s IH]; [reflexivity|]. simpl.
  destruct (is_space c) eqn:E; [exact IH|]. simpl. rewrite E. reflexivity.
Qed.

Lemma lstrip_decomp (s : str) :
  exists sp, Forall (fun c => is_space c = true) sp /\ s = sp ++ lstrip s.
Proof.
  induction s as [|c s (sp & Hsp & IH)].
  - exists []. split; [constructor | reflexivity].
  - simpl. destruct (is_space c) eqn:E.
    + exists (c :: sp). split; [constructor; assumption|].
      simpl. f_equal. exact IH.
    + exists []. split; [constructor | reflexivity].
Qed.

Lemma split_ws_from_trailing (sp : str) :
  Forall (fun c => is_space c = true) sp ->
  forall a cur, split_ws_from cur (a ++ sp) = split_ws_from cur a.
Proof.
  intros Hsp.
  assert (Hbase : forall cur, split_ws_from cur sp = split_ws_from cur []).
  { induction Hsp as [|c sp Hc _ IH]; intros cur; [reflexivity|].
    rewrite (@split_ws_from_space _ _ _ Hc).
    destruct cur; rewrite IH; reflexivity. }
  induction a as [|c a IH]; intros cur; [apply Hbase|].
  simpl. destruct (is_space c); [destruct cur|]; rewrite IH; reflexivity.
Qed.

Lemma split_ws_rstrip (s : str) : forall cur,
  split_ws_from cur (rstrip s) = split_ws_from cur s.
Proof.
  intros cur. unfold rstrip.
  destruct (lstrip_decomp (rev s)) as (sp & Hsp & E).
  assert (Es : s = rev (lstrip (rev s)) ++ rev sp).
  { rewrite <- rev_app_distr, <- E, rev_involutive. reflexivity. }
  rewrite Es at 2. symmetry. apply split_ws_from_trailing.
  apply Forall_rev. exact Hsp.
Qed.

Lemma split_ws_collapse (s : str) :
  (forall cur, split_ws_from cur (collapse_from false s) = split_ws_from cur s)
  /\ split_ws_from [] (collapse_from true s) = split_ws_from [] s.
Proof.
  assert (Hsp : is_space space = true) by reflexivity.
  induction s as [|c s [IH1 IH2]]; [split; reflexivity|].
  simpl. destruct (is_space c) eqn:E.
  - split.
    + intros cur. rewrite (@split_ws_from_space _ _ _ Hsp). rewrite IH2.
      destruct cur; reflexivity.
    + exact IH2.
  - split; [intros cur|]; rewrite (@split_ws_from_char _ _ _ E); apply IH1.
Qed.

(** The words of a sentence do not depend on the stripping and the
    collapsing of whitespace that [_preprocess_text] performs. *)
Lemma words_of_preprocess_text (text : str) :
  split_ws (_preprocess_text text)
  = split_ws (blank_other (isolate_hyphens text)).
Proof.
  unfold split_ws, _preprocess_text, collapse.
  rewrite (proj1 (split_ws_collapse _)), split_ws_rstrip, split_ws_lstrip.
  reflexivity.
Qed.

Lemma word_char_cases (c : N) :
  is_word_char c = true -> c = hyphen \/ alnum c.
Proof.
  unfold is_word_char, alnum. intros H.
  apply orb_true_iff in H. destruct H as [H|H]; [right; exact H | left].
  apply N.eqb_eq. exact H.
Qed.

Lemma word_char_not_space (c : N) : is_word_char c = true -> is_space c = false.
Proof.
  intros H. destruct (is_space c) eqn:E; [|reflexivity]. exfalso.
  unfold is_word_char, is_upper, is_lower, is_digit, hyphen, in_range in H.
  unfold is_space, in_range in E.
  bool_to_prop; lia.
Qed.

Lemma alnum_word_char (c : N) : alnum c -> is_word_char c = true.
Proof. unfold alnum, is_word_char. intros ->. reflexivity. Qed.

(** A word of a preprocessed sentence is the hyphen alone or is made of
    letters and digits: a hyphen never stays inside a word. *)
Lemma words_clean_from (text : str) :
  forall cur, Forall alnum cur ->
  Forall (fun w => w = [hyphen] \/ (w <> [] /\ Forall alnum w))
         (split_ws_from cur (blank_other (isolate_hyphens text))).
Proof.
  assert (Hflush : forall cur rest,
             Forall alnum cur ->
             Forall (fun w => w = [hyphen] \/ (w <> [] /\ Forall alnum w)) rest ->
             Forall (fun w => w = [hyphen] \/ (w <> [] /\ Forall alnum w))
                    match cur with [] => rest | _ :: _ => rev cur :: rest end).
  { intros [|c cur] rest Hcur Hrest; [exact Hrest|].
    constructor; [|exact Hrest]. right. split; [|apply Forall_rev; exact Hcur].
    simpl. intros E. apply app_eq_nil in E. destruct E; discriminate. }
  induction text as [|c text IH]; intros cur Hcur.
  - simpl. destruct cur as [|c cur]; [constructor|].
    apply (Hflush (c :: cur) []); [exact Hcur | constructor].
  - unfold isolate_hyphens. cbn [flat_map]. fold (isolate_hyphens text).
    unfold blank_other. rewrite map_app. fold (blank_other (isolate_hyphens text)).
    destruct (N.eqb c hyphen) eqn:Eh.
    + change (map (fun c0 => if is_word_char c0 then c0 else space)
                  [space; hyphen; space])
        with [space; hyphen; space].
      cbn [app].
      rewrite (@split_ws_from_space space cur _ eq_refl).
      apply Hflush; [exact Hcur|].
      rewrite (@split_ws_from_char hyphen [] _ eq_refl).
      rewrite (@split_ws_from_space space [hyphen] _ eq_refl).
      constructor; [left; reflexivity|]. apply IH. constructor.
    + cbn [map app]. destruct (is_word_char c) eqn:Ew.
      * rewrite (@split_ws_from_char _ _ _ (@word_char_not_space _ Ew)).
        apply IH. constructor; [|exact Hcur].
        destruct (@word_char_cases _ Ew) as [->|Ha]; [|exact Ha].
        rewrite N.eqb_refl in Eh. discriminate.
      * rewrite (@split_ws_from_space space cur _ eq_refl).
        apply Hflush; [exact Hcur|]. apply IH. constructor.
Qed.

Lemma words_clean (text : str) :
  Forall (fun w => w = [hyphen] \/ (w <> [] /\ Forall alnum w))
         (split_ws (_preprocess_text text)).
Proof.
  rewrite words_of_preprocess_text. apply words_clean_from. constructor.
Qed.

Lemma lower_alnum_char (c : N) : alnum c -> lower_alnum (lower_char c).
Proof.
  unfold alnum, lower_alnum, lower_char, is_upper, is_lower, is_digit, in_range.
  intros H. destruct ((65 <=? c)%N && (c <=? 90)%N) eqn:E.
  - clear H. bool_to_prop. apply orb_true_iff. left. apply andb_true_iff.
    split; apply N.leb_le; lia.
  - simpl in H. exact H.
Qed.

Lemma lower_alnum_ascii (c : N) : lower_alnum c -> (c < 0x80)%N.
Proof.
  unfold lower_alnum, is_lower, is_digit, in_range. intros H.
  bool_to_prop; lia.
Qed.

Section Unstemmed.

Variable t : Rouge155Tokenizer.
Variable stopwords : list str.
Variable sw_removal : bool.

Hypothesis no_stem : stem t = None.
Hypothesis remover : remove_stopwords t = _get_stopword_remover stopwords sw_removal.

Lemma preprocess_word_unstemmed (w w' : str) :
  _preprocess_word t w = Some w' ->
  truthy (Some w') = true ->
  w' = lower w /\ starts_ok (lower w) = true
  /\ (sw_removal = true -> existsb (str_eqb (lower w)) stopwords = false).
Proof.
  unfold _preprocess_word. rewrite no_stem, remover.
  unfold _get_stopword_remover.
  destruct sw_removal; simpl.
  - destruct (existsb (str_eqb (lower w)) stopwords) eqn:Esw; [discriminate|].
    destruct (lower w) as [|c r] eqn:El.
    + intros E. injection E as <-. discriminate.
    + destruct (starts_ok (c :: r)) eqn:Es; [|discriminate].
      intros E _. injection E as <-. repeat split; auto.
  - destruct (lower w) as [|c r] eqn:El.
    + intros E. injection E as <-. discriminate.
    + destruct (starts_ok (c :: r)) eqn:Es; [|discriminate].
      intros E _. injection E as <-. repeat split; auto. discriminate.
Qed.

Lemma tokenize_sentence_unstemmed (sentence : str) :
  Forall (fun w => Forall lower_alnum w
                   /\ (sw_removal = true -> ~ In w stopwords))
         (tokenize_sentence t sentence).
Proof.
  unfold tokenize_sentence. apply Forall_flat_map.
  eapply Forall_impl; [|apply words_clean]. intros w Hw. simpl.
  destruct (_preprocess_word t w) as [w'|] eqn:E; [|constructor].
  destruct (truthy (Some w')) eqn:Et; [|constructor].
  destruct (@preprocess_word_unstemmed w w' E Et) as (-> & Hs & Hsw).
  constructor; [|constructor]. split.
  - destruct Hw as [->|[_ Hw]]; [discriminate|].
    unfold lower. apply Forall_forall. intros c Hc.
    apply in_map_iff in Hc. destruct Hc as [d [<- Hd]].
    apply lower_alnum_char. exact (proj1 (Forall_forall _ _) Hw d Hd).
  - intros Hon Hin. specialize (Hsw Hon).
    assert (Hex : existsb (str_eqb (lower w)) stopwords = true).
    { apply existsb_exists. exists (lower w). split; [exact Hin | apply str_eqb_refl]. }
    congruence.
Qed.

Lemma truncate_bytes_words_chars (Q : N -> Prop) (sentence : list str) :
  (forall c, Q c -> (c < 0x80)%N) ->
  Forall (Forall Q) sentence ->
  forall byte_len, exists ws bl broke,
    truncate_bytes_words t byte_len sentence = Ok (ws, bl, broke)
    /\ Forall (Forall Q) ws.
Proof.
  intros HQ. induction 1 as [|word rest Hw Hrest IH]; intros byte_len; simpl.
  - do 3 eexists. split; [reflexivity | constructor].
  - assert (Ha : is_ascii word) by (eapply Forall_impl; [exact HQ | exact Hw]).
    rewrite (utf8_encode_ascii Ha). simpl.
    destruct (_ >=? _)%Z.
    + rewrite utf8_decode_ascii by (apply Forall_take; exact Ha). simpl.
      do 3 eexists. split; [reflexivity|].
      constructor; [apply Forall_take; exact Hw | constructor].
    + destruct (IH (byte_len + Z.of_nat (length word))%Z)
        as (ws & bl & broke & -> & Hws).
      simpl. do 3 eexists. split; [reflexivity|]. constructor; assumption.
Qed.

Lemma truncate_bytes_from_chars (Q : N -> Prop) (doc : Document) :
  (forall c, Q c -> (c < 0x80)%N) ->
  Forall (Forall (Forall Q)) doc ->
  forall byte_len, exists out,
    truncate_bytes_from t byte_len doc = Ok out
    /\ Forall (Forall (Forall Q)) out.
Proof.
  intros HQ. induction 1 as [|s doc Hs Hdoc IH]; intros byte_len; simpl.
  - eexists. split; [reflexivity | constructor].
  - assert (Ha : Forall is_ascii s).
    { eapply Forall_impl; [|exact Hs]. intros w Hw.
      eapply Forall_impl; [exact HQ | exact Hw]. }
    rewrite (byte_length_ascii (is_ascii_concat Ha)). simpl.
    destruct (_ >? _)%Z.
    + destruct (@truncate_bytes_words_chars Q s HQ Hs byte_len)
        as (ws & bl & broke & -> & Hws).
      simpl.
      assert (Happ : Forall (Forall (Forall Q)) (if broke then [ws] else [])).
      { destruct broke; repeat constructor; exact Hws. }
      destruct (bl =? byte_limit t)%Z.
      * eexists. split; [reflexivity | exact Happ].
      * destruct (IH bl) as (tl & -> & Htl). simpl.
        eexists. split; [reflexivity|]. apply Forall_app. split; assumption.
    + destruct (_ =? _)%Z.
      * eexists. split; [reflexivity|]. repeat constructor; exact Hs.
      * destruct (IH (byte_len + Z.of_nat (length (concat s)))%Z)
          as (tl & -> & Htl).
        simpl. eexists. split; [reflexivity|]. constructor; assumption.
Qed.

Lemma tokenize_text_unstemmed (text : str) :
  exists doc,
    tokenize_text t text = Ok doc
    /\ Forall (Forall (Forall lower_alnum)) doc.
Proof.
  assert (Hun : Forall (Forall (Forall lower_alnum)) (untruncated t text)).
  { unfold untruncated. apply Forall_forall. intros snt Hs.
    apply in_map_iff in Hs. destruct Hs as [x [<- _]].
    eapply Forall_impl; [|apply tokenize_sentence_unstemmed].
    intros w [Hw _]. exact Hw. }
  unfold tokenize_text.
  assert (Hb : exists d,
             (if (byte_limit t =? 0)%Z then Ok (untruncated t text)
              else _truncate_bytes t (untruncated t text)) = Ok d
             /\ Forall (Forall (Forall lower_alnum)) d).
  { destruct (byte_limit t =? 0)%Z; [eauto|].
    apply truncate_bytes_from_chars; [apply lower_alnum_ascii | exact Hun]. }
  destruct Hb as (d & -> & Hd). simpl. eexists. split; [reflexivity|].
  destruct (word_limit t =? 0)%Z; [exact Hd|].
  apply truncate_words_from_Forall. exact Hd.
Qed.

Lemma tokenize_text_no_stopword (text : str) (doc : Document) :
  sw_removal = true ->
  byte_limit t = 0%Z ->
  tokenize_text t text = Ok doc ->
  Forall (Forall (fun w => ~ In w stopwords)) doc.
Proof.
  intros Hon Hb E. unfold tokenize_text in E. rewrite Hb in E. simpl in E.
  injection E as <-.
  assert (Hun : Forall (Forall (fun w => ~ In w stopwords)) (untruncated t text)).
  { unfold untruncated. apply Forall_forall. intros snt Hs.
    apply in_map_iff in Hs. destruct Hs as [x [<- _]].
    eapply Forall_impl; [|apply tokenize_sentence_unstemmed].
    intros w [_ Hw]. exact (Hw Hon). }
  destruct (word_limit t =? 0)%Z; [exact Hun|].
  apply truncate_words_from_Forall. exact Hun.
Qed.

End Unstemmed.

Section Constructed.

Variable porter_stem : str -> str.
Variable exceptions : list (str * str).
Variable stopwords : list str.
Variable see_findall : str -> list (str * str * str * str).

Lemma new_unstemmed (b l : Z) (s : bool) (split : option str)
  (t : Rouge155Tokenizer) :
  Tokenize.new porter_stem exceptions stopwords see_findall b l false s split = Ok t ->
  stem t = None
  /\ remove_stopwords t = _get_stopword_remover stopwords s
  /\ byte_limit t = b /\ word_limit t = l.
Proof.
  unfold Tokenize.new. intros E. apply bind_ok in E.
  destruct E as [splitter [_ E]]. injection E as <-. repeat split.
Qed.

Lemma tokens_lowercase_alnum_aux (b l : Z) (s : bool) (split : option str)
  (t : Rouge155Tokenizer) (text : str) :
  Tokenize.new porter_stem exceptions stopwords see_findall b l false s split = Ok t ->
  exists doc,
    tokenize_text t text = Ok doc
    /\ Forall (Forall (Forall lower_alnum)) doc.
Proof.
  intros E. destruct (@new_unstemmed b l s split t E) as (Hst & Hsw & _ & _).
  eapply tokenize_text_unstemmed; eauto.
Qed.

(** X22: Without stemming [tokenize_text] never raises, whatever the text,
    the limits, the stopword setting and the sentence splitting, and every
    token it returns is made of lowercase letters and digits only: no
    hyphen, no uppercase letter, no other character. *)
Theorem tokens_lowercase_alnum (b l : Z) (s : bool) (split : option str)
  (t : Rouge155Tokenizer) (text : str) :
  Tokenize.new porter_stem exceptions stopwords see_findall b l false s split = Ok t ->
  exists doc,
    tokenize_text t text = Ok doc
    /\ Forall (Forall (Forall lower_alnum)) doc.
Proof.
  apply tokens_lowercase_alnum_aux.
Qed.

(** X23: With stopword removal, no stemming and no byte limit, no token of
    the result is a stopword. *)
Theorem stopwords_removed (l : Z) (split : option str)
  (t : Rouge155Tokenizer) (text : str) (doc : Document) :
  Tokenize.new porter_stem exceptions stopwords see_findall 0 l false true split = Ok t ->
  tokenize_text t text = Ok doc ->
  Forall (Forall (fun w => ~ In w stopwords)) doc.
Proof.
  intros E Hdoc. destruct (@new_unstemmed 0%Z l true split t E) as (Hst & Hsw & Hb & _).
  eapply tokenize_text_no_stopword; eauto.
Qed.

End Constructed.

Lemma tokens_lowercase_alnum_witness :
  exists doc,
    tokenize_text (Sample.spl 0 0 false false) (of_string "Hi, You-2!") = Ok doc
    /\ Forall (Forall (Forall lower_alnum)) doc.
Proof.
  apply (@tokens_lowercase_alnum Sample.porter_stem Sample.exceptions
           Sample.stopwords Sample.see_findall 0%Z 0%Z false
           (Some (of_string "SPL")) (Sample.spl 0 0 false false)
           (of_string "Hi, You-2!")).
  reflexivity.
Defined.

Lemma stopwords_removed_witness :
  Forall (Forall (fun w => ~ In w Sample.stopwords))
    [[of_string "go"; of_string "now"]].
Proof.
  apply (@stopwords_removed Sample.porter_stem Sample.exceptions
           Sample.stopwords Sample.see_findall 0%Z
           (Some (of_string "SPL")) (Sample.spl 0 0 false true)
           (of_string "Go afterwards now")
           [[of_string "go"; of_string "now"]]).
  - reflexivity.
  - reflexivity.
Defined.

End WordExtras.

Module CaseExtras.

Import Tokenize PyFacts Spec TokenizeFacts TruncateFacts CharsetDefs WordExtras.

Lemma lower_char_idem (c : N) : lower_char (lower_char c) = lower_char c.
Proof.
  unfold lower_char, is_upper, in_range.
  destruct ((65 <=? c)%N && (c <=? 90)%N) eqn:E; [|rewrite E; reflexivity].
  bool_to_prop.
  replace ((65 <=? c + 32)%N && (c + 32 <=? 90)%N) with false; [reflexivity|].
  symmetry. apply andb_false_iff. right. apply N.leb_gt. lia.
Qed.

Lemma lower_idem (w : str) : lower (lower w) = lower w.
Proof.
  unfold lower. rewrite map_map. apply map_ext. apply lower_char_idem.
Qed.

Lemma lower_char_upper (c : N) :
  lower_char c = c \/ (is_upper c = true /\ lower_char c = (c + 32)%N).
Proof.
  unfold lower_char. destruct (is_upper c); [right; split | left]; reflexivity.
Qed.

Lemma lower_char_eq (c k : N) :
  is_upper k = false -> is_upper (k - 32) = false \/ (k < 32)%N ->
  N.eqb (lower_char c) k = N.eqb c k.
Proof.
  intros Hk Hk'. destruct (lower_char_upper c) as [->|[Hu ->]]; [reflexivity|].
  destruct (N.eqb c k) eqn:E1.
  - apply N.eqb_eq in E1. subst. congruence.
  - apply N.eqb_neq in E1. apply N.eqb_neq. intros E2.
    destruct Hk' as [Hk'|Hk']; [|lia].
    replace (k - 32)%N with c in Hk' by lia. congruence.
Qed.

Lemma is_word_char_lower (c : N) : is_word_char (lower_char c) = is_word_char c.
Proof.
  destruct (lower_char_upper c) as [->|[Hu ->]]; [reflexivity|].
  unfold is_word_char. rewrite Hu. simpl.
  unfold is_upper, is_lower, in_range in *.
  bool_to_prop.
  replace ((97 <=? c + 32)%N && (c + 32 <=? 122)%N) with true;
    [rewrite orb_true_r; reflexivity|].
  symmetry. apply andb_true_iff. split; apply N.leb_le; lia.
Qed.

Lemma is_space_lower (c : N) : is_space (lower_char c) = is_space c.
Proof.
  destruct (lower_char_upper c) as [->|[Hu ->]]; [reflexivity|].
  assert (H1 : is_word_char c = true) by (unfold is_word_char; rewrite Hu; reflexivity).
  assert (H2 : is_word_char (c + 32) = true).
  { pose proof (is_word_char_lower c) as X. unfold lower_char in X.
    rewrite Hu in X. rewrite X. exact H1. }
  rewrite (@word_char_not_space _ H1), (@word_char_not_space _ H2). reflexivity.
Qed.

Lemma isolate_hyphens_lower (s : str) :
  isolate_hyphens (lower s) = lower (isolate_hyphens s).
Proof.
  unfold isolate_hyphens, lower.
  induction s as [|c s IH]; [reflexivity|]. cbn [map flat_map].
  rewrite map_app, IH. f_equal.
  rewrite (@lower_char_eq c hyphen) by (vm_compute; auto).
  destruct (N.eqb c hyphen); reflexivity.
Qed.

Lemma blank_other_lower (s : str) :
  blank_other (lower s) = lower (blank_other s).
Proof.
  unfold blank_other, lower. rewrite !map_map. apply map_ext. intros c.
  rewrite is_word_char_lower. destruct (is_word_char c); reflexivity.
Qed.

Lemma split_ws_from_lower (s : str) : forall cur,
  split_ws_from (lower cur) (lower s) = map lower (split_ws_from cur s).
Proof.
  assert (Hrev : forall d cur,
             rev (lower (d :: cur)) = lower (rev (d :: cur))).
  { intros d cur. unfold lower. rewrite map_rev. reflexivity. }
  induction s as [|c s IH]; intros cur.
  - destruct cur as [|d cur]; [reflexivity|].
    change (split_ws_from (lower (d :: cur)) (lower []))
      with [rev (lower (d :: cur))].
    rewrite Hrev. reflexivity.
  - change (lower (c :: s)) with (lower_char c :: lower s).
    destruct (is_space c) eqn:E.
    + assert (E' : is_space (lower_char c) = true)
        by (rewrite is_space_lower; exact E).
      rewrite (@split_ws_from_space _ _ _ E'), (@split_ws_from_space _ _ _ E).
      destruct cur as [|d cur]; [apply (IH [])|].
      change (match lower (d :: cur) with
              | [] => split_ws_from [] (lower s)
              | _ :: _ => rev (lower (d :: cur)) :: split_ws_from [] (lower s)
              end)
        with (rev (lower (d :: cur)) :: split_ws_from (lower []) (lower s)).
      rewrite Hrev, (IH []). reflexivity.
    + assert (E' : is_space (lower_char c) = false)
        by (rewrite is_space_lower; exact E).
      rewrite (@split_ws_from_char _ _ _ E'), (@split_ws_from_char _ _ _ E).
      apply (IH (c :: cur)).
Qed.

Lemma words_lower (s : str) :
  split_ws (_preprocess_text (lower s))
  = map lower (split_ws (_preprocess_text s)).
Proof.
  rewrite !words_of_preprocess_text.
  rewrite isolate_hyphens_lower, blank_other_lower.
  apply (split_ws_from_lower _ []).
Qed.

Lemma split_on_newline_lower (s : str) :
  split_on newline (lower s) = map lower (split_on newline s).
Proof.
  induction s as [|c s IH]; [reflexivity|].
  change (lower (c :: s)) with (lower_char c :: lower s).
  cbn [split_on]. rewrite (@lower_char_eq c newline) by (vm_compute; auto).
  rewrite IH. destruct (N.eqb c newline); [reflexivity|].
  destruct (split_on newline s); reflexivity.
Qed.

Section Tokenizer.

Variable t : Rouge155Tokenizer.

Lemma preprocess_word_lower (w : str) :
  _preprocess_word t (lower w) = _preprocess_word t w.
Proof. unfold _preprocess_word. rewrite lower_idem. reflexivity. Qed.

Lemma tokenize_sentence_lower (s : str) :
  tokenize_sentence t (lower s) = tokenize_sentence t s.
Proof.
  unfold tokenize_sentence. rewrite words_lower.
  induction (split_ws (_preprocess_text s)) as [|w ws IH]; [reflexivity|].
  cbn [map flat_map]. rewrite IH, preprocess_word_lower. reflexivity.
Qed.

Lemma tokenize_text_lower (text : str) :
  split_sentences t (lower text) = map lower (split_sentences t text) ->
  tokenize_text t (lower text) = tokenize_text t text.
Proof.
  intros Hsplit. unfold tokenize_text, untruncated. rewrite Hsplit, map_map.
  rewrite (map_ext _ (tokenize_sentence t)) by apply tokenize_sentence_lower.
  reflexivity.
Qed.

End Tokenizer.

(** X24: Tokenization does not see the case of ASCII letters: turning every
    A-Z of the text into a-z changes nothing in the result, under "SPL"
    splitting or none, whatever the other settings. *)
Theorem tokenize_text_case_insensitive
  (porter_stem : str -> str) (exceptions : list (str * str))
  (stopwords : list str) (see_findall : str -> list (str * str * str * str))
  (b l : Z) (m s : bool) (split : option str) (t : Rouge155Tokenizer)
  (text : str) :
  split = None \/ split = Some (of_string "SPL") ->
  Tokenize.new porter_stem exceptions stopwords see_findall b l m s split = Ok t ->
  tokenize_text t (lower text) = tokenize_text t text.
Proof.
  intros Hsplit E. apply tokenize_text_lower.
  unfold Tokenize.new in E.
  destruct Hsplit as [-> | ->]; simpl in E; injection E as <-; simpl.
  - reflexivity.
  - apply split_on_newline_lower.
Qed.

Lemma tokenize_text_case_insensitive_witness :
  tokenize_text (Sample.spl 0 0 true true) (lower (of_string "Hi You"))
  = tokenize_text (Sample.spl 0 0 true true) (of_string "Hi You").
Proof.
  apply (@tokenize_text_case_insensitive Sample.porter_stem Sample.exceptions
           Sample.stopwords Sample.see_findall 0%Z 0%Z true true
           (Some (of_string "SPL")) (Sample.spl 0 0 true true)
           (of_string "Hi You")).
  - right. reflexivity.
  - reflexivity.
Defined.

End CaseExtras.

Module PunctuationExtras.

Import Tokenize PyFacts Spec TokenizeFacts TruncateFacts CharsetDefs WordExtras
       PlainDefs.

Lemma alnum_not_hyphen (c : N) : alnum c -> (c =? hyphen)%N = false.
Proof.
  unfold alnum, is_upper, is_lower, is_digit, in_range, hyphen. intros H.
  apply N.eqb_neq. bool_to_prop; lia.
Qed.

Lemma alnum_not_newline (c : N) : alnum c -> (c =? newline)%N = false.
Proof.
  unfold alnum, is_upper, is_lower, is_digit, in_range, newline. intros H.
  apply N.eqb_neq. bool_to_prop; lia.
Qed.

Lemma plain_char_alnum (c : N) : alnum c -> plain_char c = c.
Proof. unfold alnum, plain_char. intros ->. reflexivity. Qed.

Lemma plain_char_cases (c : N) :
  (alnum c /\ plain_char c = c)
  \/ (is_word_char (plain_char c) = false /\ is_space (plain_char c) = true
      /\ (is_word_char c = false \/ c = hyphen)
      /\ is_upper c || is_lower c || is_digit c = false).
Proof.
  unfold plain_char, alnum.
  destruct (is_upper c || is_lower c || is_digit c) eqn:Ea.
  - left. split; reflexivity.
  - right. simpl. destruct (N.eqb c newline) eqn:En.
    + apply N.eqb_eq in En. subst c.
      repeat split; try reflexivity. left. reflexivity.
    + repeat split; try reflexivity.
      unfold is_word_char. rewrite Ea. simpl.
      destruct (N.eqb c hyphen) eqn:Eh; [right; apply N.eqb_eq; exact Eh|].
      left. reflexivity.
Qed.

Lemma isolate_hyphens_plain (s : str) : isolate_hyphens (plain s) = plain s.
Proof.
  unfold isolate_hyphens, plain.
  induction s as [|c s IH]; [reflexivity|]. cbn [map flat_map]. rewrite IH.
  assert (E : (plain_char c =? hyphen)%N = false).
  { destruct (plain_char_cases c) as [[Ha ->] | (Hw & _)].
    - apply alnum_not_hyphen. exact Ha.
    - destruct (N.eqb (plain_char c) hyphen) eqn:E; [|reflexivity].
      apply N.eqb_eq in E. rewrite E in Hw. discriminate. }
  rewrite E. reflexivity.
Qed.

Lemma keep_alnum (cur : str) :
  cur <> [] -> Forall alnum cur -> keep (rev cur) = true.
Proof.
  intros Hne Hcur. unfold keep. apply negb_true_iff.
  destruct (str_eqb (rev cur) [hyphen]) eqn:E; [|reflexivity]. exfalso.
  apply str_eqb_eq in E.
  assert (Hc : cur = [hyphen])
    by (rewrite <- (rev_involutive cur), E; reflexivity).
  subst cur. inversion Hcur as [|? ? Ha _]; subst.
  apply alnum_not_hyphen in Ha. discriminate.
Qed.

(** The words of a sentence whose punctuation was turned into spaces are
    the words of the sentence without the hyphens standing alone. *)
Lemma words_plain_from (text : str) :
  forall cur, Forall alnum cur ->
  split_ws_from cur (blank_other (plain text))
  = filter keep (split_ws_from cur (blank_other (isolate_hyphens text))).
Proof.
  assert (Hflush : forall cur rest rest',
             Forall alnum cur -> rest = filter keep rest' ->
             match cur with [] => rest | _ :: _ => rev cur :: rest end
             = filter keep
                 match cur with [] => rest' | _ :: _ => rev cur :: rest' end).
  { intros [|c cur] rest rest' Hcur E; [exact E|].
    cbn [filter]. rewrite (@keep_alnum (c :: cur)) by (auto; discriminate).
    rewrite E. reflexivity. }
  induction text as [|c text IH]; intros cur Hcur.
  - simpl. destruct cur as [|c cur]; [reflexivity|].
    apply (Hflush (c :: cur) [] []); [exact Hcur | reflexivity].
  - unfold isolate_hyphens. cbn [flat_map]. fold (isolate_hyphens text).
    unfold blank_other at 2. rewrite map_app.
    fold (blank_other (isolate_hyphens text)).
    unfold plain. cbn [map]. fold (plain text).
    unfold blank_other at 1. cbn [map]. fold (blank_other (plain text)).
    destruct (plain_char_cases c) as [[Ha Ep] | (Hw & Hs & Hc & Hna)].
    + rewrite Ep, (alnum_word_char Ha), (alnum_not_hyphen Ha).
      cbn [map app]. rewrite (alnum_word_char Ha).
      rewrite !(@split_ws_from_char _ _ _
                  (@word_char_not_space _ (alnum_word_char Ha))).
      apply IH. constructor; assumption.
    + rewrite Hw.
      rewrite (@split_ws_from_space space cur _ eq_refl).
      destruct (N.eqb c hyphen) eqn:Eh.
      * change (map (fun c0 => if is_word_char c0 then c0 else space)
                    [space; hyphen; space])
          with [space; hyphen; space].
        cbn [app].
        rewrite (@split_ws_from_space space cur _ eq_refl).
        apply Hflush; [exact Hcur|].
        rewrite (@split_ws_from_char hyphen [] _ eq_refl).
        rewrite (@split_ws_from_space space [hyphen] _ eq_refl).
        cbn [filter]. change (keep (rev [hyphen])) with false. cbn iota.
        apply IH. constructor.
      * destruct Hc as [Hc | Hc]; [|subst c; rewrite N.eqb_refl in Eh; discriminate].
        cbn [map app]. rewrite Hc.
        rewrite (@split_ws_from_space space cur _ eq_refl).
        apply Hflush; [exact Hcur|]. apply IH. constructor.
Qed.

Lemma words_plain (text : str) :
  split_ws (_preprocess_text (plain text))
  = filter keep (split_ws (_preprocess_text text)).
Proof.
  rewrite !words_of_preprocess_text, isolate_hyphens_plain.
  apply words_plain_from. constructor.
Qed.

Lemma split_on_newline_plain (s : str) :
  split_on newline (plain s) = map plain (split_on newline s).
Proof.
  induction s as [|c s IH]; [reflexivity|].
  change (plain (c :: s)) with (plain_char c :: plain s).
  cbn [split_on]. rewrite IH.
  assert (E : (plain_char c =? newline)%N = (c =? newline)%N).
  { unfold plain_char.
    destruct (is_upper c || is_lower c || is_digit c || (c =? newline)%N) eqn:Ea;
      [reflexivity|].
    apply orb_false_iff in Ea. destruct Ea as [_ ->]. reflexivity. }
  rewrite E. destruct (N.eqb c newline); [reflexivity|].
  destruct (split_on newline s); reflexivity.
Qed.

Section Tokenizer.

Variable t : Rouge155Tokenizer.

Hypothesis hyphen_dropped : truthy (_preprocess_word t [hyphen]) = false.

Lemma tokenize_sentence_plain (s : str) :
  tokenize_sentence t (plain s) = tokenize_sentence t s.
Proof.
  unfold tokenize_sentence. rewrite words_plain.
  induction (split_ws (_preprocess_text s)) as [|w ws IH]; [reflexivity|].
  cbn [filter flat_map]. unfold keep at 1.
  destruct (str_eqb w [hyphen]) eqn:E; cbn [negb].
  - apply str_eqb_eq in E. subst w. rewrite hyphen_dropped. exact IH.
  - cbn [flat_map]. rewrite IH. reflexivity.
Qed.

Lemma tokenize_text_plain (text : str) :
  split_sentences t (plain text) = map plain (split_sentences t text) ->
  tokenize_text t (plain text) = tokenize_text t text.
Proof.
  intros Hsplit. unfold tokenize_text, untruncated. rewrite Hsplit, map_map.
  rewrite (map_ext _ (tokenize_sentence t)) by apply tokenize_sentence_plain.
  reflexivity.
Qed.

End Tokenizer.

(** X25: Every character that is not a letter, a digit or a line break acts as
    a space: replacing each by a space changes nothing in what
    [tokenize_text] returns, under "SPL" splitting or none.  Hyphens in
    particular split words and are not tokens themselves. *)
Theorem punctuation_is_space
  (porter_stem : str -> str) (exceptions : list (str * str))
  (stopwords : list str) (see_findall : str -> list (str * str * str * str))
  (b l : Z) (m s : bool) (split : option str) (t : Rouge155Tokenizer)
  (text : str) :
  split = None \/ split = Some (of_string "SPL") ->
  Tokenize.new porter_stem exceptions stopwords see_findall b l m s split = Ok t ->
  tokenize_text t (plain text) = tokenize_text t text.
Proof.
  intros Hsplit E.
  assert (Hdrop : truthy (_preprocess_word t [hyphen]) = false).
  { unfold Tokenize.new in E.
    apply bind_ok in E. destruct E as (splitter & _ & E). injection E as <-.
    unfold _preprocess_word. cbn [stem remove_stopwords].
    unfold _get_stopword_remover, _get_stemmer.
    change (lower [hyphen]) with [hyphen].
    destruct s, m; cbn [negb];
      try destruct (existsb (str_eqb [hyphen]) stopwords); reflexivity. }
  apply tokenize_text_plain; [exact Hdrop|].
  unfold Tokenize.new in E.
  destruct Hsplit as [-> | ->]; simpl in E; injection E as <-; simpl.
  - reflexivity.
  - apply split_on_newline_plain.
Qed.

Lemma punctuation_is_space_witness :
  tokenize_text (Sample.spl 0 0 true true) (plain (of_string "well-known, it is!"))
  = tokenize_text (Sample.spl 0 0 true true) (of_string "well-known, it is!").
Proof.
  apply (@punctuation_is_space Sample.porter_stem Sample.exceptions
           Sample.stopwords Sample.see_findall 0%Z 0%Z true true
           (Some (of_string "SPL")) (Sample.spl 0 0 true true)
           (of_string "well-known, it is!")).
  - right. reflexivity.
  - reflexivity.
Defined.

End PunctuationExtras.

(* ================================================================== *)
(** * Further properties: scoring end to end *)
(* ================================================================== *)

Module TotalExtras.

Import Rouge PyFacts Spec TokenizeFacts TruncateFacts CounterFacts RougeFacts
       BoundsFacts CharsetDefs WordExtras ResultExtras.

Lemma mapM_total (A B : Type) (f : A -> result B) (l : list A) :
  (forall x, In x l -> exists y, f x = Ok y) -> exists ys, mapM f l = Ok ys.
Proof.
  induction l as [|a l IH]; intros Hf; simpl; [eauto|].
  destruct (Hf a (or_introl eq_refl)) as [b ->]. simpl.
  destruct IH as [bs ->]; [intros x Hx; apply Hf; right; exact Hx|].
  simpl. eauto.
Qed.

Section FromArgs.

Variable porter_stem : str -> str.
Variable exceptions : list (str * str).
Variable stopwords : list str.
Variable see_findall : str -> list (str * str * str * str).

(** X11: A scorer built by [from_rouge155_args] without stemming and
    without stopword removal (neither reads a file), with scoring "A" and
    a weight between 0 and 1, always scores: the constructor returns, and
    [n_score] returns one entry per size for every candidate and every
    list of references, empty texts and an empty list included. *)
Theorem n_score_returns (args : Args) :
  arg_m args = false ->
  arg_s args = false ->
  arg_f args = of_string "A" ->
  (0 <= arg_p args <= 1)%Q ->
  exists self,
    from_rouge155_args porter_stem exceptions stopwords see_findall args = Ok self
    /\ forall ref_texts cand_text,
         exists res, n_score self ref_texts cand_text = Ok res
                     /\ length res = arg_n args.
Proof.
  intros Hm Hs Hf Hp. unfold from_rouge155_args. rewrite Hm, Hs.
  destruct (Tokenize.new porter_stem exceptions stopwords see_findall
              (arg_b args) (arg_l args) false false
              (Some (of_string "SPL"))) as [t|e] eqn:Et; [|discriminate].
  simpl. eexists. split; [reflexivity|].
  intros ref_texts cand_text.
  set (self := new t (arg_n args) (arg_f args) (arg_p args)).
  assert (Htok : forall text, exists doc, _tokenize self text = Ok doc).
  { intros text.
    destruct (@tokens_lowercase_alnum_aux porter_stem exceptions stopwords
                see_findall _ _ _ _ t text Et) as [doc [Hdoc _]].
    exists doc. exact Hdoc. }
  unfold n_score.
  destruct (Htok cand_text) as [cand ->]. simpl.
  destruct (@mapM_total _ _ (_tokenize self) ref_texts) as [refs ->];
    [intros x _; apply Htok|].
  simpl.
  destruct (@mapM_total _ _
              (fun n => s <- scores_at self refs cand n ;; Ok (label n, s))
              (seq 1 (N self))) as [res Hres].
  { intros n _.
    destruct (@average_scoring_returns _ self refs cand n Hf Hp) as [s ->].
    simpl. eauto. }
  exists res. split; [exact Hres|].
  apply mapM_labelled in Hres. destruct Hres as [Hkeys _].
  rewrite <- (length_map fst), Hkeys, length_map, length_seq. reflexivity.
Qed.

End FromArgs.

Lemma n_score_returns_witness :
  exists self,
    from_rouge155_args Sample.porter_stem Sample.exceptions Sample.stopwords
      Sample.see_findall default_args = Ok self
    /\ forall ref_texts cand_text,
         exists res, n_score self ref_texts cand_text = Ok res
                     /\ length res = arg_n default_args.
Proof.
  apply (@n_score_returns Sample.porter_stem Sample.exceptions
           Sample.stopwords Sample.see_findall default_args).
  - reflexivity.
  - reflexivity.
  - reflexivity.
  - split; compute; discriminate.
Defined.

End TotalExtras.

Module EdgeExtras.

Import Rouge PyFacts Spec CounterFacts RougeFacts BoundsFacts ResultExtras
       PerfectExtras IncrementalExtras.

Lemma round5_zero : round5 0 = 0%Q.
Proof. reflexivity. Qed.

Lemma mapM_Forall2 (A B C : Type) (f : A -> result B) (g : A -> result C)
  (rel : B -> C -> Prop) (l : list A) :
  (forall x y z, In x l -> f x = Ok y -> g x = Ok z -> rel y z) ->
  forall ys zs, mapM f l = Ok ys -> mapM g l = Ok zs -> Forall2 rel ys zs.
Proof.
  induction l as [|a l IH]; intros Hrel ys zs Ef Eg; simpl in *.
  - injection Ef as <-. injection Eg as <-. constructor.
  - destruct (f a) as [y|] eqn:Fa; simpl in Ef; [|discriminate].
    destruct (mapM f l) as [ys'|]; simpl in Ef; [|discriminate].
    destruct (g a) as [z|] eqn:Ga; simpl in Eg; [|discriminate].
    destruct (mapM g l) as [zs'|]; simpl in Eg; [|discriminate].
    injection Ef as <-. injection Eg as <-. constructor.
    + apply (Hrel a); [left; reflexivity | exact Fa | exact Ga].
    + apply IH; auto. intros x y' z' Hx. apply Hrel. right; exact Hx.
Qed.

Lemma aggregate_one (scoring : str) (x c : nat * nat * nat) :
  aggregate scoring [x] = Ok c -> c = x.
Proof.
  unfold aggregate. destruct x as [[a b] d].
  destruct (str_eqb scoring (of_string "A")).
  - simpl. unfold sum. simpl. intros E. injection E as <-.
    rewrite !Nat.add_0_r. reflexivity.
  - destruct (str_eqb scoring (of_string "B")); [|discriminate].
    simpl. destruct (Nat.eqb b 0); simpl; [discriminate|].
    intros E. injection E as <-. reflexivity.
Qed.

Section Scorer.

Context {T : Type} `{Base.BaseTokenizer T}.

Variable self : Rouge T.

(** X9: Without references [n_score] returns zeros under every scoring but
    "B"; under "B", [max] of an empty sequence raises [ValueError] as soon
    as N >= 1. *)
Theorem n_score_no_references (cand_text : str) (doc : Document) :
  _tokenize self cand_text = Ok doc ->
  n_score self [] cand_text
  = if str_eqb (scoring self) (of_string "B")
    then match N self with
         | 0 => Ok []
         | S _ => Raise ValueError
         end
    else Ok (map (fun n => (label n, {| R := 0; P := 0; F := 0 |}))
                 (seq 1 (N self))).
Proof.
  intros Hdoc. unfold n_score. rewrite Hdoc. simpl.
  destruct (str_eqb (scoring self) (of_string "B")) eqn:EB.
  - destruct (N self) as [|k]; [reflexivity|].
    cbn [seq mapM]. unfold scores_at, counts_at, aggregate. simpl map.
    rewrite EB. apply str_eqb_eq in EB. rewrite EB. reflexivity.
  - apply mapM_ok_map. intros n _.
    unfold scores_at, counts_at, aggregate. simpl map. rewrite EB.
    destruct (str_eqb (scoring self) (of_string "A")); reflexivity.
Qed.

(** X10: With one reference, exchanging the reference and the candidate
    exchanges recall and precision under every label. *)
Theorem n_score_swap (a b : str) (res res' : list (str * Scores)) :
  n_score self [a] b = Ok res ->
  n_score self [b] a = Ok res' ->
  map (fun e => (fst e, R (snd e), P (snd e))) res
  = map (fun e => (fst e, P (snd e), R (snd e))) res'.
Proof.
  intros E E'. unfold n_score in E, E'.
  apply bind_ok in E. destruct E as (db & Hb & E).
  apply bind_ok in E. destruct E as (ra & Ha & E).
  simpl in Ha. destruct (_tokenize self a) as [da|] eqn:Ea; [|discriminate].
  simpl in Ha. injection Ha as <-.
  simpl in E'. rewrite Hb in E'. simpl in E'.
  assert (F2 : Forall2 (fun x y : str * Scores =>
                          fst x = fst y /\ R (snd x) = P (snd y)
                          /\ P (snd x) = R (snd y)) res res').
  { eapply mapM_Forall2; [|exact E|exact E'].
    intros n x y _ Ex Ey.
    apply bind_ok in Ex. destruct Ex as (s & Hs & Ex). injection Ex as <-.
    apply bind_ok in Ey. destruct Ey as (s' & Hs' & Ey). injection Ey as <-.
    simpl. split; [reflexivity|].
    unfold scores_at in Hs, Hs'.
    apply bind_ok in Hs. destruct Hs as (c & Hc & Hs).
    apply bind_ok in Hs'. destruct Hs' as (c' & Hc' & Hs').
    unfold counts_at in Hc, Hc'. simpl map in Hc, Hc'.
    apply aggregate_one in Hc.
    apply aggregate_one in Hc'.
    rewrite MatchExtras.per_reference_swap in Hc'.
    subst c.
    destruct (per_reference (generate_counter (_ngram_tokenize db n)) n da)
      as [[cc rr] mm] eqn:Ep.
    subst c'.
    apply bind_ok in Hs. destruct Hs as (f & _ & Hs). injection Hs as <-.
    apply bind_ok in Hs'. destruct Hs' as (f' & _ & Hs'). injection Hs' as <-.
    simpl. split; reflexivity. }
  clear E E'. induction F2 as [|x y l l' (H1 & H2 & H3) _ IH]; simpl.
  - reflexivity.
  - rewrite H1, H2, H3, IH. reflexivity.
Qed.

End Scorer.

Section Feed.

Context {T : Type} `{Base.BaseTokenizer T}.

Lemma reset_incremental_ext (self self' : Rouge T) (ref_texts : list str) :
  tokenizer self' = tokenizer self -> N self' = N self ->
  scoring self' = scoring self -> alpha self' = alpha self ->
  reset_incremental self' ref_texts = reset_incremental self ref_texts.
Proof.
  destruct self, self'. simpl. intros -> -> -> ->. reflexivity.
Qed.

Lemma n_score_incremental_config (self self' : Rouge T) (text : str)
  (out : list (str * option Q)) :
  n_score_incremental self text = Ok (self', out) ->
  tokenizer self' = tokenizer self /\ N self' = N self
  /\ scoring self' = scoring self /\ alpha self' = alpha self.
Proof.
  unfold n_score_incremental. intros E.
  apply bind_ok in E. destruct E as (toks & _ & E).
  destruct (concat toks).
  - injection E as <- _. repeat split.
  - apply bind_ok in E. destruct E as (inc & _ & E).
    apply bind_ok in E. destruct E as (results & _ & E).
    injection E as <- _. repeat split.
Qed.

(** X15: [reset_incremental] after any number of successful calls of
    [n_score_incremental] builds the state it builds on the scorer the
    calls started from: nothing of what was fed survives a reset. *)
Theorem reset_forgets_increments (texts ref_texts : list str) :
  forall (self self' : Rouge T) (outs : list (list (str * option Q))),
  Session.feed self texts = Ok (self', outs) ->
  reset_incremental self' ref_texts = reset_incremental self ref_texts.
Proof.
  induction texts as [|text texts IH]; intros self self' outs E; simpl in E.
  - injection E as <- _. reflexivity.
  - apply bind_ok in E. destruct E as ([self1 out] & H1 & E).
    apply bind_ok in E. destruct E as ([self2 outs'] & H2 & E).
    injection E as <- _.
    rewrite (IH _ _ _ H2).
    apply n_score_incremental_config in H1.
    destruct H1 as (Ht & Hn & Hs & Ha).
    apply reset_incremental_ext; assumption.
Qed.

End Feed.

Lemma n_score_no_references_witness :
  n_score (Sample.rouge 2 "B") [] (of_string "a")
  = if str_eqb (scoring (Sample.rouge 2 "B")) (of_string "B")
    then match N (Sample.rouge 2 "B") with
         | 0 => Ok []
         | S _ => Raise ValueError
         end
    else Ok (map (fun n => (label n, {| R := 0; P := 0; F := 0 |}))
                 (seq 1 (N (Sample.rouge 2 "B")))).
Proof.
  apply (@n_score_no_references _ _ (Sample.rouge 2 "B") (of_string "a")
           [[of_string "a"]]).
  reflexivity.
Defined.

Lemma n_score_swap_witness :
  map (fun e => (fst e, R (snd e), P (snd e)))
    [(label 1, {| R := 33333 # 100000; P := 1 # 2; F := 2 # 5 |})]
  = map (fun e => (fst e, P (snd e), R (snd e)))
      [(label 1, {| R := 1 # 2; P := 33333 # 100000; F := 2 # 5 |})].
Proof.
  apply (@n_score_swap _ _ (Sample.rouge 1 "A")
           (of_string "a b c") (of_string "a d")).
  - reflexivity.
  - reflexivity.
Defined.

Lemma reset_forgets_increments_witness :
  reset_incremental
    (with_incremental (Sample.rouge 1 "A")
       {| ref_counters := ref_counters Sample.inc_a_a;
          refs_count := refs_count Sample.inc_a_a;
          prev_tokens := [[]; of_string "a"] |})
    [of_string "b"]
  = reset_incremental
      (with_incremental (Sample.rouge 1 "A") Sample.inc_a_a) [of_string "b"].
Proof.
  apply (@reset_forgets_increments _ _ [of_string "a"] [of_string "b"]
           (with_incremental (Sample.rouge 1 "A") Sample.inc_a_a)
           (with_incremental (Sample.rouge 1 "A")
              {| ref_counters := ref_counters Sample.inc_a_a;
                 refs_count := refs_count Sample.inc_a_a;
                 prev_tokens := [[]; of_string "a"] |})
           [[(label 1, Some (div 2 2))]]).
  reflexivity.
Defined.

End EdgeExtras.

(* ================================================================== *)
(** * Further properties: the sum of the incremental recalls *)
(* ================================================================== *)

Module TelescopeFacts.

Import Rouge PyFacts Spec CounterFacts RougeFacts BoundsFacts ResultExtras
       IncrementalExtras TelescopeDefs.

Lemma skipn_repeat (A : Type) (x : A) (m k : nat) :
  skipn m (repeat x k) = repeat x (k - m).
Proof.
  revert m. induction k as [|k IH]; intros [|m]; simpl; auto.
Qed.

(** From the n-th call on, the n-gram counted is the next n-gram of the
    text. *)
Lemma counted_ngram_late (N : nat) (W : list str) (n i : nat) :
  1 <= n -> n <= i -> i <= length W ->
  counted_ngram N W n i = join [Tokenize.space] (slice (i - n) n W).
Proof.
  intros Hn Hi Hlen. unfold counted_ngram, last_n, slice.
  destruct n as [|n]; [lia|]. f_equal.
  rewrite length_app, repeat_length, length_firstn, Nat.min_l by exact Hlen.
  rewrite skipn_app, repeat_length.
  rewrite (skipn_all2 (repeat [] N)) by (rewrite repeat_length; lia).
  simpl app. replace (N + i - S n - N) with (i - S n) by lia.
  rewrite skipn_firstn_comm. f_equal. lia.
Qed.

(** Before the n-th call the n-gram counted starts with the separator:
    its first token is a placeholder of the buffer. *)
Lemma counted_ngram_early (N : nat) (W : list str) (n i : nat) :
  1 <= i -> i < n -> n <= N -> i <= length W ->
  exists rest, counted_ngram N W n i = Tokenize.space :: rest.
Proof.
  intros Hi Hin HnN Hlen. unfold counted_ngram, last_n.
  destruct n as [|n]; [lia|].
  rewrite length_app, repeat_length, length_firstn, Nat.min_l by exact Hlen.
  rewrite skipn_app, repeat_length, skipn_repeat.
  replace (N + i - S n - N) with 0 by lia. simpl skipn.
  replace (N - (N + i - S n)) with (S (n - i)) by lia.
  destruct (firstn i W) as [|w ws] eqn:Ef.
  { apply (f_equal (@length str)) in Ef. rewrite length_firstn in Ef.
    simpl in Ef. lia. }
  simpl repeat. simpl app.
  destruct (repeat [] (n - i) ++ w :: ws) as [|y ys] eqn:Er.
  { destruct (repeat [] (n - i)); discriminate. }
  simpl. eauto.
Qed.

(** An n-gram of a text of plain tokens does not start with the
    separator. *)
Lemma ngram_starts_plain (doc : Document) (n : nat) (g : str) :
  1 <= n ->
  Forall (Forall plain_token) doc ->
  In g (_ngram_tokenize doc n) ->
  exists c rest, g = c :: rest /\ c <> Tokenize.space.
Proof.
  intros Hn Hdoc Hg. unfold _ngram_tokenize in Hg.
  apply in_map_iff in Hg. destruct Hg as [j [<- Hj]]. apply in_seq in Hj.
  assert (Hflat : Forall plain_token (concat doc)) by (apply Forall_concat; exact Hdoc).
  unfold slice.
  destruct (skipn j (concat doc)) as [|t1 ts] eqn:Es.
  { apply (f_equal (@length str)) in Es. rewrite length_skipn in Es.
    simpl in Es. lia. }
  assert (Ht1 : plain_token t1).
  { apply (proj1 (Forall_forall _ _) Hflat).
    rewrite <- (firstn_skipn j (concat doc)), Es. apply in_or_app. right. left.
    reflexivity. }
  destruct n as [|n]; [lia|]. simpl firstn.
  destruct Ht1 as [Hne Hsp]. destruct t1 as [|c r]; [contradiction|].
  exists c. destruct (firstn n ts) as [|y ys]; simpl; eexists;
    (split; [reflexivity|]); intros E; apply Hsp; left; exact E.
Qed.

Lemma occurs_early (N : nat) (W : list str) (doc : Document) (n i : nat) :
  1 <= i -> i < n -> n <= N -> i <= length W ->
  Forall (Forall plain_token) doc ->
  occurs (_ngram_tokenize doc n) (counted_ngram N W n i) = false.
Proof.
  intros Hi Hin HnN Hlen Hdoc.
  destruct (occurs (_ngram_tokenize doc n) (counted_ngram N W n i)) eqn:E;
    [|reflexivity].
  apply occurs_In in E.
  destruct (@counted_ngram_early N W n i Hi Hin HnN Hlen) as [rest Hr].
  destruct (@ngram_starts_plain doc n _ ltac:(lia) Hdoc E) as (c & r & Hc & Hne).
  rewrite Hr in Hc. injection Hc as Hc _. congruence.
Qed.

Lemma map_seq_offset (A : Type) (f : nat -> A) (len a : nat) :
  map f (seq a len) = map (fun j => f (a + j)) (seq 0 len).
Proof.
  revert a. induction len as [|len IH]; intros a; [reflexivity|].
  simpl. rewrite Nat.add_0_r. f_equal.
  rewrite IH, <- seq_shift, map_map. apply map_ext. intros j.
  f_equal. lia.
Qed.

(** The n-grams counted over a whole text fed token by token: placeholder
    n-grams first, then the n-grams of the text. *)
Lemma counted_ngrams_split (N : nat) (W : list str) (n : nat) :
  1 <= n -> n <= N ->
  map (counted_ngram N W n) (seq 1 (length W))
  = map (counted_ngram N W n) (seq 1 (Nat.min (length W) (n - 1)))
    ++ _ngram_tokenize [W] n.
Proof.
  intros Hn HnN. set (k := length W).
  replace k with (Nat.min k (n - 1) + (k - Nat.min k (n - 1))) at 1 by lia.
  rewrite seq_app, map_app. f_equal.
  unfold _ngram_tokenize. simpl concat. rewrite app_nil_r. fold k.
  destruct (Nat.le_gt_cases n k) as [Hle|Hgt].
  - rewrite Nat.min_r by lia.
    replace (1 + (n - 1)) with n by lia.
    replace (k - (n - 1)) with (S k - n) by lia.
    rewrite map_seq_offset. apply map_ext_in. intros j Hj. apply in_seq in Hj.
    rewrite counted_ngram_late by (fold k; lia).
    do 2 f_equal. lia.
  - rewrite Nat.min_l by lia. replace (k - k) with 0 by lia.
    replace (S k - n) with 0 by lia. reflexivity.
Qed.

Lemma sum_map_add (A : Type) (f g : A -> nat) (l : list A) :
  sum (map (fun x => f x + g x) l) = sum (map f l) + sum (map g l).
Proof.
  induction l as [|a l IH]; [reflexivity|].
  cbn [map]. rewrite !sum_cons, IH. lia.
Qed.

Lemma sum_map_zero (A : Type) (l : list A) : sum (map (fun _ => 0) l) = 0.
Proof. induction l as [|a l IH]; [reflexivity|]. cbn [map]. rewrite sum_cons, IH. reflexivity. Qed.

Lemma filter_none (A : Type) (p : A -> bool) (l : list A) :
  (forall x, In x l -> p x = false) -> filter p l = [].
Proof.
  induction l as [|a l IH]; intros Hp; [reflexivity|]. simpl.
  rewrite (Hp a) by (left; reflexivity).
  apply IH. intros x Hx. apply Hp. right. exact Hx.
Qed.

Lemma ngrams_flat (doc : Document) (n : nat) :
  _ngram_tokenize doc n = _ngram_tokenize [concat doc] n.
Proof. unfold _ngram_tokenize. simpl. rewrite app_nil_r. reflexivity. Qed.

(** One call adds, reference by reference, 1 when the n-gram counted
    occurs in the reference. *)
Lemma membership_counted (docs : list Document) (N : nat) (W : list str)
  (n i : nat) :
  1 <= n -> n <= N ->
  membership_matches docs (repeat [] N ++ firstn i W) n
  = sum (map (fun d => length (filter (occurs (_ngram_tokenize d n))
                                      [counted_ngram N W n i]))
             docs).
Proof.
  intros Hn HnN. unfold membership_matches.
  rewrite new_ngrams_of_single; [reflexivity|].
  rewrite length_app, repeat_length. lia.
Qed.

Lemma sum_over_calls (docs : list Document) (g : nat -> str) (n : nat)
  (calls : list nat) :
  sum (map (fun i =>
              sum (map (fun d => length (filter (occurs (_ngram_tokenize d n)) [g i]))
                       docs))
           calls)
  = sum (map (fun d => length (filter (occurs (_ngram_tokenize d n)) (map g calls)))
             docs).
Proof.
  induction calls as [|i calls IH].
  - simpl. rewrite sum_map_zero. reflexivity.
  - cbn [map]. rewrite sum_cons, IH, <- sum_map_add.
    f_equal. apply map_ext. intros d.
    change (g i :: map g calls) with ([g i] ++ map g calls).
    rewrite filter_app, length_app. reflexivity.
Qed.

(** When no n-gram of the candidate repeats, the number of its n-grams
    found in a reference is the size of the multiset intersection. *)
Lemma distinct_ngrams_matches (cand_ngrams ref_ngrams : list str) :
  NoDup cand_ngrams ->
  length (filter (occurs ref_ngrams) cand_ngrams)
  = multiset_intersection cand_ngrams ref_ngrams.
Proof.
  intros Hnd. unfold multiset_intersection.
  rewrite (nodup_fixed_point str_eq_dec Hnd).
  rewrite (map_ext_in _ (fun _ => 1)).
  - induction (filter (occurs ref_ngrams) cand_ngrams) as [|a l IH];
      [reflexivity|]. cbn [map length]. rewrite sum_cons, <- IH. reflexivity.
  - intros g Hg. apply filter_In in Hg. destruct Hg as [Hin Hocc].
    unfold occurrences.
    rewrite (proj1 (NoDup_count_occ' str_eq_dec cand_ngrams) Hnd g Hin).
    apply occurs_In in Hocc.
    apply (count_occ_In str_eq_dec) in Hocc. lia.
Qed.

(** Fed token by token after [reset_incremental], the numerators add up
    to the pooled match count of [n_score], provided the candidate has no
    repeated n-gram and the reference tokens are plain. *)
Lemma numerators_sum (docs : list Document) (N : nat) (W : list str) (n : nat) :
  1 <= n -> n <= N ->
  Forall (Forall (Forall plain_token)) docs ->
  NoDup (_ngram_tokenize [W] n) ->
  sum (map (fun i => membership_matches docs (repeat [] N ++ firstn i W) n)
           (seq 1 (length W)))
  = batch_matches docs [W] n.
Proof.
  intros Hn HnN Hdocs Hnd.
  rewrite (map_ext _ (fun i =>
             sum (map (fun d => length (filter (occurs (_ngram_tokenize d n))
                                               [counted_ngram N W n i]))
                      docs)))
    by (intros i; apply membership_counted; assumption).
  rewrite sum_over_calls, counted_ngrams_split by assumption.
  unfold batch_matches. f_equal. apply map_ext_in. intros d Hd.
  rewrite filter_app, filter_none, app_nil_l.
  - apply distinct_ngrams_matches, Hnd.
  - intros g Hg. apply in_map_iff in Hg. destruct Hg as [i [<- Hi]].
    apply in_seq in Hi. apply occurs_early; try lia.
    exact (proj1 (Forall_forall _ _) Hdocs d Hd).
Qed.

End TelescopeFacts.

Module TelescopeExtras.

Import Rouge PyFacts Spec CounterFacts RougeFacts BoundsFacts ResultExtras
       IncrementalExtras TelescopeDefs TelescopeFacts.

Lemma numerators_single (docs : list Document) (n : nat) (tdocs : list Document) :
  Forall (fun d => exists w, concat d = [w]) tdocs ->
  forall prev,
    numerators docs prev tdocs n
    = map (fun i => membership_matches docs
                      (prev ++ firstn i (concat (map (@concat str) tdocs))) n)
          (seq 1 (length (concat (map (@concat str) tdocs)))).
Proof.
  induction 1 as [|d tdocs [w Hw] _ IH]; intros prev; [reflexivity|].
  cbn [numerators map concat]. rewrite Hw.
  cbn [app length seq map firstn]. f_equal.
  rewrite IH, <- (seq_shift _ 1), map_map. apply map_ext. intros i.
  cbn [firstn]. rewrite <- app_assoc. reflexivity.
Qed.

(** Each call reports, under every label, its numerator over the stored
    total. *)
Lemma ready_outputs_numerators (docs : list Document) (N n : nat)
  (tdocs : list Document) :
  1 <= n <= N ->
  forall prev,
    Forall2 (fun out k => In (label n, Some (div k (total docs n))) out)
            (ready_outputs docs N prev tdocs)
            (numerators docs prev tdocs n).
Proof.
  intros Hn. induction tdocs as [|d tdocs IH]; intros prev; simpl.
  - constructor.
  - constructor; [|apply IH].
    apply in_map_iff. exists n. split; [reflexivity|]. apply in_seq. lia.
Qed.

Section Scorer.

Context {T : Type} `{Base.BaseTokenizer T}.

Lemma feed_ready (docs : list Document) (texts : list str) :
  forall (tdocs : list Document) (self : Rouge T) (inc : Incremental),
    incremental self = Some inc ->
    ref_counters inc = tables docs (N self) ->
    refs_count inc = totals docs (N self) ->
    (forall k, 1 <= k <= N self -> total docs k <> 0) ->
    mapM (_tokenize self) texts = Ok tdocs ->
    Forall (fun d => concat d <> []) tdocs ->
    exists self',
      Session.feed self texts
      = Ok (self', ready_outputs docs (N self) (prev_tokens inc) tdocs).
Proof.
  induction texts as [|text texts IH];
    intros tdocs self inc Hinc Htab Htot Hnz Htok Hne; simpl in Htok.
  - injection Htok as <-. simpl. eauto.
  - apply bind_ok in Htok. destruct Htok as [d [Hd Htok]].
    apply bind_ok in Htok. destruct Htok as [tdocs' [Htd Htok]].
    injection Htok as <-.
    inversion Hne as [|? ? Hd1 Hne']; subst.
    cbn [Session.feed].
    rewrite (@n_score_incremental_ready _ _ self inc docs text d
               Hinc Htab Htot Hd Hd1 Hnz).
    cbn [bind].
    set (inc1 := {| ref_counters := ref_counters inc;
                    refs_count := refs_count inc;
                    prev_tokens := prev_tokens inc ++ concat d |}).
    destruct (IH tdocs' (with_incremental self inc1) inc1)
      as [self' Hfeed]; try assumption; try reflexivity.
    rewrite Hfeed. cbn [bind]. eexists. reflexivity.
Qed.

Variable self : Rouge T.

Lemma counts_at_average (docs : list Document) (cand : Document) (n : nat) :
  scoring self = of_string "A" ->
  counts_at self docs cand n
  = Ok (length docs * length (_ngram_tokenize cand n),
        total docs n, batch_matches docs cand n).
Proof.
  intros Hsc. unfold counts_at, aggregate. rewrite Hsc. simpl.
  rewrite !map_map. unfold per_reference. cbn [fst snd].
  f_equal. f_equal; [f_equal|].
  - rewrite generate_counter_total.
    induction docs as [|d ds IH]; [reflexivity|].
    cbn [map length]. rewrite sum_cons, IH. simpl. reflexivity.
  - unfold total. f_equal. apply map_ext. intros d.
    apply generate_counter_total.
  - unfold batch_matches. f_equal. apply map_ext. intros d.
    apply matches_of_multiset.
Qed.

Lemma incremental_sum_aux (ref_texts texts : list str)
  (docs tdocs : list Document) (cand : Document) (n : nat) :
  mapM (_tokenize self) ref_texts = Ok docs ->
  mapM (_tokenize self) texts = Ok tdocs ->
  Forall (fun d => exists w, concat d = [w]) tdocs ->
  concat cand = concat (map (@concat str) tdocs) ->
  Forall (Forall (Forall plain_token)) docs ->
  (forall k, 1 <= k <= N self -> total docs k <> 0) ->
  1 <= n <= N self ->
  NoDup (_ngram_tokenize cand n) ->
  exists outs ks,
    Session.run self ref_texts texts = Ok outs
    /\ Forall2 (fun out k => In (label n, Some (div k (total docs n))) out)
               outs ks
    /\ sum ks = batch_matches docs cand n.
Proof.
  intros Hdocs Htd Hsingle Hcand Hplain Hnz Hn Hnd.
  unfold Session.run.
  rewrite (@reset_incremental_ok _ _ self ref_texts docs Hdocs). cbn [bind].
  set (inc0 := {| ref_counters := tables docs (N self);
                  refs_count := totals docs (N self);
                  prev_tokens := repeat [] (N self) |}).
  destruct (@feed_ready docs texts tdocs (with_incremental self inc0) inc0)
    as [self' Hfeed]; try assumption; try reflexivity.
  { eapply Forall_impl; [|exact Hsingle]. intros d [w ->]. discriminate. }
  rewrite Hfeed. cbn [bind snd].
  change (N (with_incremental self inc0)) with (N self).
  change (prev_tokens inc0) with (repeat (@nil BinNums.N) (N self)).
  exists (ready_outputs docs (N self) (repeat [] (N self)) tdocs),
         (numerators docs (repeat [] (N self)) tdocs n).
  split; [reflexivity|]. split.
  - apply ready_outputs_numerators. exact Hn.
  - rewrite (@numerators_single docs n tdocs Hsingle).
    rewrite <- Hcand.
    rewrite numerators_sum; try lia; try assumption.
    + unfold batch_matches. rewrite <- (ngrams_flat cand n). reflexivity.
    + rewrite <- ngrams_flat. exact Hnd.
Qed.

(** X16: The promise of the docstring of [n_score_incremental], where it
    holds and in whole numbers.  Under scoring "A", after
    [reset_incremental], let a text be fed one token per call, the tokens
    fed being the tokens [n_score] gets from the whole text; let no n-gram
    of the text occur twice, the reference tokens be non-empty and without
    a space, and no reference total be zero.  Then every call returns,
    each reports under "ROUGE-n" its own match count over the stored
    total, and these match counts add up to the [matches_count] that
    [n_score] computes for the whole text, over the same total. *)
Theorem incremental_sum_word_by_word (ref_texts texts : list str) (text : str)
  (docs tdocs : list Document) (cand : Document) (n : nat) :
  scoring self = of_string "A" ->
  mapM (_tokenize self) ref_texts = Ok docs ->
  _tokenize self text = Ok cand ->
  mapM (_tokenize self) texts = Ok tdocs ->
  Forall (fun d => exists w, concat d = [w]) tdocs ->
  concat cand = concat (map (@concat str) tdocs) ->
  Forall (Forall (Forall plain_token)) docs ->
  (forall k, 1 <= k <= N self -> total docs k <> 0) ->
  1 <= n <= N self ->
  NoDup (_ngram_tokenize cand n) ->
  exists outs ks cands_count,
    Session.run self ref_texts texts = Ok outs
    /\ Forall2 (fun out k => In (label n, Some (div k (total docs n))) out)
               outs ks
    /\ n_score self ref_texts text
       = mapM (fun k => s <- scores_at self docs cand k ;; Ok (label k, s))
              (seq 1 (N self))
    /\ counts_at self docs cand n = Ok (cands_count, total docs n, sum ks).
Proof.
  intros Hsc Hdocs Hcand Htd Hsingle Hflat Hplain Hnz Hn Hnd.
  destruct (@incremental_sum_aux ref_texts texts docs tdocs cand n)
    as (outs & ks & Hrun & Hout & Hsum); try assumption.
  exists outs, ks. eexists. split; [exact Hrun|]. split; [exact Hout|]. split.
  - unfold n_score. rewrite Hcand. cbn [bind]. rewrite Hdocs. reflexivity.
  - rewrite Hsum. apply counts_at_average. exact Hsc.
Qed.

End Scorer.

Lemma incremental_sum_word_by_word_witness :
  exists outs ks cands_count,
    Session.run (Sample.rouge 2 "A") [of_string "a b c"]
      [of_string "a"; of_string "b"] = Ok outs
    /\ Forall2 (fun out k =>
                  In (label 2,
                      Some (div k (total [[[of_string "a"; of_string "b";
                                            of_string "c"]]] 2)))
                     out)
               outs ks
    /\ n_score (Sample.rouge 2 "A") [of_string "a b c"] (of_string "a b")
       = mapM (fun k =>
                 s <- scores_at (Sample.rouge 2 "A")
                        [[[of_string "a"; of_string "b"; of_string "c"]]]
                        [[of_string "a"; of_string "b"]] k ;;
                 Ok (label k, s))
              (seq 1 (N (Sample.rouge 2 "A")))
    /\ counts_at (Sample.rouge 2 "A")
         [[[of_string "a"; of_string "b"; of_string "c"]]]
         [[of_string "a"; of_string "b"]] 2
       = Ok (cands_count,
             total [[[of_string "a"; of_string "b"; of_string "c"]]] 2,
             sum ks).
Proof.
  apply (@incremental_sum_word_by_word _ _ (Sample.rouge 2 "A")
           [of_string "a b c"] [of_string "a"; of_string "b"]
           (of_string "a b")
           [[[of_string "a"; of_string "b"; of_string "c"]]]
           [[[of_string "a"]]; [[of_string "b"]]]
           [[of_string "a"; of_string "b"]] 2).
  - reflexivity.
  - reflexivity.
  - reflexivity.
  - reflexivity.
  - repeat constructor; eexists; reflexivity.
  - reflexivity.
  - repeat (apply Forall_cons || apply Forall_nil);
      (split; [discriminate | intros [E | []]; discriminate]).
  - intros k Hk. simpl in Hk.
    destruct k as [|[|[|k]]]; try lia; discriminate.
  - simpl. lia.
  - repeat constructor. simpl. tauto.
Defined.

End TelescopeExtras.
